(** * The segment permutation codec of audio-encode

    A shallow embedding of the core of [src/components/AudioProcessor.tsx]
    and [src/components/AudioEditor.tsx]: the segmenter, the Split and
    OddEven permutations with their decoders, the reversal stage and the
    encoding-code generator and parser, followed by the properties that
    the specification states about them.  The last part goes on to the
    two runs from buffer to buffer, the encode and decode panels, the
    copy loops of AudioEditor, the WAV writer and the clock. *)

From Stdlib Require Import ZArith QArith Qround Qminmax Qpower Ascii Lia Lqa.
From Stdlib Require String.
From Stdlib Require DecimalN DecimalPos.
From stdpp Require Import base list strings.

Close Scope Q_scope.

(** [x < y] on rationals, as a boolean. *)
Definition Qltb (x y : Q) : bool := negb (Qle_bool y x).

(** ** JavaScript arrays

    A dense array is a [list A]; an array made by [new Array(n)] and then
    filled by index is a [list (option A)], where [None] is a hole
    ([undefined]).  The elements stored by the codec are segment objects,
    which are always truthy. *)
Module Js.
Section Arrays.
Context {A : Type}.

(** [new Array(n)] *)
Definition new_Array (n : nat) : list (option A) := replicate n None.

(** [arr[i] = v].  A write past the end grows the array and leaves
  holes in between. *)
Definition array_set (i : nat) (v : A) (arr : list (option A)) : list (option A) :=
if decide (i < length arr) then <[i := Some v]> arr
else arr ++ replicate (i - length arr) None ++ [Some v].

(** [arr.filter(Boolean)]: holes and [undefined] are dropped, objects kept. *)
Definition filter_Boolean (arr : list (option A)) : list A := omap id arr.

(** [l.forEach((x, index) => ...)] where the callback updates a store [St]. *)
Fixpoint forEach_from {St : Type} (f : A -> nat -> St -> St) (i : nat) (l : list A) (s : St) : St :=
match l with
| [] => s
| x :: l' => forEach_from f (S i) l' (f x i s)
end.

Definition forEach {St : Type} (f : A -> nat -> St -> St) (l : list A) (s : St) : St :=
forEach_from f 0 l s.

(** [l.filter((_, i) => p i)] *)
Fixpoint filter_index_from (p : nat -> bool) (i : nat) (l : list A) : list A :=
match l with
| [] => []
| x :: l' => if p i then x :: filter_index_from p (S i) l'
             else filter_index_from p (S i) l'
end.

Definition filter_index (p : nat -> bool) (l : list A) : list A :=
filter_index_from p 0 l.

(** [l.slice(a, b)] for non-negative integers [a], [b]. *)
Definition slice (a b : nat) (l : list A) : list A := take (b - a) (drop a l).

(** [l.slice(a)] *)
Definition slice_from (a : nat) (l : list A) : list A := drop a l.
End Arrays.

(** The tests [i % 2 === 0] and [i % 2 === 1] on an index. *)
Definition is_even_index (i : nat) : bool := i mod 2 =? 0.
Definition is_odd_index (i : nat) : bool := i mod 2 =? 1.

(** [Math.ceil(n / k)] on non-negative integers, [k > 0]. *)
Definition ceil_div (n k : nat) : nat := (n + (k - 1)) / k.

(** [Math.max(...ns)] as a loop bound: the maximum of the lengths, and
    nothing to iterate over when there are none. *)
Definition max_list (ns : list nat) : nat := foldr Nat.max 0 ns.
End Js.

(** ** The permutation engine ([encodeAudio] and [decodeAudio] of AudioProcessor) *)
Module Permutation.
Section Permutation.
Context {A : Type}.

(** The [split] branch of [encodeAudio]. *)
Definition split_parts (numberOfParts : nat) (segments : list A) : list (list A) :=
let segmentsPerPart := Js.ceil_div (length segments) numberOfParts in
(fun i =>
   let startIdx := i * segmentsPerPart in
   let endIdx := Nat.min ((i + 1) * segmentsPerPart) (length segments) in
   Js.slice startIdx endIdx segments)
  <$> seq 0 numberOfParts.

Definition encodeSplit (numberOfParts : nat) (segments : list A) : list A :=
let parts := split_parts numberOfParts segments in
let maxLength := Js.max_list (length <$> parts) in
concat ((fun i => omap (fun part : list A => part !! i) parts) <$> seq 0 maxLength).

(** The [oddEven] branch of [encodeAudio]. *)
Definition encodeOddEven (segments : list A) : list A :=
let odd := Js.filter_index Js.is_even_index segments in
let even := Js.filter_index Js.is_odd_index segments in
odd ++ even.

(** The [split] branch of [decodeAudio]. *)
Definition decodeSplit (decodeNumberOfParts : nat) (segments : list A) : list A :=
let totalSegments := length segments in
let segmentsPerPart := Js.ceil_div totalSegments decodeNumberOfParts in
let reorderedSegments :=
  Js.forEach (fun segment index (arr : list (option A)) =>
                let partIndex := index mod decodeNumberOfParts in
                let positionInPart := index / decodeNumberOfParts in
                let finalPosition := partIndex * segmentsPerPart + positionInPart in
                if finalPosition <? totalSegments
                then Js.array_set finalPosition segment arr
                else arr)
             segments (Js.new_Array totalSegments) in
Js.filter_Boolean reorderedSegments.

(** The [oddEven] branch of [decodeAudio]. *)
Definition decodeOddEven (segments : list A) : list A :=
let totalSegments := length segments in
let oddCount := Js.ceil_div totalSegments 2 in
let odds := Js.slice 0 oddCount segments in
let evens := Js.slice_from oddCount segments in
let arr0 := Js.new_Array totalSegments in
let arr1 := Js.forEach (fun segment index arr => Js.array_set (index * 2) segment arr)
                       odds arr0 in
let arr2 := Js.forEach (fun segment index arr =>
                          if index * 2 + 1 <? totalSegments
                          then Js.array_set (index * 2 + 1) segment arr
                          else arr)
                       evens arr1 in
Js.filter_Boolean arr2.
End Permutation.
End Permutation.

(** ** Audio buffers and the segmenter

    Times, sample rates and samples are rational numbers ([Q]): the model
    computes with the exact values where JavaScript computes with
    doubles.  An [await] between two steps changes nothing and is left
    out. *)
Module Audio.
Local Open Scope Q_scope.

(** A call returns a value or never returns (a loop whose bound is
    [Infinity]). *)
Inductive outcome (A : Type) := Returns (a : A) | Diverges.
Global Arguments Returns {A} a.
Global Arguments Diverges {A}.

(** An [AudioBuffer]: one list of samples per channel, at least one
    channel, all of one length. *)
Record AudioBuffer := {
  sampleRate : Q;
  channelData : list (list Q)
}.

Definition numberOfChannels (b : AudioBuffer) : nat := length (channelData b).

(** [buffer.length] *)
Definition frames (b : AudioBuffer) : nat :=
  match channelData b with
  | c :: _ => length c
  | [] => 0%nat
  end.

(** [buffer.duration] *)
Definition duration (b : AudioBuffer) : Q :=
  inject_Z (Z.of_nat (frames b)) / sampleRate b.

(** [audioContext.createBuffer(numberOfChannels, length, sampleRate)]:
    a silent buffer.  (Web Audio refuses a zero length or channel count;
    that error is not part of the model.) *)
Definition createBuffer (nch len : nat) (rate : Q) : AudioBuffer :=
  {| sampleRate := rate; channelData := replicate nch (replicate len 0) |}.

(** [new Float32Array(x)] for [x >= 0]: the length is [x] truncated. *)
Definition Float32Array_length (x : Q) : nat := Z.to_nat (Qfloor x).

(** [buffer.copyFromChannel(data, channel, offset)] on a fresh [data] of
    length [len]: the samples from [offset] on, as many as there are and
    as fit; what is left of [data] stays silent. *)
Definition copyFromChannel (len : nat) (channel : list Q) (offset : nat) : list Q :=
  let copied := take len (drop offset channel) in
  copied ++ replicate (len - length copied)%nat 0.

Definition MAX_SEGMENT_SIZE : Q := 1024 * 1024.

(** *** AudioProcessor *)
Module Processor.
Record AudioSegment := {
  start : Q;
  end_ : Q;
  data : list (list Q)
}.

(** One turn of the loop of [createAudioSegments]. *)
Definition makeSegment (audioBuffer : AudioBuffer) (segmentDuration : Q)
           (maxSamplesPerSegment : Q) (i : nat) : AudioSegment :=
  let start := inject_Z (Z.of_nat i) * segmentDuration in
  let end_ := Qmin (inject_Z (Z.of_nat (i + 1)) * segmentDuration) (duration audioBuffer) in
  let segmentLength :=
    Qmin (inject_Z (Qfloor ((end_ - start) * sampleRate audioBuffer)))
         maxSamplesPerSegment in
  let channelData :=
    (fun channel =>
       copyFromChannel (Float32Array_length segmentLength) channel
                       (Z.to_nat (Qfloor (start * sampleRate audioBuffer))))
      <$> channelData audioBuffer in
  {| start := start; end_ := end_; data := channelData |}.

(** [createAudioSegments(audioBuffer, segmentDuration)].  A zero
    [segmentDuration] makes the number of segments [Infinity] (the
    loop never ends) or, for an empty buffer, [NaN] (the loop is not
    entered). *)
Definition createAudioSegments (audioBuffer : AudioBuffer) (segmentDuration : Q)
  : outcome (list AudioSegment) :=
  if Qeq_bool segmentDuration 0 then
    if Qltb 0 (duration audioBuffer) then Diverges else Returns []
  else
    let numberOfSegments := Qceiling (duration audioBuffer / segmentDuration) in
    let maxSamplesPerSegment :=
      Qmin (inject_Z (Qfloor (segmentDuration * sampleRate audioBuffer)))
           (MAX_SEGMENT_SIZE / inject_Z (Z.of_nat (numberOfChannels audioBuffer))) in
    Returns (makeSegment audioBuffer segmentDuration maxSamplesPerSegment
               <$> seq 0 (Z.to_nat numberOfSegments)).

(** [segment.data[0].length]; [None] when there is no channel 0. *)
Definition data0_length (segment : AudioSegment) : option nat :=
  length <$> (data segment !! 0%nat).

(** [segments.reduce((sum, segment) => sum + segment.data[0].length, 0)] *)
Definition totalLength (segments : list AudioSegment) : option nat :=
  foldl (fun sum segment => s ← sum; n ← data0_length segment; Some (s + n)%nat)
        (Some 0%nat) segments.

(** [target.set(source, offset)]; [None] is the [RangeError] of a
    source that does not fit. *)
Definition typed_array_set (source : list Q) (offset : nat) (target : list Q)
  : option (list Q) :=
  if decide (offset + length source <= length target)%nat
  then Some (take offset target ++ source ++ drop (offset + length source) target)
  else None.

(** The inner loop of [processInBatches] over the channels of one
    segment. *)
Definition write_segment (numberOfChannels : nat) (segment : AudioSegment)
           (writePosition : nat) (channels : list (list Q))
  : option (list (list Q)) :=
  foldl (fun acc channel =>
           chans ← acc;
           source ← data segment !! channel;
           target ← chans !! channel;
           written ← typed_array_set source writePosition target;
           Some (<[channel := written]> chans))
        (Some channels) (seq 0 numberOfChannels).

(** [segments.slice(i, i + batchSize)] for [i = 0, batchSize, ...] *)
Fixpoint batches {A : Type} (batchSize : nat) (fuel : nat) (l : list A) : list (list A) :=
  match fuel with
  | O => []
  | S fuel' =>
      match l with
      | [] => []
      | _ => take batchSize l :: batches batchSize fuel' (drop batchSize l)
      end
  end.

(** [processInBatches(segments, audioContext, numberOfChannels,
    sampleRate)] with the default [batchSize] of 50; [None] is a
    thrown exception.  The source empties [segment.data] after the
    segment is written; no segment object occurs twice in the
    sequences that the component builds, so no later read sees it. *)
Definition processInBatches (segments : list AudioSegment)
           (numberOfChannels : nat) (sampleRate : Q) : option AudioBuffer :=
  total ← totalLength segments;
  let resultBuffer := createBuffer numberOfChannels total sampleRate in
  let step (st : option (list (list Q) * nat)) (segment : AudioSegment) :=
    '(chans, writePosition) ← st;
    chans' ← write_segment numberOfChannels segment writePosition chans;
    n ← data0_length segment;
    Some (chans', (writePosition + n)%nat) in
  st ← foldl (fun st batch => foldl step st batch)
             (Some (channelData resultBuffer, 0%nat))
             (batches 50 (length segments) segments);
  Some {| sampleRate := sampleRate; channelData := st.1 |}.

(** [reverseAudioBuffer(buffer)] *)
Definition reverseAudioBuffer (buffer : AudioBuffer) : AudioBuffer :=
  let reversedBuffer :=
    createBuffer (numberOfChannels buffer) (frames buffer) (sampleRate buffer) in
  {| sampleRate := sampleRate reversedBuffer;
     channelData :=
       (fun channelData : list Q =>
          (fun i => default 0 (channelData !! (length channelData - 1 - i)%nat))
            <$> seq 0 (length channelData))
         <$> channelData buffer |}.
End Processor.

(** *** AudioEditor *)
Module Editor.
Record AudioSegment := {
  start : Q;
  end_ : Q
}.

(** [createAudioSegments(totalDuration)], reading the [interval] of the
    component.  A zero [interval] makes [segmentCount] [Infinity] or
    [NaN], as in AudioProcessor. *)
Definition createAudioSegments (interval : Q) (totalDuration : Q)
  : outcome (list AudioSegment) :=
  if Qeq_bool interval 0 then
    if Qltb 0 totalDuration then Diverges else Returns []
  else
    let segmentCount := Qfloor (totalDuration / interval) in
    let full :=
      (fun i : nat =>
         {| start := inject_Z (Z.of_nat i) * interval;
            end_ := Qmin (inject_Z (Z.of_nat (i + 1)) * interval) totalDuration |})
        <$> seq 0 (Z.to_nat segmentCount) in
    let rest :=
      if Qltb (inject_Z segmentCount * interval) totalDuration
      then [{| start := inject_Z segmentCount * interval; end_ := totalDuration |}]
      else [] in
    Returns (full ++ rest).

(** [if (isReversed) reorderedSegments.reverse()] *)
Definition reverse_stage (isReversed : bool) (reorderedSegments : list AudioSegment)
  : list AudioSegment :=
  if isReversed then reverse reorderedSegments else reorderedSegments.
End Editor.
End Audio.

(** ** JavaScript strings and numbers

    A string is a [list ascii].  A number is kept as the exact decimal it
    denotes, in the form that [Number::toString] of ECMAScript works on:
    [Finite neg ds n] is the number whose significant decimal digits are
    [ds] and whose decimal point stands [n] places after the first of
    them, that is [0.d1d2...dk * 10^n].  The form is normal when [ds] has
    no zero at either end; zero has no digits.  [parseFloat] returns the
    decimal it reads; the rounding of a literal to the nearest double is
    not part of the model, and leaves alone every string that
    [Number::toString] printed. *)
Module JsNum.
Definition str (s : string) : list ascii := String.list_ascii_of_string s.

Inductive digit := D0 | D1 | D2 | D3 | D4 | D5 | D6 | D7 | D8 | D9.

Definition digit_to_ascii (d : digit) : ascii :=
  match d with
  | D0 => "0" | D1 => "1" | D2 => "2" | D3 => "3" | D4 => "4"
  | D5 => "5" | D6 => "6" | D7 => "7" | D8 => "8" | D9 => "9"
  end%char.

Definition digit_of_ascii (c : ascii) : option digit :=
  match c with
  | "0" => Some D0 | "1" => Some D1 | "2" => Some D2 | "3" => Some D3
  | "4" => Some D4 | "5" => Some D5 | "6" => Some D6 | "7" => Some D7
  | "8" => Some D8 | "9" => Some D9 | _ => None
  end%char.

Definition digit_value (d : digit) : Z :=
  match d with
  | D0 => 0 | D1 => 1 | D2 => 2 | D3 => 3 | D4 => 4
  | D5 => 5 | D6 => 6 | D7 => 7 | D8 => 8 | D9 => 9
  end%Z.

Definition digits_to_string (ds : list digit) : list ascii := digit_to_ascii <$> ds.

Definition digits_value (ds : list digit) : Z :=
  foldl (fun acc d => 10 * acc + digit_value d)%Z 0%Z ds.

Inductive number :=
| NaN
| Infinity (negative : bool)
| Finite (negative : bool) (digits : list digit) (n : Z).

(** The normal form of a finite number. *)
Definition normal_digits (ds : list digit) : Prop :=
  head ds <> Some D0 /\ last ds <> Some D0.

(** *** Printing *)

Fixpoint uint_digits (u : Decimal.uint) : list digit :=
  match u with
  | Decimal.Nil => []
  | Decimal.D0 u => D0 :: uint_digits u
  | Decimal.D1 u => D1 :: uint_digits u
  | Decimal.D2 u => D2 :: uint_digits u
  | Decimal.D3 u => D3 :: uint_digits u
  | Decimal.D4 u => D4 :: uint_digits u
  | Decimal.D5 u => D5 :: uint_digits u
  | Decimal.D6 u => D6 :: uint_digits u
  | Decimal.D7 u => D7 :: uint_digits u
  | Decimal.D8 u => D8 :: uint_digits u
  | Decimal.D9 u => D9 :: uint_digits u
  end.

(** The decimal digits of a natural number, ["0"] for zero. *)
Definition N_digits (n : N) : list digit := uint_digits (N.to_uint n).

(** [String(z)] for an integer [z] below [10^21] in size. *)
Definition integer_toString (z : Z) : list ascii :=
  (if (z <? 0)%Z then str "-" else []) ++ digits_to_string (N_digits (Z.abs_N z)).

(** [Number::toString(x)], radix 10. *)
Definition Number_toString (x : number) : list ascii :=
  match x with
  | NaN => str "NaN"
  | Infinity neg => (if neg then str "-" else []) ++ str "Infinity"
  | Finite _ [] _ => str "0"
  | Finite neg ((d1 :: rest) as ds) n =>
      let k := Z.of_nat (length ds) in
      (if neg then str "-" else []) ++
      (if (k <=? n)%Z && (n <=? 21)%Z then
         digits_to_string ds ++ replicate (Z.to_nat (n - k)) "0"%char
       else if (0 <? n)%Z && (n <=? 21)%Z then
         digits_to_string (take (Z.to_nat n) ds) ++ str "." ++
         digits_to_string (drop (Z.to_nat n) ds)
       else if (-6 <? n)%Z && (n <=? 0)%Z then
         str "0." ++ replicate (Z.to_nat (- n)) "0"%char ++ digits_to_string ds
       else
         let e := (n - 1)%Z in
         let exponent := str "e" ++ (if (e <? 0)%Z then str "-" else str "+") ++
                         digits_to_string (N_digits (Z.abs_N e)) in
         match rest with
         | [] => digits_to_string [d1] ++ exponent
         | _ => digits_to_string [d1] ++ str "." ++ digits_to_string rest ++ exponent
         end)
  end.

(** *** Reading *)

(** White space that [parseInt] and [parseFloat] skip (the ASCII part). *)
Definition is_whitespace (c : ascii) : bool :=
  match c with
  | " " | "009" | "010" | "011" | "012" | "013" => true
  | _ => false
  end%char.

Fixpoint trim_start (s : list ascii) : list ascii :=
  match s with
  | c :: s' => if is_whitespace c then trim_start s' else s
  | [] => []
  end.

Definition read_sign (s : list ascii) : bool * list ascii :=
  match s with
  | "-"%char :: r => (true, r)
  | "+"%char :: r => (false, r)
  | _ => (false, s)
  end.

(** The longest run of decimal digits at the front, and what follows it. *)
Fixpoint span_digits (s : list ascii) : list digit * list ascii :=
  match s with
  | c :: s' =>
      match digit_of_ascii c with
      | Some d => let '(ds, r) := span_digits s' in (d :: ds, r)
      | None => ([], s)
      end
  | [] => ([], [])
  end.

Fixpoint starts_with (p s : list ascii) : bool :=
  match p, s with
  | [], _ => true
  | c :: p', d :: s' => Ascii.eqb c d && starts_with p' s'
  | _ :: _, [] => false
  end.

(** The exponent part [e], [e+] or [e-] followed by digits; it counts
    only when at least one digit is there. *)
Definition read_exponent (s : list ascii) : Z :=
  match s with
  | c :: r =>
      if Ascii.eqb c "e" || Ascii.eqb c "E" then
        let '(neg, r') := read_sign r in
        let '(ds, _) := span_digits r' in
        match ds with
        | [] => 0
        | _ => if neg then - digits_value ds else digits_value ds
        end
      else 0
  | [] => 0
  end%Z.

Fixpoint strip_leading_zeros (ds : list digit) (n : Z) : list digit * Z :=
  match ds with
  | D0 :: ds' => strip_leading_zeros ds' (n - 1)%Z
  | _ => (ds, n)
  end.

Fixpoint drop_zeros (ds : list digit) : list digit :=
  match ds with
  | D0 :: ds' => drop_zeros ds'
  | _ => ds
  end.

Definition strip_trailing_zeros (ds : list digit) : list digit :=
  reverse (drop_zeros (reverse ds)).

(** The number with digits [ds] and the decimal point after the first
    [n] of them, in normal form. *)
Definition normalize (neg : bool) (ds : list digit) (n : Z) : number :=
  let '(ds1, n1) := strip_leading_zeros ds n in
  match strip_trailing_zeros ds1 with
  | [] => Finite neg [] 0
  | ds2 => Finite neg ds2 n1
  end.

(** The fraction after the integer digits: a point and the digits that
    follow it, if the point is there. *)
Definition read_fraction (r1 : list ascii) : list digit * list ascii :=
  match r1 with
  | "."%char :: r => span_digits r
  | _ => ([], r1)
  end.

(** [parseFloat(s)]: the longest prefix of the trimmed string that is a
    [StrDecimalLiteral], [NaN] when there is none. *)
Definition parseFloat (s : list ascii) : number :=
  let s1 := trim_start s in
  let '(neg, s2) := read_sign s1 in
  if starts_with (str "Infinity") s2 then Infinity neg
  else
    let '(ip, r1) := span_digits s2 in
    let '(fp, r2) := read_fraction r1 in
    match ip, fp with
    | [], [] => NaN
    | _, _ => normalize neg (ip ++ fp) (Z.of_nat (length ip) + read_exponent r2)
    end.

Definition hex_digit_value (c : ascii) : option Z :=
  match digit_of_ascii c with
  | Some d => Some (digit_value d)
  | None =>
      match c with
      | "a" | "A" => Some 10
      | "b" | "B" => Some 11
      | "c" | "C" => Some 12
      | "d" | "D" => Some 13
      | "e" | "E" => Some 14
      | "f" | "F" => Some 15
      | _ => None
      end%char%Z
  end.

Fixpoint span_hex (s : list ascii) : list Z :=
  match s with
  | c :: s' => match hex_digit_value c with
               | Some v => v :: span_hex s'
               | None => []
               end
  | [] => []
  end.

(** [parseInt(s)] with no radix given; [None] is [NaN].  The value is
    the exact integer. *)
Definition parseInt (s : list ascii) : option Z :=
  let s1 := trim_start s in
  let '(neg, s2) := read_sign s1 in
  let sign := (if neg then -1 else 1)%Z in
  match s2 with
  | "0"%char :: x :: r =>
      if Ascii.eqb x "x" || Ascii.eqb x "X" then
        match span_hex r with
        | [] => None
        | hs => Some (sign * foldl (fun acc v => 16 * acc + v) 0 hs)%Z
        end
      else
        Some (sign * digits_value (fst (span_digits s2)))%Z
  | _ =>
      match fst (span_digits s2) with
      | [] => None
      | ds => Some (sign * digits_value ds)%Z
      end
  end.

(** *** Value and comparison *)

(** The value of the finite number with digits [ds] and point position
    [n]: the integer written by [ds], scaled by a power of ten. *)
Definition magnitude (ds : list digit) (n : Z) : Q :=
  (inject_Z (digits_value ds) * 10 ^ (n - Z.of_nat (length ds)))%Q.

Definition finite_value (neg : bool) (ds : list digit) (n : Z) : Q :=
  if neg then (- magnitude ds n)%Q else magnitude ds n.

(** [x < y]; a comparison with [NaN] is false. *)
Definition lt (x y : number) : bool :=
  match x, y with
  | NaN, _ | _, NaN => false
  | Infinity a, Infinity b => a && negb b
  | Infinity a, Finite _ _ _ => a
  | Finite _ _ _, Infinity b => negb b
  | Finite a da n, Finite b db m => Qltb (finite_value a da n) (finite_value b db m)
  end.

(** [x > y] *)
Definition gt (x y : number) : bool := lt y x.

Definition isNaN (x : number) : bool :=
  match x with NaN => true | _ => false end.

(** The literals [0.001] and [10]. *)
Definition num_0_001 : number := Finite false [D1] (-2).
Definition num_10 : number := Finite false [D1] 2.

(** *** String operations *)

(** [s.split(sep)] for a one-character separator. *)
Fixpoint split_on (sep : ascii) (s : list ascii) : list (list ascii) :=
  match s with
  | [] => [[]]
  | c :: s' =>
      if Ascii.eqb c sep then [] :: split_on sep s'
      else match split_on sep s' with
           | f :: fs => (c :: f) :: fs
           | [] => [[c]]
           end
  end.

(** A string that does not begin with a digit. *)
Definition not_digit_start (r : list ascii) : Prop :=
  match r with
  | c :: _ => digit_of_ascii c = None
  | [] => True
  end.

(** A string in which the separator does not occur. *)
Definition free_of (sep : ascii) (s : list ascii) : Prop := Forall (fun c => c <> sep) s.

(** [s.slice(-1)] and [s.slice(0, -1)] *)
Definition slice_last (s : list ascii) : list ascii := drop (length s - 1) s.
Definition slice_init (s : list ascii) : list ascii := take (length s - 1) s.
End JsNum.

(** ** The encoding code ([generateEncodingCode] and [parseEncodingCode]) *)
Module Codec.
Import JsNum.

Inductive EncodingType := none | split | oddEven.

Global Instance EncodingType_eq_dec : EqDecision EncodingType.
Proof. solve_decision. Defined.

(** The component state read by the encoder.  [numberOfParts] holds an
    integer. *)
Record EncoderState := {
  encodingType : EncodingType;
  numberOfParts : Z;
  interval : number;
  isReversed : bool
}.

(** The component state written by the parser and read by the decoder. *)
Record DecoderState := {
  decodingType : EncodingType;
  decodeNumberOfParts : Z;
  decodeInterval : number;
  isDecodeReversed : bool
}.

Definition setDecodingType (v : EncodingType) (st : DecoderState) : DecoderState :=
  {| decodingType := v; decodeNumberOfParts := decodeNumberOfParts st;
     decodeInterval := decodeInterval st; isDecodeReversed := isDecodeReversed st |}.
Definition setDecodeNumberOfParts (v : Z) (st : DecoderState) : DecoderState :=
  {| decodingType := decodingType st; decodeNumberOfParts := v;
     decodeInterval := decodeInterval st; isDecodeReversed := isDecodeReversed st |}.
Definition setDecodeInterval (v : number) (st : DecoderState) : DecoderState :=
  {| decodingType := decodingType st; decodeNumberOfParts := decodeNumberOfParts st;
     decodeInterval := v; isDecodeReversed := isDecodeReversed st |}.
Definition setIsDecodeReversed (v : bool) (st : DecoderState) : DecoderState :=
  {| decodingType := decodingType st; decodeNumberOfParts := decodeNumberOfParts st;
     decodeInterval := decodeInterval st; isDecodeReversed := v |}.

Definition generateEncodingCode (st : EncoderState) : list ascii :=
  let typePrefix := match encodingType st with
                    | split => str "s"
                    | oddEven => str "oe"
                    | none => []
                    end in
  match typePrefix with
  | [] => []
  | _ =>
      let partsCode := match encodingType st with
                       | split => str "b" ++ integer_toString (numberOfParts st)
                       | _ => str "b"
                       end in
      let intervalCode := str "b" ++ Number_toString (interval st) in
      let reverseCode := if isReversed st then str "t" else str "f" in
      typePrefix ++ partsCode ++ intervalCode ++ reverseCode
  end.

(** The [return false] statements of [parseEncodingCode], in source order. *)
Inductive Rejection :=
| FieldCount          (* parts.length !== 3 *)
| EmptyField          (* !type || !intervalWithReverse *)
| ReverseFlag         (* reverse !== 't' && reverse !== 'f' *)
| IntervalRange       (* isNaN(interval) || interval < 0.001 || interval > 10 *)
| PartsRange          (* isNaN(parts) || parts < 2 || parts > 10 *)
| PartsNotEmpty       (* type 'oe' and partsStr !== '' *)
| UnknownType.        (* the final else *)

(** [parseEncodingCode], telling which [return false] was taken; no
    setter runs before the last check has passed. *)
Definition parseEncodingCode_run (code : list ascii) (st : DecoderState)
  : Rejection + DecoderState :=
  match split_on "b" code with
  | [type; partsStr; intervalWithReverse] =>
      if bool_decide (type = []) || bool_decide (intervalWithReverse = [])
      then inl EmptyField
      else
        let reverse := slice_last intervalWithReverse in
        if negb (bool_decide (reverse = str "t")) && negb (bool_decide (reverse = str "f"))
        then inl ReverseFlag
        else
          let interval := parseFloat (slice_init intervalWithReverse) in
          if isNaN interval || lt interval num_0_001 || gt interval num_10
          then inl IntervalRange
          else
            let finish st1 :=
              setIsDecodeReversed (bool_decide (reverse = str "t"))
                (setDecodeInterval interval st1) in
            if bool_decide (type = str "s") then
              match parseInt partsStr with
              | None => inl PartsRange
              | Some parts =>
                  if (parts <? 2)%Z || (parts >? 10)%Z then inl PartsRange
                  else inr (finish (setDecodeNumberOfParts parts
                                      (setDecodingType split st)))
              end
            else if bool_decide (type = str "oe") then
              if negb (bool_decide (partsStr = [])) then inl PartsNotEmpty
              else inr (finish (setDecodingType oddEven st))
            else inl UnknownType
  | _ => inl FieldCount
  end.

(** [parseEncodingCode]: the boolean it returns and the state it leaves. *)
Definition parseEncodingCode (code : list ascii) (st : DecoderState)
  : bool * DecoderState :=
  match parseEncodingCode_run code st with
  | inl _ => (false, st)
  | inr st' => (true, st')
  end.
End Codec.

(** ** The data model of the specification

    The definitions of this module follow the words of the specification
    (sections 3 and 4.4); they are what the code above is compared with. *)
Module Spec.
Import JsNum Codec.

Inductive Scheme := NoScheme | Split (parts : Z) | OddEven.

Record EncodingParameters := {
  scheme : Scheme;
  interval : number;
  reversed : bool
}.

(** A number whose value lies in [[0.001, 10]]. *)
Definition value_in_range (x : number) : Prop :=
  match x with
  | Finite neg ds n => (1 # 1000 <= finite_value neg ds n <= 10)%Q
  | _ => False
  end.

(** "interval: positive real seconds in [0.001, 10]": a finite number in
    normal form, of that range. *)
Definition interval_in_range (x : number) : Prop :=
  (exists ds n, x = Finite false ds n /\ ds <> [] /\ normal_digits ds) /\
  value_in_range x.

(** "Split{parts: integer >= 2}", with parts at most 10; "scheme <> None" *)
Definition valid_serializable (p : EncodingParameters) : Prop :=
  match scheme p with
  | NoScheme => False
  | Split k => (2 <= k <= 10)%Z
  | OddEven => True
  end /\ interval_in_range (interval p).

(** The parameters held by the encoder's and by the decoder's state. *)
Definition of_encoder (st : EncoderState) : EncodingParameters :=
  {| scheme := match encodingType st with
               | none => NoScheme
               | split => Split (numberOfParts st)
               | oddEven => OddEven
               end;
     interval := Codec.interval st;
     reversed := isReversed st |}.

Definition of_decoder (st : DecoderState) : EncodingParameters :=
  {| scheme := match decodingType st with
               | none => NoScheme
               | split => Split (decodeNumberOfParts st)
               | oddEven => OddEven
               end;
     interval := decodeInterval st;
     reversed := isDecodeReversed st |}.

(** Section 4.1: [floor(duration/interval)] spans of exactly [interval]
    length, [span[i] = [i*interval, (i+1)*interval]], then one final
    span up to [duration] when a remainder is left. *)
Definition segment (duration interval : Q) : list Audio.Editor.AudioSegment :=
  let k := Qfloor (duration / interval) in
  ((fun i : nat =>
      {| Audio.Editor.start := inject_Z (Z.of_nat i) * interval;
         Audio.Editor.end_ := inject_Z (Z.of_nat (i + 1)) * interval |})
     <$> seq 0 (Z.to_nat k)) ++
  (if Qltb 0 (duration - interval * inject_Z k)
   then [{| Audio.Editor.start := inject_Z k * interval;
            Audio.Editor.end_ := duration |}]
   else [])%Q.

(** The span of a segment of AudioProcessor. *)
Definition span (s : Audio.Processor.AudioSegment) : Audio.Editor.AudioSegment :=
  {| Audio.Editor.start := Audio.Processor.start s;
     Audio.Editor.end_ := Audio.Processor.end_ s |}.

(** The grammar of section 4.4:
    [<type><partsToken>b<intervalToken><reverseFlag>]. *)
Definition grammar (code : list ascii) : Prop :=
  exists type partsToken intervalToken reverseFlag,
    code = type ++ partsToken ++ str "b" ++ intervalToken ++ reverseFlag /\
    ((type = str "s" /\
      exists k, (2 <= k <= 10)%Z /\ partsToken = str "b" ++ integer_toString k) \/
     (type = str "oe" /\ partsToken = [])) /\
    (exists x, interval_in_range x /\ intervalToken = Number_toString x) /\
    (reverseFlag = str "t" \/ reverseFlag = str "f").
End Spec.

(** ** Segment sequences

    Notions in which the properties of the assembler and of the reversal
    stage are stated. *)
Module Assembly.
Import Audio Audio.Processor.

(** Channel [c] of a segment sequence laid end to end. *)
Definition channel_of (c : nat) (segments : list AudioSegment) : list Q :=
  concat ((fun s => default [] (data s !! c)) <$> segments).

(** The samples that a segment holds per channel. *)
Definition segment_samples (s : AudioSegment) : nat :=
  length (default [] (data s !! 0)).

(** A segment of [nch] channels of one length. *)
Definition uniform (nch : nat) (s : AudioSegment) : Prop :=
  length (data s) = nch /\
  forall c src, data s !! c = Some src -> length src = segment_samples s.

(** A segment with the samples of each channel in reverse order. *)
Definition reverse_samples (s : AudioSegment) : AudioSegment :=
  {| start := start s; end_ := end_ s; data := reverse <$> data s |}.
End Assembly.

(** ** Concrete inputs *)

(** An eighth of a second of silence, mono, at 8 kHz. *)
Definition eighth_second : Audio.AudioBuffer :=
  {| Audio.sampleRate := 8000; Audio.channelData := [replicate 1000 0%Q] |}.

(** Eight seconds of silence, stereo, at 96 kHz. *)
Definition stereo_96k : Audio.AudioBuffer :=
  {| Audio.sampleRate := 96000;
     Audio.channelData := replicate 2 (replicate (Z.to_nat 768000) 0%Q) |}.

(** Ten samples per channel, stereo, at 4 Hz. *)
Definition ten_samples : Audio.AudioBuffer :=
  {| Audio.sampleRate := 4;
     Audio.channelData := [[1; 2; 3; 4; 5; 6; 7; 8; 9; 10]%Q;
                           [11; 12; 13; 14; 15; 16; 17; 18; 19; 20]%Q] |}.

(** Two mono segments of two samples each, and the buffer they make. *)
Definition segment_1_2 : Audio.Processor.AudioSegment :=
  {| Audio.Processor.start := 0; Audio.Processor.end_ := 1;
     Audio.Processor.data := [[1; 2]%Q] |}.
Definition segment_3_4 : Audio.Processor.AudioSegment :=
  {| Audio.Processor.start := 1; Audio.Processor.end_ := 2;
     Audio.Processor.data := [[3; 4]%Q] |}.
Definition buffer_1_2_3_4 : Audio.AudioBuffer :=
  {| Audio.sampleRate := 2; Audio.channelData := [[1; 2; 3; 4]%Q] |}.

(** The decoder state of a newly mounted component. *)
Definition initial_decoder_state : Codec.DecoderState :=
  {| Codec.decodingType := Codec.none;
     Codec.decodeNumberOfParts := 2;
     Codec.decodeInterval := JsNum.Finite false [JsNum.D1] 1;
     Codec.isDecodeReversed := false |}.

(** The number [0.2]. *)
Definition num_0_2 : JsNum.number := JsNum.Finite false [JsNum.D2] 0.

(** An encoder set to Split in 5 parts, interval 0.2, reversed. *)
Definition split_5_reversed : Codec.EncoderState :=
  {| Codec.encodingType := Codec.split;
     Codec.numberOfParts := 5;
     Codec.interval := num_0_2;
     Codec.isReversed := true |}.

(** ** The two runs of AudioProcessor ([encodeAudio] and [decodeAudio])

    From the decoded [audioBuffer] to the buffer that is handed to
    [audioBufferToWav].  [None] is an exception, which the [catch] of the
    run turns into an alert. *)
Module Pipeline.
Import Audio Audio.Processor.

(** The reordering of [encodeAudio]: [reorderedSegments] starts out
    empty, and no branch fills it for the type ['none']. *)
Definition reorder (encodingType : Codec.EncodingType) (numberOfParts : nat)
           (segments : list AudioSegment) : list AudioSegment :=
  match encodingType with
  | Codec.split => Permutation.encodeSplit numberOfParts segments
  | Codec.oddEven => Permutation.encodeOddEven segments
  | Codec.none => []
  end.

(** The reordering of [decodeAudio]. *)
Definition restore (decodingType : Codec.EncodingType) (decodeNumberOfParts : nat)
           (segments : list AudioSegment) : list AudioSegment :=
  match decodingType with
  | Codec.split => Permutation.decodeSplit decodeNumberOfParts segments
  | Codec.oddEven => Permutation.decodeOddEven segments
  | Codec.none => []
  end.

Definition encodeAudio (encodingType : Codec.EncodingType) (numberOfParts : nat)
           (interval : Q) (isReversed : bool) (audioBuffer : AudioBuffer)
  : outcome (option AudioBuffer) :=
  match createAudioSegments audioBuffer interval with
  | Diverges => Diverges
  | Returns segments =>
      let reorderedSegments := reorder encodingType numberOfParts segments in
      Returns
        (encodedBuffer ← processInBatches reorderedSegments
                           (numberOfChannels audioBuffer) (sampleRate audioBuffer);
         Some (if isReversed then reverseAudioBuffer encodedBuffer else encodedBuffer))
  end.

Definition decodeAudio (decodingType : Codec.EncodingType) (decodeNumberOfParts : nat)
           (decodeInterval : Q) (isDecodeReversed : bool) (audioBuffer : AudioBuffer)
  : outcome (option AudioBuffer) :=
  let workingBuffer :=
    if isDecodeReversed then reverseAudioBuffer audioBuffer else audioBuffer in
  match createAudioSegments workingBuffer decodeInterval with
  | Diverges => Diverges
  | Returns segments =>
      let reorderedSegments := restore decodingType decodeNumberOfParts segments in
      Returns (processInBatches reorderedSegments
                 (numberOfChannels workingBuffer) (sampleRate workingBuffer))
  end.

(** A buffer whose channels all hold [buffer.length] samples, as every
    buffer of Web Audio does. *)
Definition rectangular (b : AudioBuffer) : Prop :=
  Forall (fun channel => length channel = frames b) (channelData b).

(** The buffer in which the segments lie end to end, channel by
    channel. *)
Definition assembled (nch : nat) (rate : Q) (segments : list AudioSegment) : AudioBuffer :=
  {| sampleRate := rate;
     channelData := (fun c => Assembly.channel_of c segments) <$> seq 0 nch |}.
End Pipeline.

(** ** The decode panel of AudioProcessor

    The text input for the encoding code, the effect that validates what
    was typed, and the test that disables the Decode button. *)
Module Panel.
Import JsNum Codec.

Record State := {
  decodeInputCode : list ascii;
  isValidCode : bool;
  decoder : DecoderState
}.

(** The effect on [decodeInputCode]: an empty input counts as valid and
    is not parsed. *)
Definition validate (p : State) : State :=
  match decodeInputCode p with
  | [] => {| decodeInputCode := decodeInputCode p; isValidCode := true;
             decoder := decoder p |}
  | _ =>
      let '(valid, st) := parseEncodingCode (decodeInputCode p) (decoder p) in
      {| decodeInputCode := decodeInputCode p; isValidCode := valid; decoder := st |}
  end.

(** [onChange] of the input, [setDecodeInputCode(e.target.value)]; the
    effect runs when the value is a new one. *)
Definition onChange (value : list ascii) (p : State) : State :=
  if bool_decide (value = decodeInputCode p) then p
  else validate {| decodeInputCode := value; isValidCode := isValidCode p;
                   decoder := decoder p |}.

(** [disabled] of the Decode button. *)
Definition decode_disabled (isDecoding : bool) (p : State) : bool :=
  isDecoding || negb (isValidCode p) || bool_decide (decodeInputCode p = []).

(** The panel of a newly mounted component, after the effect has run on
    the empty input. *)
Definition mounted : State :=
  validate {| decodeInputCode := []; isValidCode := true;
              decoder := initial_decoder_state |}.

(** The panel after the user has typed one value after the other. *)
Definition after (values : list (list ascii)) : State :=
  foldl (fun p value => onChange value p) mounted values.

(** What holds of the panel whatever was typed: the decoder state keeps
    to the ranges, and an input shown as valid is the code that the
    decoder state was parsed from. *)
Definition consistent (p : State) : Prop :=
  Spec.value_in_range (decodeInterval (decoder p)) /\
  (2 <= decodeNumberOfParts (decoder p) <= 10)%Z /\
  (isValidCode p = true -> decodeInputCode p <> [] ->
   exists st, parseEncodingCode (decodeInputCode p) st = (true, decoder p)).

(** [decodeAudio] on the state that the parser left.  An interval that
    is [NaN] or infinite makes the number of segments [NaN] or zero.  The
    number of parts is 2 at first and is set by the parser only, to an
    integer of [[2, 10]]. *)
Definition decodeAudio (st : DecoderState) (audioBuffer : Audio.AudioBuffer)
  : Audio.outcome (option Audio.AudioBuffer) :=
  match decodeInterval st with
  | Finite neg ds n =>
      Pipeline.decodeAudio (decodingType st) (Z.to_nat (decodeNumberOfParts st))
                           (finite_value neg ds n) (isDecodeReversed st) audioBuffer
  | _ =>
      let workingBuffer :=
        if isDecodeReversed st then Audio.Processor.reverseAudioBuffer audioBuffer
        else audioBuffer in
      Audio.Returns
        (Audio.Processor.processInBatches
           (Pipeline.restore (decodingType st) (Z.to_nat (decodeNumberOfParts st)) [])
           (Audio.numberOfChannels workingBuffer) (Audio.sampleRate workingBuffer))
  end.
End Panel.

(** ** The run of AudioEditor ([reorderSegments] and [encodeAudio])

    AudioEditor keeps the spans only and copies the samples of every
    span from the input buffer to the output buffer. *)
Module EditorRun.
Import Audio Audio.Editor.

Definition reorderSegments (encodingType : Codec.EncodingType)
           (segments : list AudioSegment) : list AudioSegment :=
  match encodingType with
  | Codec.split =>
      let firstHalf := Js.filter_index Js.is_even_index segments in
      let secondHalf := Js.filter_index Js.is_odd_index segments in
      firstHalf ++ secondHalf
  | Codec.oddEven =>
      let odd := Js.filter_index Js.is_even_index segments in
      let even := Js.filter_index Js.is_odd_index segments in
      odd ++ even
  | Codec.none => segments
  end.

(** [a[i]] on a [Float32Array], for an integer [i]: [None] is
    [undefined], outside the array. *)
Definition typed_array_get (a : list Q) (i : Z) : option Q :=
  if (i <? 0)%Z then None else a !! Z.to_nat i.

(** [a[i] = v] on a [Float32Array]: a write outside the array does
    nothing. *)
Definition typed_array_put (i : Z) (v : Q) (a : list Q) : list Q :=
  if (i <? 0)%Z then a else <[Z.to_nat i := v]> a.

(** The loop [outputData[writePosition + i] = inputData[startSample + i]]
    for [i < segmentLength].  [None] stands for a read outside
    [inputData], which would store [NaN]. *)
Definition copy_samples (inputData : list Q) (startSample segmentLength writePosition : Z)
           (outputData : list Q) : option (list Q) :=
  foldl (fun out i =>
           data ← out;
           sample ← typed_array_get inputData (startSample + Z.of_nat i);
           Some (typed_array_put (writePosition + Z.of_nat i) sample data))
        (Some outputData) (seq 0 (Z.to_nat segmentLength)).

(** The loop over [reorderedSegments] for one channel. *)
Definition fill_channel (sampleRate : Q) (reorderedSegments : list AudioSegment)
           (inputData outputData : list Q) : option (list Q) :=
  st ← foldl (fun st segment =>
                '(data, writePosition) ← st;
                let startSample := Qfloor (start segment * sampleRate) in
                let endSample := Qfloor (end_ segment * sampleRate) in
                let segmentLength := (endSample - startSample)%Z in
                data' ← copy_samples inputData startSample segmentLength
                                     writePosition data;
                Some (data', (writePosition + segmentLength)%Z))
             (Some (outputData, 0%Z)) reorderedSegments;
  Some st.1.

(** [encodeAudio], from the decoded [audioBuffer] to [encodedBuffer]. *)
Definition encodeAudio (encodingType : Codec.EncodingType) (interval : Q)
           (isReversed : bool) (audioBuffer : AudioBuffer)
  : outcome (option AudioBuffer) :=
  match createAudioSegments interval (duration audioBuffer) with
  | Diverges => Diverges
  | Returns segments =>
      let reorderedSegments :=
        reverse_stage isReversed (reorderSegments encodingType segments) in
      let encodedBuffer :=
        createBuffer (numberOfChannels audioBuffer) (frames audioBuffer)
                     (sampleRate audioBuffer) in
      Returns
        (channels ←
           mapM (fun channel =>
                   inputData ← channelData audioBuffer !! channel;
                   outputData ← channelData encodedBuffer !! channel;
                   fill_channel (sampleRate audioBuffer) reorderedSegments
                                inputData outputData)
                (seq 0 (numberOfChannels audioBuffer));
         Some {| sampleRate := sampleRate encodedBuffer; channelData := channels |})
  end.

(** The samples of a span: those from sample [floor (start * rate)] up
    to, and without, sample [floor (end * rate)]. *)
Definition sample_span (sampleRate : Q) (segment : AudioSegment) : Z * Z :=
  (Qfloor (start segment * sampleRate), Qfloor (end_ segment * sampleRate)).

Definition span_samples (sampleRate : Q) (inputData : list Q) (segment : AudioSegment)
  : list Q :=
  Js.slice (Z.to_nat (sample_span sampleRate segment).1)
           (Z.to_nat (sample_span sampleRate segment).2) inputData.

(** Spans of samples that follow one another from sample [a] to sample
    [b]. *)
Fixpoint tiles (a : Z) (spans : list (Z * Z)) (b : Z) : Prop :=
  match spans with
  | [] => a = b
  | (s, e) :: rest => s = a /\ (a <= e)%Z /\ tiles e rest b
  end.
End EditorRun.

(** ** Numbers as integers *)
Module JsMath.
(** The integer part of a number: the truncation that [ToInt16] and
    [ToUint32] apply, and that [%] divides by. *)
Definition truncate (x : Q) : Z := (Qnum x ÷ Z.pos (Qden x))%Z.
End JsMath.

(** ** The WAV writer ([audioBufferToWav] and [writeString])

    An [ArrayBuffer] is a list of bytes, each an integer of [0, 255].  A
    write through the [DataView] that does not fit raises a
    [RangeError] ([None]). *)
Module Wav.
Import Audio JsMath.

(** The [n] bytes of an integer modulo [2^(8 n)], lowest byte first;
    a negative integer is stored in two's complement. *)
Definition little_endian (n : nat) (v : Z) : list Z :=
  (fun i : nat => (v / 256 ^ Z.of_nat i) mod 256)%Z <$> seq 0 n.

Definition write (byteOffset : nat) (bytes : list Z) (view : list Z) : option (list Z) :=
  if byteOffset + length bytes <=? length view
  then Some (take byteOffset view ++ bytes ++ drop (byteOffset + length bytes) view)
  else None.

(** [view.setUint8(byteOffset, value)] and, with [littleEndian] true,
    [view.setUint16], [view.setUint32] and [view.setInt16]. *)
Definition setUint8 (byteOffset : nat) (value : Z) : list Z -> option (list Z) :=
  write byteOffset (little_endian 1 value).
Definition setUint16 (byteOffset : nat) (value : Z) : list Z -> option (list Z) :=
  write byteOffset (little_endian 2 value).
Definition setUint32 (byteOffset : nat) (value : Z) : list Z -> option (list Z) :=
  write byteOffset (little_endian 4 value).
Definition setInt16 (byteOffset : nat) (value : Q) : list Z -> option (list Z) :=
  write byteOffset (little_endian 2 (truncate value)).

(** [string.charCodeAt(i)] *)
Definition charCodeAt (c : ascii) : Z := Z.of_N (N_of_ascii c).

Definition writeString (offset : nat) (string : list ascii) (view : list Z)
  : option (list Z) :=
  Js.forEach (fun c i acc => v ← acc; setUint8 (offset + i) (charCodeAt c) v)
             string (Some view).

(** [channelData[channel][i]]; a sample that is not there is
    [undefined], which the arithmetic turns into [NaN] and [setInt16]
    into 0. *)
Definition sample_at (buffer : AudioBuffer) (channel i : nat) : Q :=
  default 0%Q (channelData buffer !! channel ≫= (.!! i)).

(** [Math.max(-1, Math.min(1, x))] *)
Definition clamp (x : Q) : Q := Qmax (-1) (Qmin 1 x).

(** The loop that writes the interleaved samples. *)
Definition write_samples (numberOfChannels frames : nat)
           (byteOffset : nat -> nat -> nat) (value : nat -> nat -> Q)
           (view : list Z) : option (list Z) :=
  foldl (fun acc i =>
           foldl (fun acc channel =>
                    v ← acc; setInt16 (byteOffset i channel) (value i channel) v)
                 acc (seq 0 numberOfChannels))
        (Some view) (seq 0 frames).

(** [audioBufferToWav] of AudioProcessor. *)
Definition audioBufferToWav (buffer : AudioBuffer) : option (list Z) :=
  let numberOfChannels := numberOfChannels buffer in
  let length := frames buffer * numberOfChannels * 2 in
  let sampleRate := sampleRate buffer in
  let wav := replicate (44 + length) 0%Z in
  view ← writeString 0 (JsNum.str "RIFF") wav;
  view ← setUint32 4 (Z.of_nat (36 + length)) view;
  view ← writeString 8 (JsNum.str "WAVE") view;
  view ← writeString 12 (JsNum.str "fmt ") view;
  view ← setUint32 16 16 view;
  view ← setUint16 20 1 view;
  view ← setUint16 22 (Z.of_nat numberOfChannels) view;
  view ← setUint32 24 (truncate sampleRate) view;
  view ← setUint32 28
           (truncate (sampleRate * inject_Z (Z.of_nat numberOfChannels) * 2)%Q) view;
  view ← setUint16 32 (Z.of_nat (numberOfChannels * 2)) view;
  view ← setUint16 34 16 view;
  view ← writeString 36 (JsNum.str "data") view;
  view ← setUint32 40 (Z.of_nat length) view;
  let offset := 44 in
  write_samples numberOfChannels (frames buffer)
    (fun i channel => offset + (i * numberOfChannels + channel) * 2)
    (fun i channel =>
       let sample := clamp (sample_at buffer channel i) in
       (sample * 32767)%Q)
    view.

(** [audioBufferToWav] of AudioEditor. *)
Definition audioBufferToWav_editor (buffer : AudioBuffer) : option (list Z) :=
  let numberOfChannels := numberOfChannels buffer in
  let sampleRate := sampleRate buffer in
  let format := 1%Z in
  let bitDepth := 16 in
  let bytesPerSample := bitDepth / 8 in
  let blockAlign := numberOfChannels * bytesPerSample in
  let dataLength := frames buffer * blockAlign in
  let bufferLength := 44 + dataLength in
  let arrayBuffer := replicate bufferLength 0%Z in
  view ← writeString 0 (JsNum.str "RIFF") arrayBuffer;
  view ← setUint32 4 (Z.of_nat (36 + dataLength)) view;
  view ← writeString 8 (JsNum.str "WAVE") view;
  view ← writeString 12 (JsNum.str "fmt ") view;
  view ← setUint32 16 16 view;
  view ← setUint16 20 format view;
  view ← setUint16 22 (Z.of_nat numberOfChannels) view;
  view ← setUint32 24 (truncate sampleRate) view;
  view ← setUint32 28 (truncate (sampleRate * inject_Z (Z.of_nat blockAlign))%Q) view;
  view ← setUint16 32 (Z.of_nat blockAlign) view;
  view ← setUint16 34 (Z.of_nat bitDepth) view;
  view ← writeString 36 (JsNum.str "data") view;
  view ← setUint32 40 (Z.of_nat dataLength) view;
  let offset := 44 in
  write_samples numberOfChannels (frames buffer)
    (fun i channel => offset + (i * blockAlign) + (channel * bytesPerSample))
    (fun i channel =>
       let sample := clamp (sample_at buffer channel i) in
       if Qltb sample 0 then (sample * 32768)%Q else (sample * 32767)%Q)
    view.

(** The 44 bytes of the header of a PCM file of 16 bits per sample. *)
Definition header (numberOfChannels dataLength : nat) (sampleRate : Q) : list Z :=
  (charCodeAt <$> JsNum.str "RIFF") ++ little_endian 4 (Z.of_nat (36 + dataLength)) ++
  (charCodeAt <$> JsNum.str "WAVE") ++
  (charCodeAt <$> JsNum.str "fmt ") ++ little_endian 4 16 ++
  little_endian 2 1 ++ little_endian 2 (Z.of_nat numberOfChannels) ++
  little_endian 4 (truncate sampleRate) ++
  little_endian 4 (truncate (sampleRate * inject_Z (Z.of_nat numberOfChannels) * 2)%Q) ++
  little_endian 2 (Z.of_nat (numberOfChannels * 2)) ++ little_endian 2 16 ++
  (charCodeAt <$> JsNum.str "data") ++ little_endian 4 (Z.of_nat dataLength).

(** The samples frame after frame, the channels of a frame one after
    the other, two bytes each. *)
Definition interleaved (numberOfChannels frames : nat) (value : nat -> nat -> Q) : list Z :=
  concat ((fun i =>
             concat ((fun channel => little_endian 2 (truncate (value i channel)))
                       <$> seq 0 numberOfChannels))
            <$> seq 0 frames).
End Wav.

(** ** The clock of AudioEditor ([formatTime]) *)
Module Display.
Import JsNum.

(** [x % y] on numbers: the remainder has the sign of [x]. *)
Definition remainder (x y : Q) : Q := (x - y * inject_Z (JsMath.truncate (x / y)))%Q.

(** [s.padStart(n, c)] for a one-character filler. *)
Definition padStart (n : nat) (c : ascii) (s : list ascii) : list ascii :=
  replicate (n - length s) c ++ s.

Definition formatTime (time : Q) : list ascii :=
  let minutes := Qfloor (time / 60) in
  let seconds := Qfloor (remainder time 60) in
  integer_toString minutes ++ str ":" ++ padStart 2 "0" (integer_toString seconds).
End Display.

(** ** The encode panel of AudioProcessor *)
Module EncodePanel.
Import JsNum Codec.

(** The seconds that a finite number stands for. *)
Definition seconds (x : number) : Q :=
  match x with
  | Finite neg ds n => finite_value neg ds n
  | _ => 0%Q
  end.

(** [encodeAudio] on the state of the encoder.  An interval that is
    [NaN] or infinite makes the number of segments [NaN] or zero.  The
    number of parts is 2 at first and is set by
    [setNumberOfParts(Math.max(2, ...))] only: it is not below 2. *)
Definition encodeAudio (st : EncoderState) (audioBuffer : Audio.AudioBuffer)
  : Audio.outcome (option Audio.AudioBuffer) :=
  match interval st with
  | Finite neg ds n =>
      Pipeline.encodeAudio (encodingType st) (Z.to_nat (numberOfParts st))
                           (finite_value neg ds n) (isReversed st) audioBuffer
  | _ =>
      Audio.Returns
        (encodedBuffer ←
           Audio.Processor.processInBatches
             (Pipeline.reorder (encodingType st) (Z.to_nat (numberOfParts st)) [])
             (Audio.numberOfChannels audioBuffer) (Audio.sampleRate audioBuffer);
         Some (if isReversed st then Audio.Processor.reverseAudioBuffer encodedBuffer
               else encodedBuffer))
  end.
End EncodePanel.

(** ** More concrete inputs *)

(** An encoder set to OddEven with the interval 20. *)
Definition oddEven_interval_20 : Codec.EncoderState :=
  {| Codec.encodingType := Codec.oddEven;
     Codec.numberOfParts := 2;
     Codec.interval := JsNum.Finite false [JsNum.D2] 2;
     Codec.isReversed := false |}.

(** An encoder set to Split in 11 parts, interval 0.2. *)
Definition split_11_parts : Codec.EncoderState :=
  {| Codec.encodingType := Codec.split;
     Codec.numberOfParts := 11;
     Codec.interval := num_0_2;
     Codec.isReversed := false |}.

(** Five samples, mono, at 5 Hz. *)
Definition five_samples : Audio.AudioBuffer :=
  {| Audio.sampleRate := 5; Audio.channelData := [[1; 2; 3; 4; 5]%Q] |}.

(** * Properties *)

(** ** Facts about the array primitives *)
Section ArrayFacts.
Context {A : Type}.
Implicit Types (l : list A) (arr : list (option A)).

Lemma filter_Boolean_Some l : Js.filter_Boolean (Some <$> l) = l.
Proof.
  unfold Js.filter_Boolean. induction l as [|x l IH]; [done|].
  rewrite fmap_cons. change (x :: omap id (Some <$> l) = x :: l). by f_equal.
Qed.

Lemma array_set_in_range i v arr :
  i < length arr -> Js.array_set i v arr = <[i := Some v]> arr.
Proof. intros Hi. unfold Js.array_set. by rewrite decide_True. Qed.

Lemma filter_index_from_shift (p : nat -> bool) i l :
  Js.filter_index_from p (S i) l = Js.filter_index_from (fun j => p (S j)) i l.
Proof.
  revert i. induction l as [|x l IH]; intros i; simpl; [done|].
  by rewrite IH.
Qed.

Lemma filter_index_from_ext (p q : nat -> bool) i l :
  (forall j, p j = q j) -> Js.filter_index_from p i l = Js.filter_index_from q i l.
Proof.
  intros Hpq. revert i. induction l as [|x l IH]; intros i; simpl; [done|].
  by rewrite Hpq, IH.
Qed.

(** A [forEach] whose callback stores element [index] at slot [pos index],
    all slots lying inside the array: the array keeps its length, ... *)
Lemma forEach_from_length (f : A -> nat -> list (option A) -> list (option A))
      (pos : nat -> nat) (N : nat) l i0 arr :
  (forall x i a, i0 <= i < i0 + length l -> length a = N ->
                 f x i a = <[pos i := Some x]> a) ->
  length arr = N ->
  length (Js.forEach_from f i0 l arr) = N.
Proof.
  revert i0 arr. induction l as [|x l IH]; intros i0 arr Hf Hlen; simpl; [done|].
  apply IH.
  - intros y i a Hi Ha. apply Hf; [simpl; lia | done].
  - rewrite Hf; [by rewrite length_insert | simpl; lia | done].
Qed.

(** ... a slot that no element is sent to keeps its content, ... *)
Lemma forEach_from_miss (f : A -> nat -> list (option A) -> list (option A))
      (pos : nat -> nat) (N : nat) l i0 arr j :
  (forall x i a, i0 <= i < i0 + length l -> length a = N ->
                 f x i a = <[pos i := Some x]> a) ->
  length arr = N ->
  (forall i, i0 <= i < i0 + length l -> pos i <> j) ->
  Js.forEach_from f i0 l arr !! j = arr !! j.
Proof.
  revert i0 arr. induction l as [|x l IH]; intros i0 arr Hf Hlen Hj; simpl; [done|].
  rewrite IH.
  - rewrite Hf; [|simpl; lia|done].
    apply list_lookup_insert_ne. apply Hj. simpl; lia.
  - intros y i a Hi Ha. apply Hf; [simpl; lia | done].
  - rewrite Hf; [by rewrite length_insert | simpl; lia | done].
  - intros i Hi. apply Hj. simpl; lia.
Qed.

(** ... and, when [pos] sends distinct indices to distinct slots inside
    the array, element [d] ends up at slot [pos (i0 + d)]. *)
Lemma forEach_from_hit (f : A -> nat -> list (option A) -> list (option A))
      (pos : nat -> nat) (N : nat) l i0 arr d x :
  (forall x i a, i0 <= i < i0 + length l -> length a = N ->
                 f x i a = <[pos i := Some x]> a) ->
  length arr = N ->
  (forall i, i0 <= i < i0 + length l -> pos i < N) ->
  (forall i i', i0 <= i < i' -> i' < i0 + length l -> pos i <> pos i') ->
  l !! d = Some x ->
  Js.forEach_from f i0 l arr !! pos (i0 + d) = Some (Some x).
Proof.
  revert i0 arr d. induction l as [|y l IH]; intros i0 arr d Hf Hlen Hin Hinj Hd;
    [done|].
  simpl. destruct d as [|d]; simpl in Hd.
  - injection Hd as ->. rewrite Nat.add_0_r.
    rewrite (forEach_from_miss f pos N).
    + rewrite Hf; [|simpl; lia|done].
      apply list_lookup_insert_eq. rewrite Hlen. apply Hin. simpl; lia.
    + intros z i a Hi Ha. apply Hf; [simpl; lia | done].
    + rewrite Hf; [by rewrite length_insert | simpl; lia | done].
    + intros i Hi Heq. apply (Hinj i0 i); [lia | simpl; lia | done].
  - replace (i0 + S d) with (S i0 + d) by lia.
    apply (IH (S i0)).
    + intros z i a Hi Ha. apply Hf; [simpl; lia | done].
    + rewrite Hf; [by rewrite length_insert | simpl; lia | done].
    + intros i Hi. apply Hin. simpl; lia.
    + intros i i' Hi Hi'. apply Hinj; [lia | simpl; lia].
    + done.
Qed.
End ArrayFacts.
(** ** The OddEven permutation *)
Section OddEvenFacts.
Context {A : Type}.
Implicit Types (l : list A).

Lemma succ_even_odd j : Js.is_even_index (S j) = Js.is_odd_index j.
Proof.
  unfold Js.is_even_index, Js.is_odd_index.
  pose proof (Nat.mod_upper_bound j 2).
  pose proof (Nat.mod_upper_bound (S j) 2).
  pose proof (Nat.div_mod_eq j 2). pose proof (Nat.div_mod_eq (S j) 2).
  destruct (Nat.eqb_spec (S j mod 2) 0), (Nat.eqb_spec (j mod 2) 1); lia.
Qed.

Lemma succ_odd_even j : Js.is_odd_index (S j) = Js.is_even_index j.
Proof.
  unfold Js.is_even_index, Js.is_odd_index.
  pose proof (Nat.mod_upper_bound j 2).
  pose proof (Nat.mod_upper_bound (S j) 2).
  pose proof (Nat.div_mod_eq j 2). pose proof (Nat.div_mod_eq (S j) 2).
  destruct (Nat.eqb_spec (S j mod 2) 1), (Nat.eqb_spec (j mod 2) 0); lia.
Qed.

Lemma filter_even_cons x l :
  Js.filter_index Js.is_even_index (x :: l) = x :: Js.filter_index Js.is_odd_index l.
Proof.
  unfold Js.filter_index. simpl. rewrite filter_index_from_shift.
  f_equal. apply filter_index_from_ext, succ_even_odd.
Qed.

Lemma filter_odd_cons x l :
  Js.filter_index Js.is_odd_index (x :: l) = Js.filter_index Js.is_even_index l.
Proof.
  unfold Js.filter_index. simpl. rewrite filter_index_from_shift.
  apply filter_index_from_ext, succ_odd_even.
Qed.

Lemma filter_parity_lookup l i :
  Js.filter_index Js.is_even_index l !! i = l !! (i * 2) /\
  Js.filter_index Js.is_odd_index l !! i = l !! (i * 2 + 1).
Proof.
  revert i. induction l as [|x l IH]; intros i; [done|].
  rewrite filter_even_cons, filter_odd_cons. split.
  - destruct i as [|i]; [done|]. simpl.
    destruct (IH i) as [_ IHo]. by replace (i * 2 + 1) with (S (i * 2)) in IHo by lia.
  - replace (i * 2 + 1) with (S (i * 2)) by lia. simpl. apply (IH i).
Qed.

Lemma filter_parity_length l :
  length (Js.filter_index Js.is_even_index l) = Js.ceil_div (length l) 2 /\
  length (Js.filter_index Js.is_odd_index l) = length l / 2.
Proof.
  unfold Js.ceil_div.
  induction l as [|x l [IHe IHo]]; [done|].
  rewrite filter_even_cons, filter_odd_cons. simpl length.
  rewrite IHe, IHo. split.
  - replace (S (length l) + (2 - 1)) with (length l + 1 * 2) by lia.
    rewrite Nat.div_add by lia. lia.
  - f_equal. lia.
Qed.
End OddEvenFacts.

(** C3.  Encoding a sequence with OddEven (elements of even original
    index first, then elements of odd original index) and decoding the
    result with the OddEven decoder gives back the sequence, in its
    original order, for every length, even or odd. *)
Theorem oddEven_round_trip {A : Type} (segments : list A) :
  Permutation.decodeOddEven (Permutation.encodeOddEven segments) = segments.
Proof.
  unfold Permutation.decodeOddEven, Permutation.encodeOddEven.
  set (E := Js.filter_index Js.is_even_index segments).
  set (O := Js.filter_index Js.is_odd_index segments).
  destruct (filter_parity_length segments) as [HE HO]. fold E in HE. fold O in HO.
  assert (Hdm := Nat.div_mod_eq (length segments) 2).
  assert (Hm := Nat.mod_upper_bound (length segments) 2).
  assert (Hc : Js.ceil_div (length segments) 2 + length segments / 2 = length segments).
  { unfold Js.ceil_div.
    assert (H2 := Nat.div_mod_eq (length segments + (2 - 1)) 2).
    assert (H3 := Nat.mod_upper_bound (length segments + (2 - 1)) 2). lia. }
  assert (Hn : length (E ++ O) = length segments) by (rewrite length_app; lia).
  rewrite Hn. unfold Js.slice, Js.slice_from. rewrite drop_0, Nat.sub_0_r.
  rewrite <- HE, take_app_length, drop_app_length.
  set (N := length segments) in *.
  set (f1 := fun (segment : A) (index : nat) (arr : list (option A)) =>
               Js.array_set (index * 2) segment arr).
  set (f2 := fun (segment : A) (index : nat) (arr : list (option A)) =>
               if index * 2 + 1 <? N then Js.array_set (index * 2 + 1) segment arr else arr).
  assert (Hf1 : forall x i (a : list (option A)), 0 <= i < 0 + length E -> length a = N ->
                  f1 x i a = <[i * 2 := Some x]> a).
  { intros x i a Hi Ha. unfold f1. apply array_set_in_range. lia. }
  assert (Hf2 : forall x i (a : list (option A)), 0 <= i < 0 + length O -> length a = N ->
                  f2 x i a = <[i * 2 + 1 := Some x]> a).
  { intros x i a Hi Ha. unfold f2.
    destruct (Nat.ltb_spec (i * 2 + 1) N); [|lia].
    apply array_set_in_range. lia. }
  assert (Hl0 : length (Js.new_Array (A := A) N) = N) by apply length_replicate.
  assert (Hl1 : length (Js.forEach f1 E (Js.new_Array N)) = N).
  { by apply (forEach_from_length f1 (fun i => i * 2) N). }
  replace (Js.forEach f2 O (Js.forEach f1 E (Js.new_Array N))) with (Some <$> segments);
    [apply filter_Boolean_Some|].
  apply list_eq. intros j.
  destruct (decide (j < N)) as [Hj|Hj].
  - destruct (lookup_lt_is_Some_2 segments j Hj) as [x Hx].
    rewrite list_lookup_fmap, Hx. simpl. symmetry.
    destruct (filter_parity_lookup segments (j / 2)) as [He Ho].
    fold E in He. fold O in Ho.
    assert (Hjd := Nat.div_mod_eq j 2). assert (Hjm := Nat.mod_upper_bound j 2).
    destruct (decide (j mod 2 = 0)) as [Hev|Hodd].
    + replace (j / 2 * 2) with j in He by lia. rewrite Hx in He.
      unfold Js.forEach.
      rewrite (forEach_from_miss f2 (fun i => i * 2 + 1) N); [|done|done|intros; lia].
      assert (Hpos : (0 + j / 2) * 2 = j) by lia.
      rewrite <- Hpos at 1.
      apply (forEach_from_hit f1 (fun i => i * 2) N); try done; intros; lia.
    + replace (j / 2 * 2 + 1) with j in Ho by lia. rewrite Hx in Ho.
      unfold Js.forEach.
      assert (Hpos : (0 + j / 2) * 2 + 1 = j) by lia.
      rewrite <- Hpos at 1.
      apply (forEach_from_hit f2 (fun i => i * 2 + 1) N); try done; intros; lia.
  - assert (Hl2 : length (Js.forEach f2 O (Js.forEach f1 E (Js.new_Array N))) = N).
    { by apply (forEach_from_length f2 (fun i => i * 2 + 1) N). }
    rewrite (lookup_ge_None_2 (Some <$> segments)) by (rewrite length_fmap; fold N; lia).
    symmetry. apply lookup_ge_None_2. lia.
Qed.

(** ** The number primitives on some strings *)

Lemma parseFloat_examples :
  JsNum.parseFloat (JsNum.str "0.2") = JsNum.Finite false [JsNum.D2] 0 /\
  JsNum.parseFloat (JsNum.str "10") = JsNum.num_10 /\
  JsNum.parseFloat (JsNum.str "0.0010") = JsNum.num_0_001 /\
  JsNum.parseFloat (JsNum.str " -12.50e1x") =
    JsNum.Finite true [JsNum.D1; JsNum.D2; JsNum.D5] 3 /\
  JsNum.parseFloat (JsNum.str ".5") = JsNum.Finite false [JsNum.D5] 0 /\
  JsNum.parseFloat (JsNum.str "1e") = JsNum.Finite false [JsNum.D1] 1 /\
  JsNum.parseFloat (JsNum.str "") = JsNum.NaN /\
  JsNum.parseFloat (JsNum.str ".") = JsNum.NaN /\
  JsNum.parseFloat (JsNum.str "x1") = JsNum.NaN.
Proof. repeat split; reflexivity. Qed.

Lemma parseInt_examples :
  JsNum.parseInt (JsNum.str "5") = Some 5%Z /\
  JsNum.parseInt (JsNum.str "10") = Some 10%Z /\
  JsNum.parseInt (JsNum.str " 07.9") = Some 7%Z /\
  JsNum.parseInt (JsNum.str "-3") = Some (-3)%Z /\
  JsNum.parseInt (JsNum.str "0x1f") = Some 31%Z /\
  JsNum.parseInt (JsNum.str "") = None /\
  JsNum.parseInt (JsNum.str "x5") = None.
Proof. repeat split; reflexivity. Qed.

Lemma Number_toString_examples :
  JsNum.Number_toString JsNum.num_0_001 = JsNum.str "0.001" /\
  JsNum.Number_toString JsNum.num_10 = JsNum.str "10" /\
  JsNum.Number_toString (JsNum.Finite false [JsNum.D1; JsNum.D2; JsNum.D5] 1) =
    JsNum.str "1.25" /\
  JsNum.Number_toString (JsNum.Finite false [JsNum.D5] (-7)) = JsNum.str "5e-8" /\
  JsNum.Number_toString (JsNum.Finite true [JsNum.D1; JsNum.D2; JsNum.D5] 22) =
    JsNum.str "-1.25e+21".
Proof. repeat split; reflexivity. Qed.

Lemma comparison_examples :
  JsNum.lt (JsNum.parseFloat (JsNum.str "0.00099")) JsNum.num_0_001 = true /\
  JsNum.lt (JsNum.parseFloat (JsNum.str "0.001")) JsNum.num_0_001 = false /\
  JsNum.gt (JsNum.parseFloat (JsNum.str "10.01")) JsNum.num_10 = true /\
  JsNum.gt (JsNum.parseFloat (JsNum.str "10")) JsNum.num_10 = false /\
  JsNum.gt (JsNum.parseFloat (JsNum.str "9.99")) JsNum.num_10 = false /\
  JsNum.lt (JsNum.parseFloat (JsNum.str "-1")) JsNum.num_0_001 = true /\
  JsNum.gt (JsNum.parseFloat (JsNum.str "Infinity")) JsNum.num_10 = true /\
  JsNum.lt (JsNum.parseFloat (JsNum.str "0")) JsNum.num_0_001 = true.
Proof. repeat split; reflexivity. Qed.

(** ** Reading back what [Number::toString] printed *)
Section NumberFacts.
Import JsNum.

Lemma digit_of_to_ascii d : digit_of_ascii (digit_to_ascii d) = Some d.
Proof. by destruct d. Qed.

Lemma span_digits_app ds r :
  not_digit_start r -> span_digits (digits_to_string ds ++ r) = (ds, r).
Proof.
  intros Hr. induction ds as [|d ds IH].
  - destruct r as [|c r]; [done|]. simpl in *. by rewrite Hr.
  - change (span_digits (digit_to_ascii d :: (digits_to_string ds ++ r)) = (d :: ds, r)).
    simpl. by rewrite digit_of_to_ascii, IH.
Qed.

Lemma span_digits_all ds : span_digits (digits_to_string ds) = (ds, []).
Proof. rewrite <- (app_nil_r (digits_to_string ds)). by apply span_digits_app. Qed.

Lemma zeros_to_string m :
  replicate m "0"%char = digits_to_string (replicate m D0).
Proof. unfold digits_to_string. by rewrite fmap_replicate. Qed.

Lemma strip_leading_zeros_replicate m ds n :
  head ds <> Some D0 ->
  strip_leading_zeros (replicate m D0 ++ ds) n = (ds, (n - Z.of_nat m)%Z).
Proof.
  intros Hd. revert n. induction m as [|m IH]; intros n; simpl.
  - rewrite Z.sub_0_r.
    destruct ds as [|[] ds]; simpl in *; congruence.
  - rewrite IH. f_equal. lia.
Qed.

Lemma strip_leading_zeros_normal ds n :
  head ds <> Some D0 -> strip_leading_zeros ds n = (ds, n).
Proof.
  intros Hd. pose proof (strip_leading_zeros_replicate 0 ds n Hd) as H.
  simpl in H. by rewrite Z.sub_0_r in H.
Qed.

Lemma drop_zeros_replicate m ds :
  head ds <> Some D0 -> drop_zeros (replicate m D0 ++ ds) = ds.
Proof.
  intros Hd. induction m as [|m IH]; simpl; [|done].
  destruct ds as [|[] ds]; simpl in *; congruence.
Qed.

Lemma strip_trailing_zeros_replicate m ds :
  last ds <> Some D0 -> strip_trailing_zeros (ds ++ replicate m D0) = ds.
Proof.
  intros Hd. unfold strip_trailing_zeros.
  rewrite reverse_app, reverse_replicate, drop_zeros_replicate.
  - apply reverse_involutive.
  - by rewrite head_reverse.
Qed.

Lemma strip_trailing_zeros_normal ds :
  last ds <> Some D0 -> strip_trailing_zeros ds = ds.
Proof.
  intros Hd. rewrite <- (app_nil_r ds) at 1.
  by apply (strip_trailing_zeros_replicate 0).
Qed.

Lemma normalize_normal ds n :
  ds <> [] -> normal_digits ds -> normalize false ds n = Finite false ds n.
Proof.
  intros Hne [Hh Hl]. unfold normalize.
  rewrite strip_leading_zeros_normal by done.
  rewrite strip_trailing_zeros_normal by done.
  by destruct ds.
Qed.

(** A string that begins with a digit is read from its first character. *)
Lemma parseFloat_digit_start d r :
  parseFloat (digit_to_ascii d :: r) =
    let '(ip, r1) := span_digits (digit_to_ascii d :: r) in
    let '(fp, r2) := read_fraction r1 in
    match ip, fp with
    | [], [] => NaN
    | _, _ => normalize false (ip ++ fp) (Z.of_nat (length ip) + read_exponent r2)
    end.
Proof. by destruct d. Qed.

(** [parseFloat] reads back every number that [Number::toString] prints
    in plain decimal notation. *)
Lemma parseFloat_toString ds n :
  ds <> [] -> normal_digits ds -> (-6 < n <= 21)%Z ->
  parseFloat (Number_toString (Finite false ds n)) = Finite false ds n.
Proof.
  intros Hne Hnorm Hn. pose proof Hnorm as [Hh Hl].
  destruct ds as [|d1 rest]; [done|].
  unfold Number_toString. set (ds := d1 :: rest) in *.
  set (k := Z.of_nat (length ds)).
  rewrite app_nil_l.
  destruct (Z.leb_spec k n) as [Hkn|Hkn];
    destruct (Z.leb_spec n 21) as [_|?]; try lia; simpl andb; cbv iota.
  - (* an integer: the digits, then zeros *)
    rewrite zeros_to_string. unfold digits_to_string. rewrite <- fmap_app.
    fold (digits_to_string (ds ++ replicate (Z.to_nat (n - k)) D0)).
    unfold ds at 1. rewrite <- app_comm_cons.
    change (digits_to_string (?d :: ?l)) with (digit_to_ascii d :: digits_to_string l).
    rewrite parseFloat_digit_start.
    change (digit_to_ascii d1 :: digits_to_string ?l) with (digits_to_string (d1 :: l)).
    rewrite app_comm_cons. fold ds.
    rewrite span_digits_all. cbv beta iota.
    change (read_fraction []) with (@nil digit, @nil ascii). cbv beta iota.
    rewrite app_nil_r. simpl read_exponent.
    assert (Hlen : (Z.of_nat (length (ds ++ replicate (Z.to_nat (n - k)) D0)) + 0 = n)%Z).
    { rewrite length_app, length_replicate. fold k. lia. }
    rewrite Hlen. unfold normalize.
    rewrite strip_leading_zeros_normal by done.
    by rewrite strip_trailing_zeros_replicate by done.
  - destruct (Z.ltb_spec 0 n) as [H0n|H0n]; simpl andb; cbv iota.
    + (* digits on both sides of the point *)
      assert (Htake : take (Z.to_nat n) ds = d1 :: take (Z.to_nat n - 1) rest).
      { unfold ds. destruct (Z.to_nat n) as [|m] eqn:Hm; [lia|].
        simpl. by rewrite Nat.sub_0_r. }
      rewrite Htake.
      change (digits_to_string (d1 :: ?l)) with (digit_to_ascii d1 :: digits_to_string l).
      rewrite <- app_comm_cons, parseFloat_digit_start.
      change (digit_to_ascii d1 :: digits_to_string ?l ++ ?r)
        with (digits_to_string (d1 :: l) ++ r).
      rewrite <- Htake.
      rewrite span_digits_app by done.
      cbv beta iota.
      change (read_fraction (str "." ++ ?r)) with (span_digits r).
      rewrite span_digits_all. cbv beta iota. simpl read_exponent.
      rewrite take_drop.
      assert (Hlen : (Z.of_nat (length (take (Z.to_nat n) ds)) + 0 = n)%Z).
      { rewrite length_take. fold k in Hkn |- *. lia. }
      rewrite Hlen, Htake.
      by apply normalize_normal.
    + (* a fraction: "0.", zeros, then the digits *)
      destruct (Z.ltb_spec (-6) n) as [_|?]; [|lia].
      destruct (Z.leb_spec n 0) as [_|?]; [|lia]. simpl andb. cbv iota.
      change (str "0." ++ ?r) with (digit_to_ascii D0 :: "."%char :: r).
      rewrite parseFloat_digit_start.
      change (digit_to_ascii D0 :: ?r) with (digits_to_string [D0] ++ r).
      rewrite span_digits_app by done. cbv beta iota.
      change (read_fraction ("."%char :: ?r)) with (span_digits r).
      rewrite zeros_to_string. unfold digits_to_string at 1 2.
      rewrite <- fmap_app. fold (digits_to_string (replicate (Z.to_nat (- n)) D0 ++ ds)).
      rewrite span_digits_all. cbv beta iota. simpl read_exponent.
      change ([D0] ++ ?l) with (D0 :: l).
      change (D0 :: replicate ?m D0 ++ ?l) with (replicate (S m) D0 ++ l).
      unfold normalize. cbv iota.
      rewrite strip_leading_zeros_replicate by done.
      rewrite strip_trailing_zeros_normal by done.
      replace (Z.of_nat (length [D0]) + 0 - Z.of_nat (S (Z.to_nat (- n))))%Z with n
        by (simpl length; lia).
      done.
Qed.
End NumberFacts.

(** ** The value of a number *)
Section ValueFacts.
Import JsNum.
Local Open Scope Q_scope.

Lemma Qltb_lt x y : Qltb x y = true <-> x < y.
Proof.
  unfold Qltb. rewrite negb_true_iff, <- not_true_iff_false, Qle_bool_iff.
  split; [apply Qnot_le_lt | apply Qlt_not_le].
Qed.

Lemma Qltb_ge x y : Qltb x y = false <-> y <= x.
Proof. unfold Qltb. by rewrite negb_false_iff, Qle_bool_iff. Qed.

Lemma digits_value_snoc ds d :
  digits_value (ds ++ [d]) = (10 * digits_value ds + digit_value d)%Z.
Proof. unfold digits_value. by rewrite foldl_app. Qed.

(** A string of [k] digits that does not begin with zero writes an
    integer of [[10^(k-1), 10^k)]. *)
Lemma digits_value_bounds ds :
  ds <> [] -> head ds <> Some D0 ->
  (10 ^ (Z.of_nat (length ds) - 1) <= digits_value ds
   < 10 ^ Z.of_nat (length ds))%Z.
Proof.
  induction ds as [|d ds IH] using rev_ind; [done|]. intros _ Hhead.
  rewrite digits_value_snoc, length_app. cbn [length].
  assert (Hd : (0 <= digit_value d <= 9)%Z) by (destruct d; simpl; lia).
  destruct ds as [|d0 ds].
  - destruct d; simpl in Hhead; try congruence; vm_compute; split; congruence.
  - destruct IH as [Hlo Hhi]; [done | done |].
    set (k := Z.of_nat (length (d0 :: ds))) in *.
    assert (Hk : (1 <= k)%Z) by (unfold k; simpl length; lia).
    replace (Z.of_nat (length (d0 :: ds) + 1) - 1)%Z with k by lia.
    replace (Z.of_nat (length (d0 :: ds) + 1)) with (Z.succ k) by lia.
    rewrite Z.pow_succ_r by lia.
    assert (Hpow : (10 ^ k = 10 * 10 ^ (k - 1))%Z).
    { replace k with (Z.succ (k - 1)) at 1 by lia. apply Z.pow_succ_r. lia. }
    lia.
Qed.

Lemma ten_nonzero : ~ 10 == 0.
Proof. discriminate. Qed.

(** The value of a normal number with point position [n] lies in
    [[10^(n-1), 10^n)]. *)
Lemma magnitude_bounds ds n :
  ds <> [] -> head ds <> Some D0 ->
  10 ^ (n - 1) <= magnitude ds n /\ magnitude ds n < 10 ^ n.
Proof.
  intros Hne Hhead. destruct (digits_value_bounds ds Hne Hhead) as [Hlo Hhi].
  unfold magnitude. set (k := Z.of_nat (length ds)) in *.
  assert (Hk : (1 <= k)%Z) by (unfold k; destruct ds; [done | simpl length; lia]).
  assert (Hpos : 0 < 10 ^ (n - k)) by (by apply Qpower_0_lt).
  split.
  - replace (n - 1)%Z with ((k - 1) + (n - k))%Z by lia.
    rewrite Qpower_plus by apply ten_nonzero.
    apply Qmult_le_compat_r; [|by apply Qlt_le_weak].
    change 10 with (inject_Z 10). rewrite <- Zpower_Qpower by lia.
    by rewrite <- Zle_Qle.
  - replace n with (k + (n - k))%Z at 2 by lia.
    rewrite Qpower_plus by apply ten_nonzero.
    apply Qmult_lt_compat_r; [done|].
    change 10 with (inject_Z 10). rewrite <- Zpower_Qpower by lia.
    by rewrite <- Zlt_Qlt.
Qed.

(** A number of the interval range has its decimal point at most two
    places to either side of its first digit. *)
Lemma interval_in_range_exponent ds n :
  ds <> [] -> head ds <> Some D0 ->
  Spec.value_in_range (Finite false ds n) -> (-2 <= n <= 2)%Z.
Proof.
  intros Hne Hhead [Hlo Hhi]. cbn [finite_value] in *.
  destruct (magnitude_bounds ds n Hne Hhead) as [Hmlo Hmhi].
  split.
  - destruct (Z.le_gt_cases (-2) n) as [|Hn]; [done|]. exfalso.
    assert (H : 10 ^ n <= 10 ^ (-3)) by (apply Qpower_le_compat_l; [lia | discriminate]).
    apply (Qlt_irrefl (1 # 1000)).
    eapply Qle_lt_trans; [exact Hlo|]. eapply Qlt_le_trans; [exact Hmhi|].
    eapply Qle_trans; [exact H|]. discriminate.
  - destruct (Z.le_gt_cases n 2) as [|Hn]; [done|]. exfalso.
    assert (H : 10 ^ 2 <= 10 ^ (n - 1)) by (apply Qpower_le_compat_l; [lia | discriminate]).
    apply (Qlt_irrefl 10).
    eapply Qlt_le_trans; [|exact Hhi]. eapply Qlt_le_trans; [|exact Hmlo].
    eapply Qlt_le_trans; [|exact H]. reflexivity.
Qed.

(** The range check of the parser is the range of the specification. *)
Lemma in_range_passes_check x :
  Spec.value_in_range x ->
  isNaN x = false /\ lt x num_0_001 = false /\ gt x num_10 = false.
Proof.
  destruct x as [| |neg ds n]; [done | done |]. intros [Hlo Hhi].
  split; [done|]. split.
  - apply Qltb_ge. exact Hlo.
  - apply Qltb_ge. exact Hhi.
Qed.

Lemma passes_check_in_range x :
  isNaN x = false -> lt x num_0_001 = false -> gt x num_10 = false ->
  Spec.value_in_range x.
Proof.
  destruct x as [|a|neg ds n]; [done| |].
  - intros _ Hlt Hgt. cbn in Hlt, Hgt. subst a. done.
  - intros _ Hlt Hgt. split.
    + apply Qltb_ge in Hlt. exact Hlt.
    + apply Qltb_ge in Hgt. exact Hgt.
Qed.
End ValueFacts.

(** ** Splitting a code into its fields *)
Section SplitFacts.
Import JsNum.

Lemma split_on_free sep a : free_of sep a -> split_on sep a = [a].
Proof.
  induction 1 as [|c a Hc Ha IH]; simpl; [done|].
  rewrite IH. by rewrite (proj2 (Ascii.eqb_neq c sep) Hc).
Qed.

Lemma split_on_app sep a r :
  free_of sep a -> split_on sep (a ++ sep :: r) = a :: split_on sep r.
Proof.
  induction 1 as [|c a Hc Ha IH]; simpl.
  - by rewrite Ascii.eqb_refl.
  - rewrite IH. by rewrite (proj2 (Ascii.eqb_neq c sep) Hc).
Qed.

Lemma digits_free_of_b ds : free_of "b" (digits_to_string ds).
Proof.
  unfold free_of, digits_to_string. apply Forall_fmap, Forall_forall.
  intros d _. by destruct d.
Qed.

Lemma zeros_free_of_b m : free_of "b" (replicate m "0"%char).
Proof. rewrite zeros_to_string. apply digits_free_of_b. Qed.

Lemma Number_toString_free_of_b ds n :
  ds <> [] -> (-6 < n <= 21)%Z ->
  free_of "b" (Number_toString (Finite false ds n)).
Proof.
  intros Hne Hn. destruct ds as [|d1 rest]; [done|].
  unfold Number_toString. set (ds := d1 :: rest).
  rewrite app_nil_l.
  destruct (_ && _).
  { apply Forall_app; split; [apply digits_free_of_b | apply zeros_free_of_b]. }
  destruct (Z.ltb_spec 0 n); destruct (Z.leb_spec n 21); try lia; simpl andb; cbv iota.
  { apply Forall_app; split; [apply digits_free_of_b|].
    apply Forall_cons; split; [done | apply digits_free_of_b]. }
  destruct (Z.ltb_spec (-6) n); [|lia]. destruct (Z.leb_spec n 0); [|lia].
  simpl andb. cbv iota.
  apply Forall_cons; split; [done|]. apply Forall_cons; split; [done|].
  apply Forall_app; split; [apply zeros_free_of_b | apply digits_free_of_b].
Qed.

Lemma slice_last_snoc s c : slice_last (s ++ [c]) = [c].
Proof.
  unfold slice_last. rewrite length_app. simpl.
  replace (length s + 1 - 1) with (length s) by lia. apply drop_app_length.
Qed.

Lemma slice_init_snoc s c : slice_init (s ++ [c]) = s.
Proof.
  unfold slice_init. rewrite length_app. simpl.
  replace (length s + 1 - 1) with (length s) by lia. apply take_app_length.
Qed.
End SplitFacts.

(** ** The encoding code *)
Section CodecFacts.
Import JsNum Codec.

(** What [parseEncodingCode] does with a code of three fields whose
    last field is a printed interval of the range followed by the flag. *)
Lemma parse_three_fields code type partsStr ds n (rev : bool) st :
  split_on "b" code =
    [type; partsStr;
     Number_toString (Finite false ds n) ++ (if rev then str "t" else str "f")] ->
  type <> [] -> ds <> [] -> normal_digits ds ->
  Spec.value_in_range (Finite false ds n) ->
  parseEncodingCode_run code st =
    let finish st1 := setIsDecodeReversed rev (setDecodeInterval (Finite false ds n) st1) in
    if bool_decide (type = str "s") then
      match parseInt partsStr with
      | None => inl PartsRange
      | Some parts =>
          if (parts <? 2)%Z || (parts >? 10)%Z then inl PartsRange
          else inr (finish (setDecodeNumberOfParts parts (setDecodingType split st)))
      end
    else if bool_decide (type = str "oe") then
      if negb (bool_decide (partsStr = [])) then inl PartsNotEmpty
      else inr (finish (setDecodingType oddEven st))
    else inl UnknownType.
Proof.
  intros Hsplit Htype Hne Hnorm Hrange.
  assert (Hn : (-2 <= n <= 2)%Z)
    by (apply (interval_in_range_exponent ds); [done | apply Hnorm | done]).
  destruct (in_range_passes_check _ Hrange) as (Hnan & Hlt & Hgt).
  unfold parseEncodingCode_run. rewrite Hsplit.
  assert (Hflag : exists c, (if rev then str "t" else str "f") = [c] /\
                            bool_decide ([c] = str "t") = rev /\
                            negb (bool_decide ([c] = str "t")) &&
                              negb (bool_decide ([c] = str "f")) = false).
  { destruct rev; [exists "t"%char | exists "f"%char]; done. }
  destruct Hflag as (c & -> & Hc1 & Hc2).
  rewrite (bool_decide_eq_false_2 (type = [])) by done.
  rewrite (bool_decide_eq_false_2 (Number_toString (Finite false ds n) ++ [c] = [])).
  2: { intros H. by apply app_eq_nil in H as [_ ?]. }
  cbn [orb]. cbv iota.
  rewrite slice_last_snoc, slice_init_snoc, Hc2. cbv iota.
  rewrite parseFloat_toString by (done || lia).
  rewrite Hlt, Hgt. cbn [isNaN orb]. cbv iota.
  by rewrite Hc1.
Qed.

Lemma parseInt_parts k :
  (2 <= k <= 10)%Z ->
  parseInt (integer_toString k) = Some k /\ free_of "b" (integer_toString k).
Proof.
  intros Hk.
  assert (Hcases : (k = 2 \/ k = 3 \/ k = 4 \/ k = 5 \/ k = 6 \/ k = 7 \/ k = 8 \/
                    k = 9 \/ k = 10)%Z) by lia.
  unfold free_of.
  repeat (destruct Hcases as [->|Hcases]); try subst k;
    (split; [reflexivity | repeat constructor; discriminate]).
Qed.
End CodecFacts.

(** The codes that the generator makes: the flag follows the interval
    with no separator. *)
Lemma generateEncodingCode_examples :
  Codec.generateEncodingCode split_5_reversed = JsNum.str "sb5b0.2t" /\
  Codec.generateEncodingCode
    {| Codec.encodingType := Codec.oddEven; Codec.numberOfParts := 2;
       Codec.interval := JsNum.Finite false [JsNum.D1] 1;
       Codec.isReversed := false |} = JsNum.str "oebb1f" /\
  Codec.generateEncodingCode
    {| Codec.encodingType := Codec.none; Codec.numberOfParts := 2;
       Codec.interval := JsNum.Finite false [JsNum.D1] 1;
       Codec.isReversed := false |} = [].
Proof. repeat split; reflexivity. Qed.

(** C2.  For the parameters [p] held by an encoder state, with a scheme
    other than None, parts an integer of [2, 10] when the scheme is Split
    and an interval of [0.001, 10]: parsing the code that
    [generateEncodingCode] makes for them succeeds, and the decoder state
    it leaves holds exactly [p] (scheme with its parts, interval,
    reversed), whatever the decoder state was before. *)
Theorem descriptor_round_trip (enc : Codec.EncoderState) (dec : Codec.DecoderState) :
  Spec.valid_serializable (Spec.of_encoder enc) ->
  exists dec',
    Codec.parseEncodingCode (Codec.generateEncodingCode enc) dec = (true, dec') /\
    Spec.of_decoder dec' = Spec.of_encoder enc.
Proof.
  destruct enc as [ty k x rev]. unfold Spec.valid_serializable. simpl.
  intros [Hscheme [(ds & n & -> & Hne & Hnorm) Hrange]].
  assert (Hn : (-2 <= n <= 2)%Z)
    by (apply (interval_in_range_exponent ds); [done | apply Hnorm | done]).
  assert (Hfree : JsNum.free_of "b" (JsNum.Number_toString (JsNum.Finite false ds n) ++
                               (if rev then JsNum.str "t" else JsNum.str "f"))).
  { apply Forall_app; split.
    - apply Number_toString_free_of_b; [done | lia].
    - destruct rev; by repeat constructor. }
  set (flag := if rev then JsNum.str "t" else JsNum.str "f") in *.
  unfold Codec.parseEncodingCode.
  destruct ty; [done| |].
  - (* Split *)
    destruct (parseInt_parts k Hscheme) as [Hint Hk].
    match goal with |- context [Codec.generateEncodingCode ?e] => set (code := Codec.generateEncodingCode e) end.
    assert (Hsplit : JsNum.split_on "b" code =
                       [JsNum.str "s"; JsNum.integer_toString k;
                        JsNum.Number_toString (JsNum.Finite false ds n) ++ flag]).
    { change code with (JsNum.str "s" ++ "b"%char ::
                          (JsNum.integer_toString k ++ "b"%char ::
                             (JsNum.Number_toString (JsNum.Finite false ds n) ++ flag))).
      rewrite split_on_app by by repeat constructor.
      rewrite split_on_app by done.
      by rewrite (split_on_free _ _ Hfree). }
    rewrite (parse_three_fields code _ _ ds n rev dec Hsplit) by done.
    cbv zeta. rewrite bool_decide_eq_true_2 by done. rewrite Hint.
    destruct (Z.ltb_spec k 2); [lia|].
    destruct (Z.gtb_spec k 10); [lia|]. cbn [orb].
    eexists; split; [reflexivity|done].
  - (* OddEven *)
    match goal with |- context [Codec.generateEncodingCode ?e] => set (code := Codec.generateEncodingCode e) end.
    assert (Hsplit : JsNum.split_on "b" code =
                       [JsNum.str "oe"; [];
                        JsNum.Number_toString (JsNum.Finite false ds n) ++ flag]).
    { change code with (JsNum.str "oe" ++ "b"%char ::
                          ([] ++ "b"%char ::
                             (JsNum.Number_toString (JsNum.Finite false ds n) ++ flag))).
      rewrite split_on_app by by repeat constructor.
      rewrite (split_on_app "b" []) by constructor.
      by rewrite (split_on_free _ _ Hfree). }
    rewrite (parse_three_fields code _ _ ds n rev dec Hsplit) by done.
    cbv zeta. rewrite bool_decide_eq_false_2 by done.
    rewrite bool_decide_eq_true_2 by done.
    rewrite bool_decide_eq_true_2 by done. cbn [negb].
    eexists; split; [reflexivity|done].
Qed.

Lemma descriptor_round_trip_witness :
  Spec.valid_serializable (Spec.of_encoder split_5_reversed) /\
  exists dec',
    Codec.parseEncodingCode (Codec.generateEncodingCode split_5_reversed)
                            initial_decoder_state = (true, dec') /\
    Spec.of_decoder dec' = Spec.of_encoder split_5_reversed.
Proof.
  assert (H : Spec.valid_serializable (Spec.of_encoder split_5_reversed)).
  { split; [simpl; lia|]. split.
    - exists [JsNum.D2], 0%Z. split; [reflexivity|]. split; [discriminate|].
      split; discriminate.
    - split; vm_compute; discriminate. }
  split; [exact H|].
  exact (descriptor_round_trip split_5_reversed initial_decoder_state H).
Defined.


(** ** The segmenter *)
Section SegmenterFacts.
Import Audio.
Local Open Scope Q_scope.

Lemma Qmin_left x y : x <= y -> Qmin x y = x.
Proof.
  intros Hxy. unfold Qmin, GenericMinMax.gmin.
  by destruct (x ?= y) eqn:E.
Qed.

Lemma Qmin_right x y : y < x -> Qmin x y = y.
Proof.
  intros Hxy. unfold Qmin, GenericMinMax.gmin.
  apply Qgt_alt in Hxy. by rewrite Hxy.
Qed.

Lemma Qeq_bool_pos x : 0 < x -> Qeq_bool x 0 = false.
Proof.
  intros Hx. apply not_true_iff_false. rewrite Qeq_bool_iff.
  intros H. rewrite H in Hx. by apply Qlt_irrefl in Hx.
Qed.

Lemma Qeq_bool_neg x : x < 0 -> Qeq_bool x 0 = false.
Proof.
  intros Hx. apply not_true_iff_false. rewrite Qeq_bool_iff.
  intros H. rewrite H in Hx. by apply Qlt_irrefl in Hx.
Qed.

Lemma Qdiv_cancel D I : 0 < I -> D / I * I == D.
Proof. intros HI. field. intros H. rewrite H in HI. by apply Qlt_irrefl in HI. Qed.

(** The whole intervals that fit into a duration. *)
Lemma floor_div_bounds D I :
  0 < I ->
  inject_Z (Qfloor (D / I)) * I <= D /\ D < inject_Z (Qfloor (D / I) + 1) * I.
Proof.
  intros HI. split.
  - rewrite <- (Qdiv_cancel D I HI) at 2.
    apply Qmult_le_compat_r; [apply Qfloor_le | by apply Qlt_le_weak].
  - rewrite <- (Qdiv_cancel D I HI) at 1.
    apply Qmult_lt_compat_r; [done | apply Qlt_floor].
Qed.

Lemma floor_div_nonneg D I : 0 <= D -> 0 < I -> (0 <= Qfloor (D / I))%Z.
Proof.
  intros HD HI. change 0%Z with (Qfloor 0). apply Qfloor_resp_le.
  apply Qle_shift_div_l; [done|]. by rewrite Qmult_0_l.
Qed.

Lemma inject_Z_le_mult a b I : (a <= b)%Z -> 0 < I -> inject_Z a * I <= inject_Z b * I.
Proof.
  intros Hab HI. apply Qmult_le_compat_r; [|by apply Qlt_le_weak].
  by rewrite <- Zle_Qle.
Qed.

(** A full span: the [Math.min] of the source keeps [(i+1)*interval]. *)
Lemma full_span_end D I (i : nat) :
  0 < I -> (Z.of_nat i < Qfloor (D / I))%Z ->
  Qmin (inject_Z (Z.of_nat (i + 1)) * I) D = inject_Z (Z.of_nat (i + 1)) * I.
Proof.
  intros HI Hi. apply Qmin_left.
  destruct (floor_div_bounds D I HI) as [Hlo _].
  eapply Qle_trans; [|exact Hlo]. apply inject_Z_le_mult; [lia|done].
Qed.

(** The number of segments of AudioProcessor: one more than the whole
    intervals exactly when a remainder is left. *)
Lemma ceiling_div D I :
  0 < I ->
  Qceiling (D / I) =
    if Qltb (inject_Z (Qfloor (D / I)) * I) D then (Qfloor (D / I) + 1)%Z
    else Qfloor (D / I).
Proof.
  intros HI. set (k := Qfloor (D / I)).
  destruct (floor_div_bounds D I HI) as [Hlo Hhi]. fold k in Hlo, Hhi.
  destruct (Qltb (inject_Z k * I) D) eqn:E.
  - apply Qltb_lt in E.
    assert (H1 : inject_Z k < D / I) by (by apply Qlt_shift_div_l).
    assert (H2 : D / I < inject_Z (k + 1)) by (by apply Qlt_shift_div_r).
    pose proof (Qle_ceiling (D / I)) as H3.
    pose proof (Qceiling_lt (D / I)) as H4.
    assert (k < Qceiling (D / I))%Z.
    { rewrite Zlt_Qlt. eapply Qlt_le_trans; [exact H1 | exact H3]. }
    assert (Qceiling (D / I) - 1 < k + 1)%Z.
    { rewrite Zlt_Qlt. eapply Qlt_trans; [exact H4 | exact H2]. }
    lia.
  - apply Qltb_ge in E.
    assert (Heq : D / I == inject_Z k).
    { apply Qle_antisym; [|apply Qfloor_le].
      apply Qle_shift_div_r; [done|]. exact E. }
    rewrite Heq. apply Qceiling_Z.
Qed.

(** The test for a remainder, as the source and as the specification
    write it. *)
Lemma remainder_test D I k :
  Qltb (inject_Z k * I) D = Qltb 0 (D - I * inject_Z k).
Proof.
  apply eq_true_iff_eq. rewrite !Qltb_lt. split; intros H; lra.
Qed.

Lemma editor_segments D I :
  0 < I -> Editor.createAudioSegments I D = Returns (Spec.segment D I).
Proof.
  intros HI. unfold Editor.createAudioSegments, Spec.segment.
  rewrite (Qeq_bool_pos I HI). f_equal. f_equal.
  - apply list_fmap_ext. intros j i Hi.
    apply lookup_seq in Hi as [-> Hi]. simpl.
    f_equal. apply full_span_end; [done | lia].
  - by rewrite remainder_test.
Qed.

Lemma processor_segments b I :
  0 <= duration b -> 0 < I ->
  exists segments,
    Processor.createAudioSegments b I = Returns segments /\
    Spec.span <$> segments = Spec.segment (duration b) I.
Proof.
  intros HD HI. unfold Processor.createAudioSegments.
  rewrite (Qeq_bool_pos I HI). eexists; split; [reflexivity|].
  set (D := duration b) in *. set (maxS := Qmin _ _).
  rewrite <- list_fmap_compose. unfold Spec.segment.
  pose proof (floor_div_nonneg D I HD HI) as Hk.
  destruct (floor_div_bounds D I HI) as [Hlo Hhi].
  rewrite ceiling_div by done. rewrite <- remainder_test.
  set (k := Qfloor (D / I)) in *.
  assert (Hfull : forall n, (n <= Z.to_nat k)%nat ->
            (Spec.span ∘ Processor.makeSegment b I maxS) <$> seq 0 n =
            (fun i : nat =>
               {| Editor.start := inject_Z (Z.of_nat i) * I;
                  Editor.end_ := inject_Z (Z.of_nat (i + 1)) * I |}) <$> seq 0 n).
  { intros n Hn. apply list_fmap_ext. intros j i Hi.
    apply lookup_seq in Hi as [-> Hi]. simpl.
    unfold Spec.span, Processor.makeSegment. simpl. f_equal.
    fold D. apply full_span_end; [done | fold k; lia]. }
  destruct (Qltb (inject_Z k * I) D) eqn:E.
  - replace (Z.to_nat (k + 1)) with (Z.to_nat k + 1)%nat by lia.
    rewrite seq_app, fmap_app, Hfull by lia. f_equal.
    simpl. unfold Spec.span, Processor.makeSegment. simpl. fold D.
    rewrite Z2Nat.id by done. do 2 f_equal.
    apply Qmin_right.
    replace (Z.of_nat (Z.to_nat k + 1)) with (k + 1)%Z by lia. exact Hhi.
  - rewrite app_nil_r. by apply Hfull.
Qed.
End SegmenterFacts.




(** ** The buffer assembler *)
Section AssemblerFacts.
Import Audio Audio.Processor Assembly.

Lemma batches_concat {A} (n : nat) (l : list A) fuel :
  0 < n -> length l <= fuel -> concat (batches n fuel l) = l.
Proof.
  intros Hn. revert l. induction fuel as [|fuel IH]; intros l Hl.
  - destruct l; [done | simpl in Hl; lia].
  - destruct l as [|x l]; [done|].
    cbn [batches concat]. rewrite IH; [apply take_drop|].
    rewrite length_drop. simpl in *. lia.
Qed.

Lemma foldl_concat {A B} (f : B -> A -> B) (b : B) (ls : list (list A)) :
  foldl (fun st batch => foldl f st batch) b ls = foldl f b (concat ls).
Proof.
  revert b. induction ls as [|l ls IH]; intros b; simpl; [done|].
  by rewrite foldl_app, IH.
Qed.

Lemma data0_length_uniform nch s :
  0 < nch -> uniform nch s -> data0_length s = Some (segment_samples s).
Proof.
  intros Hn [Hlen _]. unfold data0_length, segment_samples.
  destruct (data s !! 0) eqn:E; [done|].
  apply lookup_ge_None in E. lia.
Qed.

Lemma totalLength_sum nch segments :
  0 < nch -> Forall (uniform nch) segments ->
  totalLength segments = Some (sum_list (segment_samples <$> segments)).
Proof.
  intros Hn Hu. unfold totalLength.
  assert (H : forall acc,
             foldl (fun sum segment =>
                      s ← sum; n ← data0_length segment; Some (s + n))
                   (Some acc) segments =
             Some (acc + sum_list (segment_samples <$> segments))).
  { induction Hu as [|s segs Hs Hsegs IH]; intros acc.
    - simpl. f_equal. lia.
    - rewrite fmap_cons. cbn [foldl sum_list].
      rewrite (data0_length_uniform nch s Hn Hs). cbn [mbind option_bind].
      rewrite IH. f_equal. unfold id. lia. }
  apply (H 0).
Qed.

Lemma typed_array_set_spec (P src : list Q) pad :
  typed_array_set src (length P) (P ++ replicate (length src + pad) 0%Q) =
    Some (P ++ src ++ replicate pad 0%Q).
Proof.
  unfold typed_array_set. rewrite decide_True.
  - rewrite take_app_length. do 3 f_equal.
    rewrite drop_app_add, drop_replicate. f_equal. lia.
  - rewrite length_app, length_replicate. lia.
Qed.

(** Writing one segment puts its samples behind what each channel
    already holds. *)
Lemma write_segment_spec nch s wp (P : nat -> list Q) pad :
  uniform nch s ->
  (forall c, c < nch -> length (P c) = wp) ->
  write_segment nch s wp
    ((fun c => P c ++ replicate (segment_samples s + pad) 0%Q) <$> seq 0 nch) =
  Some ((fun c => P c ++ default [] (data s !! c) ++ replicate pad 0%Q) <$> seq 0 nch).
Proof.
  intros [Hlen Hsrc] HP. unfold write_segment.
  set (old := fun c => P c ++ replicate (segment_samples s + pad) 0%Q).
  set (new := fun c => P c ++ default [] (data s !! c) ++ replicate pad 0%Q).
  set (step := fun acc channel => _).
  assert (H : forall j, j <= nch ->
             foldl step (Some (old <$> seq 0 nch)) (seq 0 j) =
             Some ((fun c => if decide (c < j) then new c else old c) <$> seq 0 nch)).
  { induction j as [|j IH]; intros Hj; [done|].
    rewrite seq_S, foldl_app, IH by lia. simpl.
    destruct (lookup_lt_is_Some_2 (data s) j) as [src Esrc]; [lia|].
    rewrite Esrc. cbn [mbind option_bind].
    rewrite list_lookup_fmap, lookup_seq_lt by lia. cbn [fmap option_fmap option_map mbind option_bind].
    rewrite decide_False by lia. change (0 + j) with j.
    assert (Hset : typed_array_set src wp (old j) = Some (new j)).
    { unfold old, new. rewrite <- (HP j) by lia. rewrite <- (Hsrc j src Esrc).
      rewrite typed_array_set_spec.
      by rewrite Esrc. }
    rewrite Hset. cbn [mbind option_bind]. f_equal.
    apply list_eq. intros c.
    destruct (decide (c = j)) as [->|Hc].
    - rewrite list_lookup_insert_eq by (rewrite length_fmap, length_seq; lia).
      rewrite list_lookup_fmap, lookup_seq_lt by lia. simpl.
      rewrite decide_True by lia. unfold new. by rewrite Esrc.
    - rewrite list_lookup_insert_ne by done.
      rewrite !list_lookup_fmap.
      destruct (seq 0 nch !! c) as [c'|] eqn:Ec; [|done]. simpl.
      apply lookup_seq in Ec as [-> _]. simpl.
      destruct (decide (c < j)), (decide (c < S j)); try done; lia. }
  rewrite H by done. f_equal. apply list_fmap_ext.
  intros i c Hc. apply lookup_seq in Hc as [-> Hc]. simpl.
  by rewrite decide_True by lia.
Qed.

Lemma channel_of_snoc c segments s :
  channel_of c (segments ++ [s]) = channel_of c segments ++ default [] (data s !! c).
Proof.
  unfold channel_of. rewrite fmap_app, concat_app. simpl. by rewrite app_nil_r.
Qed.

Lemma channel_of_length nch c segments :
  Forall (uniform nch) segments -> c < nch ->
  length (channel_of c segments) = sum_list (segment_samples <$> segments).
Proof.
  intros Hu Hc. unfold channel_of.
  induction Hu as [|s segs [Hlen Hsrc] _ IH]; [done|].
  rewrite !fmap_cons. cbn [concat sum_list]. rewrite length_app, IH. f_equal.
  destruct (lookup_lt_is_Some_2 (data s) c) as [src Esrc]; [lia|].
  rewrite Esrc. simpl. by apply (Hsrc c).
Qed.

(** [processInBatches] lays the segments end to end, channel by channel. *)
Lemma processInBatches_concat segments nch rate :
  0 < nch -> Forall (uniform nch) segments ->
  processInBatches segments nch rate =
    Some {| sampleRate := rate;
            channelData := (fun c => channel_of c segments) <$> seq 0 nch |}.
Proof.
  intros Hn Hu. unfold processInBatches.
  rewrite (totalLength_sum nch) by done. simpl.
  rewrite foldl_concat, batches_concat by lia.
  set (step := fun st segment => _).
  assert (H : forall rest done_,
             Forall (uniform nch) done_ -> Forall (uniform nch) rest ->
             foldl step
               (Some ((fun c => channel_of c done_ ++
                                replicate (sum_list (segment_samples <$> rest)) 0%Q)
                        <$> seq 0 nch,
                      sum_list (segment_samples <$> done_))) rest =
             Some ((fun c => channel_of c (done_ ++ rest)) <$> seq 0 nch,
                   sum_list (segment_samples <$> (done_ ++ rest)))).
  { induction rest as [|s rest IH]; intros done_ Hd Hr.
    - simpl. rewrite app_nil_r. do 2 f_equal.
      apply list_fmap_ext. intros i c _. simpl. by rewrite app_nil_r.
    - apply Forall_cons in Hr as [Hs Hr].
      cbn [foldl]. unfold step at 2. cbn [mbind option_bind fmap list_fmap sum_list].
      rewrite (write_segment_spec nch s _ (fun c => channel_of c done_)); [|done|].
      2: { intros c Hc. by apply (channel_of_length nch). }
      cbn [mbind option_bind].
      rewrite (data0_length_uniform nch s Hn Hs). cbn [mbind option_bind].
      replace (done_ ++ s :: rest) with ((done_ ++ [s]) ++ rest)
        by (by rewrite <- app_assoc).
      rewrite <- IH; [|apply Forall_app; split; [done | by constructor] | done].
      do 3 f_equal.
      + apply list_fmap_ext. intros i c _. simpl.
        by rewrite channel_of_snoc, <- app_assoc.
      + rewrite fmap_app, sum_list_with_app. simpl. lia. }
  specialize (H segments [] (Forall_nil_2 _) Hu).
  unfold createBuffer. cbn [channelData].
  replace (replicate nch (replicate (sum_list (segment_samples <$> segments)) 0%Q))
    with ((fun c => channel_of c [] ++
                    replicate (sum_list (segment_samples <$> segments)) 0%Q)
            <$> seq 0 nch).
  - change (sum_list (segment_samples <$> [])) with 0 in H.
    rewrite H. done.
  - rewrite (const_fmap _ (seq 0 nch)
               (replicate (sum_list (segment_samples <$> segments)) 0%Q)) by done.
    by rewrite length_seq.
Qed.
End AssemblerFacts.

(** ** How many samples the segments hold *)
Section SampleCountFacts.
Import Audio Audio.Processor Assembly.
Local Open Scope Q_scope.

Lemma copyFromChannel_length len channel offset :
  length (copyFromChannel len channel offset) = len.
Proof.
  unfold copyFromChannel. rewrite length_app, length_replicate, length_take. lia.
Qed.

Lemma makeSegment_uniform b I maxS i :
  uniform (numberOfChannels b) (makeSegment b I maxS i).
Proof.
  unfold uniform, makeSegment, segment_samples, numberOfChannels. cbn [data].
  split; [by rewrite length_fmap|].
  intros c src Hsrc. rewrite list_lookup_fmap in *.
  destruct (channelData b !! c) as [ch|] eqn:Ec; [|done].
  injection Hsrc as <-. rewrite copyFromChannel_length.
  destruct (channelData b !! 0%nat) as [ch0|] eqn:E0.
  - simpl. by rewrite copyFromChannel_length.
  - apply lookup_ge_None in E0. apply lookup_lt_Some in Ec. lia.
Qed.

Lemma makeSegment_samples b I maxS i :
  (0 < numberOfChannels b)%nat ->
  segment_samples (makeSegment b I maxS i) =
    Float32Array_length
      (Qmin (inject_Z (Qfloor
               ((Qmin (inject_Z (Z.of_nat (i + 1)) * I) (duration b) -
                 inject_Z (Z.of_nat i) * I) * sampleRate b)))
            maxS).
Proof.
  intros Hn. unfold makeSegment, segment_samples, numberOfChannels in *. cbn [data].
  rewrite list_lookup_fmap.
  destruct (channelData b !! 0%nat) as [ch0|] eqn:E0.
  - simpl. by rewrite copyFromChannel_length.
  - apply lookup_ge_None in E0. lia.
Qed.

(** When an interval is a whole number [m] of samples, segment [i]
    holds [m] samples, or what is left of the [L] samples of the
    buffer after [i] segments when that is less. *)
Lemma whole_interval_samples (D I rate : Q) (m L : Z) (i : nat) :
  0 < rate -> 0 < I -> I * rate == inject_Z m -> D * rate == inject_Z L ->
  Float32Array_length
    (Qmin (inject_Z (Qfloor
             ((Qmin (inject_Z (Z.of_nat (i + 1)) * I) D -
               inject_Z (Z.of_nat i) * I) * rate)))
          (inject_Z m)) =
  Z.to_nat (Z.min m (L - Z.of_nat i * m)).
Proof.
  intros Hr HI Hm HL.
  assert (Hi1 : inject_Z (Z.of_nat (i + 1)) == inject_Z (Z.of_nat i) + 1).
  { rewrite Nat2Z.inj_add, inject_Z_plus. reflexivity. }
  set (qi := inject_Z (Z.of_nat i)) in *.
  assert (Hval :
    (Qmin (inject_Z (Z.of_nat (i + 1)) * I) D - qi * I) * rate ==
    inject_Z (Z.min m (L - Z.of_nat i * m))).
  { destruct (Q.min_spec (inject_Z (Z.of_nat (i + 1)) * I) D) as [[Hlt ->]|[Hle ->]].
    - assert (Hz : (m <= L - Z.of_nat i * m)%Z).
      { rewrite Zle_Qle. unfold Zminus.
        rewrite inject_Z_plus, inject_Z_opp, inject_Z_mult. fold qi.
        rewrite <- Hm, <- HL. rewrite Hi1 in Hlt. nra. }
      rewrite Z.min_l by done. rewrite Hi1, <- Hm. ring.
    - assert (Hz : (L - Z.of_nat i * m <= m)%Z).
      { rewrite Zle_Qle. unfold Zminus.
        rewrite inject_Z_plus, inject_Z_opp, inject_Z_mult. fold qi.
        rewrite <- Hm, <- HL. rewrite Hi1 in Hle. nra. }
      rewrite Z.min_r by done. unfold Zminus.
      rewrite inject_Z_plus, inject_Z_opp, inject_Z_mult. fold qi.
      rewrite <- Hm, <- HL. ring. }
  rewrite Hval, Qfloor_Z.
  rewrite Qmin_left by (rewrite <- Zle_Qle; lia).
  unfold Float32Array_length. by rewrite Qfloor_Z.
Qed.

Lemma whole_interval_sum (m L : Z) (j : nat) :
  (0 < m)%Z -> (0 <= L)%Z ->
  sum_list ((fun i : nat => Z.to_nat (Z.min m (L - Z.of_nat i * m))) <$> seq 0 j) =
  Z.to_nat (Z.min (Z.of_nat j * m) L).
Proof.
  intros Hm HL. induction j as [|j IH]; [simpl; lia|].
  rewrite seq_S, fmap_app, sum_list_with_app, IH. simpl. unfold id. nia.
Qed.
End SampleCountFacts.




(** ** Concrete runs *)

Lemma createAudioSegments_single b I :
  (0 < I)%Q -> Qceiling (Audio.duration b / I) = 1%Z ->
  0 < Audio.numberOfChannels b ->
  exists segment,
    Audio.Processor.createAudioSegments b I = Audio.Returns [segment] /\
    Audio.Processor.totalLength [segment] =
      Some (Audio.Float32Array_length
              (Qmin (inject_Z (Qfloor
                       ((Qmin (inject_Z 1 * I) (Audio.duration b) - inject_Z 0 * I)
                        * Audio.sampleRate b)))
                    (Qmin (inject_Z (Qfloor (I * Audio.sampleRate b)))
                          (Audio.MAX_SEGMENT_SIZE /
                           inject_Z (Z.of_nat (Audio.numberOfChannels b)))))).
Proof.
  intros HI HN Hn. unfold Audio.Processor.createAudioSegments.
  rewrite (Qeq_bool_pos I HI), HN. eexists; split; [reflexivity|].
  rewrite (totalLength_sum (Audio.numberOfChannels b)) by
    (done || (constructor; [apply makeSegment_uniform | constructor])).
  rewrite fmap_cons. cbn [sum_list_with fmap list_fmap]. unfold id.
  rewrite makeSegment_samples by done. by rewrite Nat.add_0_r.
Qed.


(** ** The Split permutation *)
Section SplitPermutationFacts.
Context {A : Type}.
Implicit Types (l : list A).

Lemma ceil_div_exact k s : 0 < k -> Js.ceil_div (k * s) k = s.
Proof.
  intros Hk. unfold Js.ceil_div.
  replace (k * s + (k - 1)) with (k - 1 + s * k) by lia.
  rewrite Nat.div_add by lia. rewrite Nat.div_small by lia. lia.
Qed.

Lemma lookup_concat_uniform (rows : list (list A)) m r i :
  Forall (fun row => length row = m) rows -> i < m ->
  concat rows !! (r * m + i) = rows !! r ≫= (.!! i).
Proof.
  intros Hrows Hi. revert r. induction Hrows as [|row rows Hrow _ IH]; intros r.
  - done.
  - destruct r as [|r]; cbn [concat].
    + simpl. by rewrite lookup_app_l by lia.
    + rewrite lookup_app_r by lia.
      replace (S r * m + i - length row) with (r * m + i) by lia.
      by rewrite IH.
Qed.

Lemma length_concat_uniform (rows : list (list A)) m :
  Forall (fun row => length row = m) rows -> length (concat rows) = length rows * m.
Proof.
  induction 1 as [|row rows Hrow _ IH]; [done|].
  cbn [concat length]. rewrite length_app. lia.
Qed.

Lemma omap_seq_total (h : nat -> option A) a k :
  (forall j, a <= j < a + k -> is_Some (h j)) ->
  length (omap h (seq a k)) = k /\
  forall i, i < k -> omap h (seq a k) !! i = h (a + i).
Proof.
  revert a. induction k as [|k IH]; intros a Hh; [split; [done | lia]|].
  destruct (Hh a) as [x Hx]; [lia|].
  destruct (IH (S a)) as [Hlen Hlook]; [intros j Hj; apply Hh; lia|].
  simpl. rewrite Hx. change (list_omap nat A h ?l) with (omap h l). split.
  - simpl. by rewrite Hlen.
  - intros [|i] Hi; simpl.
    + by rewrite Nat.add_0_r.
    + rewrite Hlook by lia. f_equal. lia.
Qed.

Lemma omap_fmap_compose {B} (g : B -> list A) (r : nat) (xs : list B) :
  omap (fun part : list A => part !! r) (g <$> xs) = omap (fun x => g x !! r) xs.
Proof.
  induction xs as [|x xs IH]; [done|].
  rewrite fmap_cons. simpl. destruct (g x !! r); [f_equal|]; exact IH.
Qed.

Lemma max_list_const (ns : list nat) m :
  ns <> [] -> Forall (fun n => n = m) ns -> Js.max_list ns = m.
Proof.
  intros Hne Hns. induction Hns as [|n ns -> Hrest IH]; [done|].
  simpl. destruct ns as [|n' ns]; [simpl; lia|]. rewrite IH by done. lia.
Qed.

(** The parts of a sequence of [k * s] segments are the [k] runs of [s]
    segments; position [r * k + i] of the encoded sequence holds segment
    [i * s + r]. *)
Lemma encodeSplit_even k s l :
  0 < k -> length l = k * s ->
  length (Permutation.encodeSplit k l) = k * s /\
  forall r i, r < s -> i < k ->
    Permutation.encodeSplit k l !! (r * k + i) = l !! (i * s + r).
Proof.
  intros Hk Hlen. unfold Permutation.encodeSplit, Permutation.split_parts.
  rewrite Hlen, ceil_div_exact by done.
  set (parts := (fun i => Js.slice (i * s) (Nat.min ((i + 1) * s) (k * s)) l) <$> seq 0 k).
  assert (Hpart : forall i r, i < k -> r < s ->
            Js.slice (i * s) (Nat.min ((i + 1) * s) (k * s)) l !! r = l !! (i * s + r)).
  { intros i r Hi Hr. unfold Js.slice.
    assert ((i + 1) * s <= k * s) by nia.
    rewrite lookup_take_lt by lia. by rewrite lookup_drop. }
  assert (Hplen : Forall (fun n => n = s) (length <$> parts)).
  { unfold parts. rewrite <- list_fmap_compose. apply Forall_fmap, Forall_forall.
    intros i Hi. apply elem_of_seq in Hi. simpl. unfold Js.slice.
    assert ((i + 1) * s <= k * s) by nia.
    rewrite length_take, length_drop. lia. }
  rewrite (max_list_const _ s); [|by destruct k; [lia|]| done].
  assert (Hrow : forall r, r < s ->
            length (omap (fun part : list A => part !! r) parts) = k /\
            forall i, i < k ->
              omap (fun part : list A => part !! r) parts !! i = l !! (i * s + r)).
  { intros r Hr. unfold parts. rewrite omap_fmap_compose.
    destruct (omap_seq_total
                (fun i => Js.slice (i * s) (Nat.min ((i + 1) * s) (k * s)) l !! r) 0 k)
      as [Hl Hlk].
    - intros j Hj. rewrite Hpart by lia. apply lookup_lt_is_Some_2. nia.
    - split; [done|]. intros i Hi. rewrite Hlk by done. simpl. by apply Hpart. }
  set (rows := (fun r => omap (fun part : list A => part !! r) parts) <$> seq 0 s).
  assert (Hrows : Forall (fun row => length row = k) rows).
  { unfold rows. apply Forall_fmap, Forall_forall. intros r Hr.
    apply elem_of_seq in Hr. simpl. apply Hrow. lia. }
  split.
  - rewrite (length_concat_uniform rows k Hrows). unfold rows.
    rewrite length_fmap, length_seq. lia.
  - intros r i Hr Hi. rewrite (lookup_concat_uniform rows k r i Hrows Hi).
    unfold rows. rewrite list_lookup_fmap, lookup_seq_lt by done. simpl.
    by apply Hrow.
Qed.

(** The slot that the decoder computes for a position. *)
Lemma split_slot_bound k s j :
  0 < k -> j < k * s -> j mod k * s + j / k < k * s.
Proof.
  intros Hk Hj.
  pose proof (Nat.mod_upper_bound j k). pose proof (Nat.div_mod_eq j k).
  assert (j / k < s) by (apply Nat.Div0.div_lt_upper_bound; lia). nia.
Qed.

Lemma split_slot_inj k s j j' :
  0 < k -> j < k * s -> j' < k * s ->
  j mod k * s + j / k = j' mod k * s + j' / k -> j = j'.
Proof.
  intros Hk Hj Hj' Heq.
  pose proof (Nat.div_mod_eq j k). pose proof (Nat.div_mod_eq j' k).
  assert (Hd : j / k < s) by (apply Nat.Div0.div_lt_upper_bound; lia).
  assert (Hd' : j' / k < s) by (apply Nat.Div0.div_lt_upper_bound; lia).
  assert (j mod k = j' mod k).
  { assert (H1 : (j mod k * s + j / k) / s = j mod k).
    { rewrite Nat.add_comm, Nat.div_add by lia. rewrite Nat.div_small by done. lia. }
    assert (H2 : (j' mod k * s + j' / k) / s = j' mod k).
    { rewrite Nat.add_comm, Nat.div_add by lia. rewrite Nat.div_small by done. lia. }
    congruence. }
  assert (j / k = j' / k) by nia. nia.
Qed.

(** When the number of segments is a multiple of the number of parts,
    every round of the interleave is full and decoding undoes encoding. *)
Lemma split_round_trip_even k s l :
  0 < k -> length l = k * s ->
  Permutation.decodeSplit k (Permutation.encodeSplit k l) = l.
Proof.
  intros Hk Hlen. destruct (encodeSplit_even k s l Hk Hlen) as [Henc Hlook].
  unfold Permutation.decodeSplit. rewrite Henc, ceil_div_exact by done.
  set (enc := Permutation.encodeSplit k l) in *.
  set (n := k * s) in *.
  set (pos := fun j => j mod k * s + j / k).
  set (f := fun (segment : A) (index : nat) (arr : list (option A)) => _).
  assert (Hf : forall x i (a : list (option A)), 0 <= i < 0 + length enc -> length a = n ->
                 f x i a = <[pos i := Some x]> a).
  { intros x i a Hi Ha. unfold f.
    pose proof (split_slot_bound k s i Hk) as Hb. fold n in Hb.
    destruct (Nat.ltb_spec (i mod k * s + i / k) n); [|lia].
    apply array_set_in_range. unfold pos. lia. }
  replace (Js.forEach f enc (Js.new_Array n)) with (Some <$> l);
    [apply filter_Boolean_Some|].
  assert (Hl0 : length (Js.new_Array (A := A) n) = n) by apply length_replicate.
  apply list_eq. intros t. destruct (decide (t < n)) as [Ht|Ht].
  - destruct (lookup_lt_is_Some_2 l t) as [x Hx]; [lia|].
    rewrite list_lookup_fmap, Hx. simpl. symmetry.
    assert (Hs : 0 < s) by (destruct s; [lia | lia]).
    pose proof (Nat.div_mod_eq t s) as Hts. pose proof (Nat.mod_upper_bound t s) as Hms.
    assert (Hi : t / s < k) by (apply Nat.Div0.div_lt_upper_bound; lia).
    set (j := t mod s * k + t / s).
    assert (Hjm : j mod k = t / s).
    { unfold j. rewrite Nat.add_comm, Nat.Div0.mod_add. by apply Nat.mod_small. }
    assert (Hjd : j / k = t mod s).
    { unfold j. rewrite Nat.add_comm, Nat.div_add by lia.
      rewrite Nat.div_small by done. lia. }
    assert (Hpos : pos (0 + j) = t) by (unfold pos; simpl; rewrite Hjm, Hjd; lia).
    rewrite <- Hpos at 1. unfold Js.forEach.
    apply (forEach_from_hit f pos n); try done.
    + intros i Hi'. apply split_slot_bound; [done | lia].
    + intros i i' Hi1 Hi2 Heq. apply (split_slot_inj k s) in Heq; lia.
    + unfold j. rewrite Hlook by lia. rewrite <- Hx. f_equal. lia.
  - rewrite (lookup_ge_None_2 (Some <$> l)) by (rewrite length_fmap; lia).
    symmetry. apply lookup_ge_None_2. unfold Js.forEach.
    rewrite (forEach_from_length f pos n); [lia | done | done].
Qed.
End SplitPermutationFacts.

(** C1, at four segments and three parts.  The blocks are [0,1], [2,3]
    and an empty one; the encoder emits [0,2,1,3]; the decoder sends the
    element at position 2 to slot 4, outside the array, drops it, and
    returns the three elements [0,3,2] instead of [0,1,2,3]. *)
Theorem split_round_trip_four_segments_three_parts :
  Permutation.encodeSplit 3 [0; 1; 2; 3] = [0; 2; 1; 3] /\
  Permutation.decodeSplit 3 (Permutation.encodeSplit 3 [0; 1; 2; 3]) = [0; 3; 2].
Proof. split; reflexivity. Qed.

(** ** The reversal stage *)
Section ReversalFacts.
Import Audio Audio.Processor Assembly.

(** Filling a channel from its far end gives the channel reversed. *)
Lemma reverse_by_index (l : list Q) :
  (fun i => default 0%Q (l !! (length l - 1 - i))) <$> seq 0 (length l) = reverse l.
Proof.
  apply list_eq. intros i. rewrite list_lookup_fmap.
  destruct (decide (i < length l)) as [Hi|Hi].
  - rewrite lookup_seq_lt by done. simpl.
    rewrite reverse_lookup by done.
    replace (length l - 1 - i) with (length l - S i) by lia.
    destruct (lookup_lt_is_Some_2 l (length l - S i)) as [x Hx]; [lia|].
    by rewrite Hx.
  - rewrite lookup_seq_ge by lia. symmetry. apply lookup_ge_None_2.
    rewrite length_reverse. lia.
Qed.

Lemma reverseAudioBuffer_channels buffer :
  reverseAudioBuffer buffer =
    {| sampleRate := sampleRate buffer;
       channelData := reverse <$> channelData buffer |}.
Proof.
  unfold reverseAudioBuffer. cbn [createBuffer sampleRate]. f_equal.
  apply list_fmap_ext. intros i l _. apply reverse_by_index.
Qed.

Lemma reverse_samples_uniform nch s : uniform nch s -> uniform nch (reverse_samples s).
Proof.
  intros [Hlen Hsrc]. unfold uniform, segment_samples, reverse_samples. cbn [data].
  split; [by rewrite length_fmap|].
  intros c src. rewrite !list_lookup_fmap.
  destruct (data s !! c) as [x|] eqn:Ec; [|done]. simpl. intros [= <-].
  rewrite length_reverse, (Hsrc c x Ec). unfold segment_samples.
  destruct (data s !! 0) as [y|]; simpl; [by rewrite length_reverse | done].
Qed.

Lemma reverse_concat {A} (ls : list (list A)) :
  reverse (concat ls) = concat (reverse (reverse <$> ls)).
Proof.
  induction ls as [|l ls IH]; [done|].
  rewrite fmap_cons, reverse_cons. cbn [concat].
  rewrite reverse_app, IH, concat_app. simpl. by rewrite app_nil_r.
Qed.

Lemma channel_of_reversed c segments :
  channel_of c (reverse (reverse_samples <$> segments)) =
    reverse (channel_of c segments).
Proof.
  unfold channel_of. rewrite reverse_concat, <- !fmap_reverse, <- !list_fmap_compose.
  f_equal. apply list_fmap_ext. intros i s _. simpl.
  rewrite list_lookup_fmap. by destruct (data s !! c).
Qed.
End ReversalFacts.

(** C6, counterexample.  Two mono segments holding the samples [1,2]
    and [3,4] are assembled to [1,2,3,4]; the reversal stage turns this
    into [4,3,2,1], whereas the segments in reverse order, each with its
    samples untouched, are [3,4,1,2]. *)
Lemma reversal_reverses_samples :
  Audio.Processor.reverseAudioBuffer <$>
    Audio.Processor.processInBatches [segment_1_2; segment_3_4] 1 2 =
    Some {| Audio.sampleRate := 2; Audio.channelData := [[4; 3; 2; 1]%Q] |} /\
  Audio.Processor.processInBatches (reverse [segment_1_2; segment_3_4]) 1 2 =
    Some {| Audio.sampleRate := 2; Audio.channelData := [[3; 4; 1; 2]%Q] |} /\
  Audio.Processor.reverseAudioBuffer <$>
    Audio.Processor.processInBatches [segment_1_2; segment_3_4] 1 2 <>
    Audio.Processor.processInBatches (reverse [segment_1_2; segment_3_4]) 1 2.
Proof.
  split; [reflexivity|]. split; [reflexivity|]. discriminate.
Qed.

(** C6, as amended.  The reversal stage of AudioProcessor works on the
    assembled buffer: [reverseAudioBuffer] keeps the sample rate and
    returns every channel with its samples in reverse order.  For a
    sequence of segments this is the assembly of the segments in reverse
    order with the samples inside each segment reversed as well.  (The
    stage of AudioEditor reverses the list of spans.) *)
Theorem reversal_stage (nch : nat) (rate : Q)
        (segments : list Audio.Processor.AudioSegment) (buffer : Audio.AudioBuffer) :
  0 < nch -> Forall (Assembly.uniform nch) segments ->
  Audio.Processor.processInBatches segments nch rate = Some buffer ->
  Audio.Processor.reverseAudioBuffer buffer =
    {| Audio.sampleRate := rate;
       Audio.channelData := reverse <$> Audio.channelData buffer |} /\
  Audio.Processor.processInBatches (reverse (Assembly.reverse_samples <$> segments)) nch rate =
    Some (Audio.Processor.reverseAudioBuffer buffer) /\
  forall spans, Audio.Editor.reverse_stage true spans = reverse spans.
Proof.
  intros Hn Hu Hb. rewrite processInBatches_concat in Hb by done.
  injection Hb as <-. split; [apply reverseAudioBuffer_channels|]. split; [|done].
  rewrite processInBatches_concat; [|done|].
  - rewrite reverseAudioBuffer_channels. cbn [Audio.sampleRate Audio.channelData].
    do 2 f_equal. rewrite <- list_fmap_compose.
    apply list_fmap_ext. intros i c _. simpl. apply channel_of_reversed.
  - apply Forall_reverse, Forall_fmap.
    eapply Forall_impl; [exact Hu|]. intros s. apply reverse_samples_uniform.
Qed.

Lemma reversal_stage_witness :
  Audio.Processor.reverseAudioBuffer buffer_1_2_3_4 =
    {| Audio.sampleRate := 2;
       Audio.channelData := reverse <$> Audio.channelData buffer_1_2_3_4 |} /\
  Audio.Processor.processInBatches
    (reverse (Assembly.reverse_samples <$> [segment_1_2; segment_3_4])) 1 2 =
    Some (Audio.Processor.reverseAudioBuffer buffer_1_2_3_4) /\
  forall spans, Audio.Editor.reverse_stage true spans = reverse spans.
Proof.
  apply (reversal_stage 1 2 [segment_1_2; segment_3_4] buffer_1_2_3_4).
  - lia.
  - repeat constructor; intros [|c] src H; simpl in H; try discriminate;
      by injection H as <-.
  - reflexivity.
Defined.


(** ** Intervals that are not positive *)
Section NegativeIntervalFacts.
Import Audio.
Local Open Scope Q_scope.

Lemma div_negative_nonpos D I : 0 <= D -> I < 0 -> D / I <= 0.
Proof.
  intros HD HI.
  assert (Heq : D / I == (- D) / (- I)).
  { field. intros H. rewrite H in HI. by apply Qlt_irrefl in HI. }
  rewrite Heq. apply Qle_shift_div_r; lra.
Qed.

Lemma processor_negative_interval b I :
  0 <= duration b -> I < 0 -> Processor.createAudioSegments b I = Returns [].
Proof.
  intros HD HI. unfold Processor.createAudioSegments.
  rewrite (Qeq_bool_neg I HI).
  assert (Hc : (Qceiling (duration b / I) <= 0)%Z).
  { change 0%Z with (Qceiling 0). apply Qceiling_resp_le.
    by apply div_negative_nonpos. }
  by replace (Z.to_nat (Qceiling (duration b / I))) with 0%nat by lia.
Qed.

Lemma editor_negative_interval I D :
  0 <= D -> I < 0 -> Editor.createAudioSegments I D = Returns [].
Proof.
  intros HD HI. unfold Editor.createAudioSegments.
  rewrite (Qeq_bool_neg I HI).
  assert (Hk : (Qfloor (D / I) <= 0)%Z).
  { change 0%Z with (Qfloor 0). apply Qfloor_resp_le.
    by apply div_negative_nonpos. }
  replace (Z.to_nat (Qfloor (D / I))) with 0%nat by lia.
  replace (Qltb (inject_Z (Qfloor (D / I)) * I) D) with false; [done|].
  symmetry. apply Qltb_ge.
  assert (Hq : D / I * I == D).
  { field. intros H. rewrite H in HI. by apply Qlt_irrefl in HI. }
  pose proof (Qfloor_le (D / I)) as Hf. nra.
Qed.

Lemma duration_nonneg b : 0 < sampleRate b -> 0 <= duration b.
Proof.
  intros Hr. unfold duration. apply Qle_shift_div_l; [done|].
  rewrite Qmult_0_l. change 0 with (inject_Z 0). rewrite <- Zle_Qle. lia.
Qed.
End NegativeIntervalFacts.

(** ** What the parser accepts *)
Section ParserFacts.
Import JsNum Codec.

(** Whatever the code, a parse that succeeds leaves an interval and
    parts of the permitted ranges, and a parse that fails leaves the
    state as it was. *)
Lemma parse_checks_ranges code st :
  match parseEncodingCode code st with
  | (true, st') =>
      Spec.value_in_range (decodeInterval st') /\
      (decodingType st' = split -> (2 <= decodeNumberOfParts st' <= 10)%Z)
  | (false, st') => st' = st
  end.
Proof.
  unfold parseEncodingCode, parseEncodingCode_run.
  destruct (split_on "b" code) as [|type [|partsStr [|iwr [|]]]]; try done.
  destruct (_ || _); [done|]. destruct (_ && _); [done|].
  set (x := parseFloat _).
  destruct (isNaN x) eqn:Hnan; [done|].
  destruct (lt x num_0_001) eqn:Hlt; [done|].
  destruct (gt x num_10) eqn:Hgt; [done|]. cbn [orb].
  assert (Hrange : Spec.value_in_range x) by by apply passes_check_in_range.
  destruct (bool_decide (type = str "s")).
  - destruct (parseInt partsStr) as [parts|]; [|done].
    destruct (Z.ltb_spec parts 2); [done|].
    destruct (Z.gtb_spec parts 10); [done|]. cbn. repeat split; try done; lia.
  - destruct (bool_decide (type = str "oe")); [|done].
    destruct (negb _); [done|]. cbn. by repeat split.
Qed.
End ParserFacts.





(** ** Particular codes *)

(** C8, counterexample.  The code [oebb0.2bt] splits on [b] into four
    fields and is turned down. *)
Lemma oebb0_2bt_rejected :
  Codec.parseEncodingCode (JsNum.str "oebb0.2bt") initial_decoder_state =
    (false, initial_decoder_state).
Proof. reflexivity. Qed.

(** C8, as amended.  The OddEven code for the interval 0.2 with reversal
    is [oebb0.2t], the flag following the interval with no [b] in
    between: it parses to OddEven, interval 0.2, reversed [true] (the
    stored parts are left as they were).  The code [oebb0.2bt] has four
    fields and is rejected by the field count. *)
Theorem oebb0_2t_parses (st : Codec.DecoderState) :
  Codec.parseEncodingCode (JsNum.str "oebb0.2t") st =
    (true, {| Codec.decodingType := Codec.oddEven;
              Codec.decodeNumberOfParts := Codec.decodeNumberOfParts st;
              Codec.decodeInterval := num_0_2;
              Codec.isDecodeReversed := true |}) /\
  Codec.parseEncodingCode_run (JsNum.str "oebb0.2bt") st = inl Codec.FieldCount.
Proof. split; reflexivity. Qed.

(** C9, counterexample.  [sb1b0.2bt] is not turned down by the check of
    the parts: the count of its fields turns it down before. *)
Lemma sb1b0_2bt_not_parts_range :
  Codec.parseEncodingCode_run (JsNum.str "sb1b0.2bt") initial_decoder_state
    <> inl Codec.PartsRange.
Proof. discriminate. Qed.

(** C9, as amended.  The parser returns a plain [false] and has no named
    errors.  It rejects [sb1b0.2bt], [sb5b0.2bx] and [xb5b0.2bt] and
    takes no parameter from them; all three are turned down by the field
    count, for the [b] before the flag makes four fields.  Without that
    [b], [sb1b0.2t] is turned down by the check of the parts, [sb5b0.2x]
    by the check of the flag and [xb5b0.2t] by the check of the type. *)
Theorem malformed_codes_rejected (st : Codec.DecoderState) :
  (Codec.parseEncodingCode (JsNum.str "sb1b0.2bt") st = (false, st) /\
   Codec.parseEncodingCode (JsNum.str "sb5b0.2bx") st = (false, st) /\
   Codec.parseEncodingCode (JsNum.str "xb5b0.2bt") st = (false, st)) /\
  (Codec.parseEncodingCode_run (JsNum.str "sb1b0.2bt") st = inl Codec.FieldCount /\
   Codec.parseEncodingCode_run (JsNum.str "sb5b0.2bx") st = inl Codec.FieldCount /\
   Codec.parseEncodingCode_run (JsNum.str "xb5b0.2bt") st = inl Codec.FieldCount) /\
  (Codec.parseEncodingCode_run (JsNum.str "sb1b0.2t") st = inl Codec.PartsRange /\
   Codec.parseEncodingCode_run (JsNum.str "sb5b0.2x") st = inl Codec.ReverseFlag /\
   Codec.parseEncodingCode_run (JsNum.str "xb5b0.2t") st = inl Codec.UnknownType).
Proof. repeat split; reflexivity. Qed.

(** C10.  The code [sb5xb0.2t] is not a sentence of the grammar of
    section 4.4 (its parts field [5x] is not a decimal integer), yet
    [parseEncodingCode] accepts it and stores Split with 5 parts, the
    interval 0.2 and reversed [true]: [parseInt] reads the digits at the
    front of [5x] and ignores the rest. *)
Theorem sb5xb0_2t_accepted (st : Codec.DecoderState) :
  JsNum.parseInt (JsNum.str "5x") = Some 5%Z /\
  Codec.parseEncodingCode (JsNum.str "sb5xb0.2t") st =
    (true, {| Codec.decodingType := Codec.split;
              Codec.decodeNumberOfParts := 5;
              Codec.decodeInterval := num_0_2;
              Codec.isDecodeReversed := true |}) /\
  ~ Spec.grammar (JsNum.str "sb5xb0.2t").
Proof.
  split; [reflexivity|]. split; [reflexivity|].
  intros (type & partsToken & intervalToken & reverseFlag & Hcode & Htype & _ & _).
  destruct Htype as [[-> (k & Hk & ->)]|[-> ->]]; [|discriminate].
  assert (Hcases : (k = 2 \/ k = 3 \/ k = 4 \/ k = 5 \/ k = 6 \/ k = 7 \/ k = 8 \/
                    k = 9 \/ k = 10)%Z) by lia.
  repeat (destruct Hcases as [->|Hcases]); try subst k; discriminate.
Qed.

(** * Further properties of the code *)

(** ** The permutations as bijections *)
Section BijectionFacts.
Context {A : Type}.
Implicit Types (l : list A).

Lemma ceil_div_half n : Js.ceil_div n 2 + n / 2 = n.
Proof.
  unfold Js.ceil_div.
  pose proof (Nat.div_mod_eq n 2). pose proof (Nat.mod_upper_bound n 2).
  pose proof (Nat.div_mod_eq (n + (2 - 1)) 2).
  pose proof (Nat.mod_upper_bound (n + (2 - 1)) 2). lia.
Qed.

(** An array whose slots all hold an element loses nothing to
    [filter(Boolean)]. *)
Lemma filter_Boolean_full (arr : list (option A)) (g : nat -> A) :
  (forall j, j < length arr -> arr !! j = Some (Some (g j))) ->
  Js.filter_Boolean arr = g <$> seq 0 (length arr).
Proof.
  intros Harr. rewrite <- (filter_Boolean_Some (g <$> seq 0 (length arr))).
  f_equal. apply list_eq. intros j. rewrite !list_lookup_fmap.
  destruct (decide (j < length arr)) as [Hj|Hj].
  - rewrite Harr by done. by rewrite lookup_seq_lt.
  - rewrite lookup_ge_None_2 by lia. by rewrite lookup_seq_ge by lia.
Qed.

(** The decoder of OddEven puts element [i] of the first half (the
    first [ceil (n / 2)] elements) at slot [2 i] and element [i] of the
    second half at slot [2 i + 1]. *)
Lemma decodeOddEven_lookup l :
  length (Permutation.decodeOddEven l) = length l /\
  forall j, j < length l ->
    Permutation.decodeOddEven l !! j =
      if Js.is_even_index j then l !! (j / 2)
      else l !! (Js.ceil_div (length l) 2 + j / 2).
Proof.
  destruct l as [|x0 l'] eqn:El; [split; [done | intros j Hj; simpl in Hj; lia]|].
  rewrite <- El. clear El l'.
  unfold Permutation.decodeOddEven.
  set (N := length l). set (c := Js.ceil_div N 2).
  pose proof (ceil_div_half N) as Hc. fold c in Hc.
  unfold Js.slice, Js.slice_from. rewrite drop_0, Nat.sub_0_r.
  set (odds := take c l). set (evens := drop c l).
  assert (Hlo : length odds = c) by (unfold odds; rewrite length_take; lia).
  assert (Hle : length evens = N / 2) by (unfold evens; rewrite length_drop; lia).
  set (f1 := fun (segment : A) (index : nat) (arr : list (option A)) =>
               Js.array_set (index * 2) segment arr).
  set (f2 := fun (segment : A) (index : nat) (arr : list (option A)) =>
               if index * 2 + 1 <? N then Js.array_set (index * 2 + 1) segment arr else arr).
  pose proof (Nat.div_mod_eq N 2) as HN. pose proof (Nat.mod_upper_bound N 2) as HNm.
  assert (Hf1 : forall x i (a : list (option A)), 0 <= i < 0 + length odds -> length a = N ->
                  f1 x i a = <[i * 2 := Some x]> a).
  { intros x i a Hi Ha. unfold f1. apply array_set_in_range. lia. }
  assert (Hf2 : forall x i (a : list (option A)), 0 <= i < 0 + length evens -> length a = N ->
                  f2 x i a = <[i * 2 + 1 := Some x]> a).
  { intros x i a Hi Ha. unfold f2.
    destruct (Nat.ltb_spec (i * 2 + 1) N); [|lia].
    apply array_set_in_range. lia. }
  assert (Hl0 : length (Js.new_Array (A := A) N) = N) by apply length_replicate.
  assert (Hl1 : length (Js.forEach f1 odds (Js.new_Array N)) = N).
  { by apply (forEach_from_length f1 (fun i => i * 2) N). }
  assert (Hl2 : length (Js.forEach f2 evens (Js.forEach f1 odds (Js.new_Array N))) = N).
  { by apply (forEach_from_length f2 (fun i => i * 2 + 1) N). }
  set (arr := Js.forEach f2 evens (Js.forEach f1 odds (Js.new_Array N))) in *.
  set (g := fun j => default x0 (if Js.is_even_index j then l !! (j / 2)
                                 else l !! (c + j / 2))).
  assert (Hslot : forall j, j < N ->
            is_Some (if Js.is_even_index j then l !! (j / 2) else l !! (c + j / 2))).
  { intros j Hj. pose proof (Nat.div_mod_eq j 2).
    destruct (Js.is_even_index j) eqn:Ej; apply lookup_lt_is_Some_2; fold N.
    - lia.
    - unfold Js.is_even_index in Ej. apply Nat.eqb_neq in Ej.
      pose proof (Nat.mod_upper_bound j 2). lia. }
  assert (Harr : forall j, j < length arr -> arr !! j = Some (Some (g j))).
  { intros j Hj. rewrite Hl2 in Hj. unfold g.
    destruct (Hslot j Hj) as [x Hx]. rewrite Hx. simpl.
    pose proof (Nat.div_mod_eq j 2) as Hjd. pose proof (Nat.mod_upper_bound j 2) as Hjm.
    unfold Js.is_even_index in Hx. unfold arr, Js.forEach.
    destruct (Nat.eqb_spec (j mod 2) 0) as [Hev|Hodd].
    - rewrite (forEach_from_miss f2 (fun i => i * 2 + 1) N); [|done|done|intros; lia].
      assert (Hpos : (0 + j / 2) * 2 = j) by lia.
      rewrite <- Hpos at 1.
      apply (forEach_from_hit f1 (fun i => i * 2) N); try done; try (intros; lia).
      unfold odds. rewrite lookup_take_lt by lia. done.
    - assert (Hpos : (0 + j / 2) * 2 + 1 = j) by lia.
      rewrite <- Hpos at 1.
      apply (forEach_from_hit f2 (fun i => i * 2 + 1) N); try done; try (intros; lia).
      unfold evens. by rewrite lookup_drop. }
  rewrite (filter_Boolean_full arr g Harr), Hl2. split.
  - by rewrite length_fmap, length_seq.
  - intros j Hj. rewrite list_lookup_fmap, lookup_seq_lt by done. simpl.
    unfold g. destruct (Hslot j Hj) as [x Hx]. by rewrite Hx.
Qed.

Lemma encodeOddEven_length l :
  length (Permutation.encodeOddEven l) = length l.
Proof.
  unfold Permutation.encodeOddEven. rewrite length_app.
  destruct (filter_parity_length l) as [-> ->]. apply ceil_div_half.
Qed.

Lemma encodeOddEven_lookup l i :
  Permutation.encodeOddEven l !! i =
    if decide (i < Js.ceil_div (length l) 2) then l !! (i * 2)
    else l !! ((i - Js.ceil_div (length l) 2) * 2 + 1).
Proof.
  unfold Permutation.encodeOddEven.
  destruct (filter_parity_length l) as [HE HO].
  destruct (filter_parity_lookup l i) as [He _].
  destruct (filter_parity_lookup l (i - Js.ceil_div (length l) 2)) as [_ Ho].
  destruct (decide (i < Js.ceil_div (length l) 2)) as [Hi|Hi].
  - by rewrite lookup_app_l by lia.
  - rewrite lookup_app_r by lia. by rewrite HE.
Qed.

(** Decoding undoes encoding. *)
Lemma oddEven_decode_encode l :
  Permutation.decodeOddEven (Permutation.encodeOddEven l) = l.
Proof.
  destruct (decodeOddEven_lookup (Permutation.encodeOddEven l)) as [Hlen Hlook].
  rewrite encodeOddEven_length in *.
  apply list_eq. intros j. destruct (decide (j < length l)) as [Hj|Hj].
  - rewrite Hlook by done. rewrite !encodeOddEven_lookup.
    pose proof (ceil_div_half (length l)).
    pose proof (Nat.div_mod_eq (length l) 2).
    pose proof (Nat.mod_upper_bound (length l) 2).
    pose proof (Nat.div_mod_eq j 2) as Hjd. pose proof (Nat.mod_upper_bound j 2) as Hjm.
    unfold Js.is_even_index. destruct (Nat.eqb_spec (j mod 2) 0).
    + rewrite decide_True by lia. f_equal. lia.
    + rewrite decide_False by lia. f_equal. lia.
  - rewrite !lookup_ge_None_2; [done | lia | lia].
Qed.

Lemma oddEven_encode_after_decode l :
  Permutation.encodeOddEven (Permutation.decodeOddEven l) = l.
Proof.
  destruct (decodeOddEven_lookup l) as [Hlen Hlook].
  apply list_eq. intros i. rewrite encodeOddEven_lookup, Hlen.
  pose proof (ceil_div_half (length l)) as Hc.
  set (c := Js.ceil_div (length l) 2) in *.
  pose proof (Nat.div_mod_eq (length l) 2). pose proof (Nat.mod_upper_bound (length l) 2).
  destruct (decide (i < length l)) as [Hi|Hi].
  - destruct (decide (i < c)) as [Hic|Hic].
    + rewrite Hlook by lia. unfold Js.is_even_index.
      by rewrite Nat.Div0.mod_mul, Nat.div_mul by lia.
    + rewrite Hlook by lia. unfold Js.is_even_index.
      replace ((i - c) * 2 + 1) with (1 + (i - c) * 2) by lia.
      rewrite Nat.Div0.mod_add, Nat.div_add by lia.
      change (1 `mod` 2) with 1. change (1 `div` 2) with 0. cbn [Nat.eqb].
      f_equal. lia.
  - rewrite (lookup_ge_None_2 l) by lia.
    destruct (decide (i < c)); apply lookup_ge_None_2; lia.
Qed.

Lemma encodeOddEven_Permutation l : Permutation.encodeOddEven l ≡ₚ l.
Proof.
  unfold Permutation.encodeOddEven. induction l as [|x l IH]; [done|].
  rewrite filter_even_cons, filter_odd_cons. simpl. constructor.
  by rewrite Permutation_app_comm.
Qed.
End BijectionFacts.

(** ** Split for every number of parts *)
Section SplitPermutationAll.
Context {A : Type}.
Implicit Types (l : list A).

Lemma ceil_div_covers n k : 0 < k -> n <= k * Js.ceil_div n k.
Proof.
  intros Hk. unfold Js.ceil_div.
  pose proof (Nat.div_mod_eq (n + (k - 1)) k).
  pose proof (Nat.mod_upper_bound (n + (k - 1)) k). lia.
Qed.

Lemma max_list_ge (ns : list nat) n : n ∈ ns -> n <= Js.max_list ns.
Proof.
  induction 1 as [n ns|n n' ns _ IH]; simpl; lia.
Qed.

(** The first [j] parts are the first [j * s] segments. *)
Lemma parts_concat (s j : nat) l :
  concat ((fun i => Js.slice (i * s) (Nat.min ((i + 1) * s) (length l)) l) <$> seq 0 j) =
  take (j * s) l.
Proof.
  induction j as [|j IH]; [done|].
  rewrite seq_S, fmap_app, concat_app, IH. cbn [fmap list_fmap concat Nat.add].
  rewrite app_nil_r. unfold Js.slice.
  replace (S j * s) with (j * s + s) by lia. rewrite <- take_take_drop. f_equal.
  destruct (decide ((j + 1) * s <= length l)) as [Hle|Hgt].
  - f_equal. lia.
  - rewrite !take_ge; [done | rewrite length_drop; lia | rewrite length_drop; lia].
Qed.

Lemma split_parts_concat k l :
  0 < k -> concat (Permutation.split_parts k l) = l.
Proof.
  intros Hk. unfold Permutation.split_parts. rewrite parts_concat.
  apply take_ge. pose proof (ceil_div_covers (length l) k Hk). lia.
Qed.

(** Reading a list of rows column by column loses and repeats nothing. *)
Lemma column_Permutation (rows : list (list A)) m :
  concat (take (S m) <$> rows) ≡ₚ
  concat (take m <$> rows) ++ omap (fun row : list A => row !! m) rows.
Proof.
  induction rows as [|row rows IH]; [done|].
  rewrite !fmap_cons. cbn [concat]. rewrite IH.
  change (omap ?f (row :: rows)) with
    (match f row with Some x => x :: omap f rows | None => omap f rows end).
  cbv beta. destruct (row !! m) as [x|] eqn:Ex.
  - rewrite (take_S_r _ _ _ Ex). rewrite <- !app_assoc. f_equiv.
    rewrite (Permutation_app_comm [x]). rewrite <- !app_assoc. f_equiv.
    by rewrite <- Permutation_cons_append.
  - apply lookup_ge_None in Ex. rewrite !take_ge by lia.
    by rewrite <- !app_assoc.
Qed.

Lemma columns_Permutation (rows : list (list A)) m :
  concat ((fun i => omap (fun row : list A => row !! i) rows) <$> seq 0 m) ≡ₚ
  concat (take m <$> rows).
Proof.
  induction m as [|m IH].
  - simpl. induction rows as [|row rows IHr]; [done|].
    rewrite fmap_cons. cbn [concat]. rewrite take_0. exact IHr.
  - rewrite seq_S, fmap_app, concat_app, IH. cbn [fmap list_fmap concat Nat.add].
    rewrite app_nil_r. by rewrite column_Permutation.
Qed.

Lemma interleave_Permutation (rows : list (list A)) :
  concat ((fun i => omap (fun row : list A => row !! i) rows)
            <$> seq 0 (Js.max_list (length <$> rows))) ≡ₚ concat rows.
Proof.
  rewrite columns_Permutation.
  replace (take (Js.max_list (length <$> rows)) <$> rows) with rows; [done|].
  rewrite <- (list_fmap_id rows) at 1. apply list_fmap_ext.
  intros i row Hrow. symmetry. apply take_ge, max_list_ge.
  apply list_elem_of_fmap_2. by eapply list_elem_of_lookup_2.
Qed.

Lemma encodeSplit_Permutation k l :
  0 < k -> Permutation.encodeSplit k l ≡ₚ l.
Proof.
  intros Hk. unfold Permutation.encodeSplit.
  rewrite interleave_Permutation. by rewrite split_parts_concat.
Qed.
End SplitPermutationAll.

Section SplitSmall.
Context {A : Type}.
Implicit Types (l : list A).

Lemma max_list_le (ns : list nat) b : Forall (fun n => n <= b) ns -> Js.max_list ns <= b.
Proof. induction 1; simpl; lia. Qed.

Lemma first_column_short (rows : list (list A)) :
  Forall (fun row => length row <= 1) rows ->
  omap (fun row : list A => row !! 0) rows = concat rows.
Proof.
  induction 1 as [|row rows Hrow _ IH]; [done|].
  change (omap ?f (row :: rows)) with
    (match f row with Some x => x :: omap f rows | None => omap f rows end).
  cbv beta. rewrite IH. destruct row as [|x [|y row]]; [done | done | simpl in Hrow; lia].
Qed.

Lemma later_column_short (rows : list (list A)) i :
  Forall (fun row => length row <= 1) rows -> 1 <= i ->
  omap (fun row : list A => row !! i) rows = [].
Proof.
  intros Hrows Hi. induction Hrows as [|row rows Hrow _ IH]; [done|].
  change (omap ?f (row :: rows)) with
    (match f row with Some x => x :: omap f rows | None => omap f rows end).
  cbv beta. rewrite IH. by rewrite lookup_ge_None_2 by lia.
Qed.

(** Rows of at most one element each are interleaved into their
    concatenation. *)
Lemma interleave_short (rows : list (list A)) :
  Forall (fun row => length row <= 1) rows ->
  concat ((fun i => omap (fun row : list A => row !! i) rows)
            <$> seq 0 (Js.max_list (length <$> rows))) = concat rows.
Proof.
  intros Hrows.
  assert (Hmax : Js.max_list (length <$> rows) <= 1).
  { apply max_list_le. by apply Forall_fmap. }
  destruct (Js.max_list (length <$> rows)) as [|[|m]] eqn:Em; [| |lia].
  - simpl. rewrite <- first_column_short by done. symmetry.
    induction rows as [|row rows IH]; [done|].
    change (omap ?f (row :: rows)) with
      (match f row with Some x => x :: omap f rows | None => omap f rows end).
    cbv beta. simpl in Em. apply Forall_cons in Hrows as [_ Hrows].
    change (list_fmap _ _ length rows) with (length <$> rows) in Em.
    rewrite lookup_ge_None_2 by lia. apply IH; [done | lia].
  - simpl. rewrite app_nil_r. by apply first_column_short.
Qed.

Lemma ceil_div_few n k : 0 < n <= k -> Js.ceil_div n k = 1.
Proof.
  intros Hn. unfold Js.ceil_div.
  pose proof (Nat.div_mod_eq (n + (k - 1)) k).
  pose proof (Nat.mod_upper_bound (n + (k - 1)) k). nia.
Qed.

Lemma encodeSplit_few k l :
  0 < k -> length l <= k -> Permutation.encodeSplit k l = l.
Proof.
  intros Hk Hlen. unfold Permutation.encodeSplit.
  rewrite interleave_short; [by apply split_parts_concat|].
  unfold Permutation.split_parts. apply Forall_fmap, Forall_forall. intros i _. simpl.
  unfold Js.slice. rewrite length_take, length_drop.
  destruct (decide (length l = 0)) as [->|Hn]; [lia|].
  rewrite ceil_div_few by lia. lia.
Qed.

Lemma decodeSplit_few k l :
  0 < k -> length l <= k -> Permutation.decodeSplit k l = l.
Proof.
  intros Hk Hlen. destruct (decide (length l = 0)) as [Hn|Hn].
  { destruct l; [done | simpl in Hn; lia]. }
  unfold Permutation.decodeSplit. rewrite ceil_div_few by lia.
  set (n := length l) in *.
  set (f := fun (segment : A) (index : nat) (arr : list (option A)) => _).
  assert (Hf : forall x i (a : list (option A)), 0 <= i < 0 + length l -> length a = n ->
                 f x i a = <[i := Some x]> a).
  { intros x i a Hi Ha. unfold f. fold n in Hi.
    rewrite Nat.mod_small, Nat.div_small by lia.
    replace (i * 1 + 0) with i by lia.
    destruct (Nat.ltb_spec i n); [|lia]. apply array_set_in_range. lia. }
  replace (Js.forEach f l (Js.new_Array n)) with (Some <$> l);
    [apply filter_Boolean_Some|].
  assert (Hl0 : length (Js.new_Array (A := A) n) = n) by apply length_replicate.
  apply list_eq. intros t. destruct (decide (t < n)) as [Ht|Ht].
  - destruct (lookup_lt_is_Some_2 l t) as [x Hx]; [done|].
    rewrite list_lookup_fmap, Hx. simpl. symmetry. unfold Js.forEach.
    change t with ((fun i : nat => i) (0 + t)) at 1.
    apply (forEach_from_hit f (fun i => i) n); try done; intros; lia.
  - rewrite (lookup_ge_None_2 (Some <$> l)) by (rewrite length_fmap; fold n; lia).
    symmetry. apply lookup_ge_None_2. unfold Js.forEach.
    rewrite (forEach_from_length f (fun i => i) n); [lia | done | done].
Qed.

(** Storing an element in a slot adds it to what [filter(Boolean)]
    keeps, and removes what the slot held. *)
Lemma filter_Boolean_insert (arr : list (option A)) p x :
  Js.filter_Boolean (<[p := Some x]> arr) ⊆+ x :: Js.filter_Boolean arr.
Proof.
  unfold Js.filter_Boolean. revert p. induction arr as [|o arr IH]; intros p.
  - simpl. by apply submseteq_cons.
  - destruct p as [|p]; simpl.
    + destruct o as [y|]; simpl; [|done].
      apply submseteq_skip. by apply submseteq_cons.
    + destruct o as [y|]; simpl.
      * etrans; [apply submseteq_skip, IH|]. by rewrite Permutation_swap.
      * apply IH.
Qed.

Lemma filter_Boolean_new_Array n : Js.filter_Boolean (Js.new_Array (A := A) n) = [].
Proof. unfold Js.filter_Boolean, Js.new_Array. induction n; [done | simpl; done]. Qed.

Lemma filter_Boolean_array_set (arr : list (option A)) p x :
  Js.filter_Boolean (Js.array_set p x arr) ⊆+ x :: Js.filter_Boolean arr.
Proof.
  unfold Js.array_set. destruct (decide (p < length arr)); [apply filter_Boolean_insert|].
  unfold Js.filter_Boolean. rewrite !omap_app.
  fold (Js.new_Array (A := A) (p - length arr)).
  fold (Js.filter_Boolean (Js.new_Array (A := A) (p - length arr))).
  rewrite filter_Boolean_new_Array. simpl.
  by rewrite <- Permutation_cons_append.
Qed.

(** A [forEach] whose callback stores the element somewhere or does
    nothing leaves an array that holds no element twice and none that
    was not given. *)
Lemma forEach_from_keeps (f : A -> nat -> list (option A) -> list (option A))
      (i0 : nat) l (arr : list (option A)) :
  (forall x i a, f x i a = a \/ exists p, f x i a = Js.array_set p x a) ->
  Js.filter_Boolean (Js.forEach_from f i0 l arr) ⊆+ Js.filter_Boolean arr ++ l.
Proof.
  intros Hf. revert i0 arr. induction l as [|x l IH]; intros i0 arr; simpl.
  - by rewrite app_nil_r.
  - etrans; [apply IH|].
    rewrite <- Permutation_middle.
    change (x :: Js.filter_Boolean arr ++ l) with ((x :: Js.filter_Boolean arr) ++ l).
    apply submseteq_app; [|done].
    destruct (Hf x i0 arr) as [->|[p ->]].
    + by apply submseteq_cons.
    + apply filter_Boolean_array_set.
Qed.

Lemma decodeSplit_submseteq k l : Permutation.decodeSplit k l ⊆+ l.
Proof.
  unfold Permutation.decodeSplit, Js.forEach.
  etrans; [apply forEach_from_keeps|].
  - intros x i a. cbv beta zeta.
    destruct (_ <? _); [right; eauto | by left].
  - by rewrite filter_Boolean_new_Array.
Qed.
End SplitSmall.

(** ** The permutations do not look at the segments

    Each of the four reorderings moves elements by their index alone:
    it commutes with any function applied to every element. *)
Section NaturalityFacts.
Context {A B : Type} (h : A -> B).
Implicit Types (l : list A).

Lemma fmap_concat (ls : list (list A)) : h <$> concat ls = concat (fmap (M := list) h <$> ls).
Proof.
  induction ls as [|x ls IH]; [done|].
  rewrite fmap_cons. cbn [concat]. by rewrite fmap_app, IH.
Qed.

Lemma filter_index_from_fmap (p : nat -> bool) i l :
  Js.filter_index_from p i (h <$> l) = h <$> Js.filter_index_from p i l.
Proof.
  revert i. induction l as [|x l IH]; intros i; [done|].
  rewrite fmap_cons. simpl. rewrite IH. by destruct (p i).
Qed.

Lemma encodeOddEven_fmap l :
  Permutation.encodeOddEven (h <$> l) = h <$> Permutation.encodeOddEven l.
Proof.
  unfold Permutation.encodeOddEven, Js.filter_index.
  by rewrite !filter_index_from_fmap, fmap_app.
Qed.

Lemma split_parts_fmap k l :
  Permutation.split_parts k (h <$> l) = fmap (M := list) h <$> Permutation.split_parts k l.
Proof.
  unfold Permutation.split_parts. rewrite length_fmap, <- list_fmap_compose.
  apply list_fmap_ext. intros _ i _. simpl. unfold Js.slice.
  by rewrite fmap_take, fmap_drop.
Qed.

Lemma column_fmap (rows : list (list A)) i :
  omap (fun row : list B => row !! i) (fmap (M := list) h <$> rows) =
  h <$> omap (fun row : list A => row !! i) rows.
Proof.
  induction rows as [|row rows IH]; [done|].
  rewrite fmap_cons.
  change (omap ?f (?r :: ?rs)) with
    (match f r with Some x => x :: omap f rs | None => omap f rs end).
  cbv beta. rewrite list_lookup_fmap, IH. by destruct (row !! i).
Qed.

Lemma encodeSplit_fmap k l :
  Permutation.encodeSplit k (h <$> l) = h <$> Permutation.encodeSplit k l.
Proof.
  unfold Permutation.encodeSplit. rewrite split_parts_fmap.
  rewrite <- (list_fmap_compose (fmap (M := list) h) length).
  rewrite (list_fmap_ext (length ∘ fmap (M := list) h) length (Permutation.split_parts k l))
    by (intros; simpl; apply length_fmap).
  rewrite fmap_concat, <- list_fmap_compose. f_equal.
  apply list_fmap_ext. intros _ i _. simpl. apply column_fmap.
Qed.

Lemma array_set_fmap i v (arr : list (option A)) :
  Js.array_set i (h v) (fmap (M := option) h <$> arr) = fmap (M := option) h <$> Js.array_set i v arr.
Proof.
  unfold Js.array_set. rewrite length_fmap.
  destruct (decide (i < length arr)).
  - by rewrite list_fmap_insert.
  - by rewrite !fmap_app, fmap_replicate.
Qed.

Lemma filter_Boolean_fmap (arr : list (option A)) :
  Js.filter_Boolean (fmap (M := option) h <$> arr) = h <$> Js.filter_Boolean arr.
Proof.
  unfold Js.filter_Boolean. induction arr as [|o arr IH]; [done|].
  rewrite fmap_cons. destruct o as [x|]; simpl.
  - change (h x :: omap id (fmap (M := option) h <$> arr) = h x :: (h <$> omap id arr)). by f_equal.
  - exact IH.
Qed.

Lemma forEach_from_fmap (f : A -> nat -> list (option A) -> list (option A))
      (g : B -> nat -> list (option B) -> list (option B)) i0 l arr :
  (forall x i a, g (h x) i (fmap (M := option) h <$> a) = fmap (M := option) h <$> f x i a) ->
  Js.forEach_from g i0 (h <$> l) (fmap (M := option) h <$> arr) = fmap (M := option) h <$> Js.forEach_from f i0 l arr.
Proof.
  intros Hfg. revert i0 arr. induction l as [|x l IH]; intros i0 arr; [done|].
  rewrite fmap_cons. simpl. by rewrite Hfg, IH.
Qed.

Lemma new_Array_fmap n : Js.new_Array (A := B) n = fmap (M := option) h <$> Js.new_Array n.
Proof. unfold Js.new_Array. by rewrite fmap_replicate. Qed.

Lemma decodeSplit_fmap k l :
  Permutation.decodeSplit k (h <$> l) = h <$> Permutation.decodeSplit k l.
Proof.
  unfold Permutation.decodeSplit, Js.forEach. rewrite length_fmap.
  rewrite (new_Array_fmap (length l)), <- filter_Boolean_fmap. f_equal.
  apply forEach_from_fmap. intros x i a. cbv beta zeta.
  destruct (_ <? _); [apply array_set_fmap | done].
Qed.

Lemma decodeOddEven_fmap l :
  Permutation.decodeOddEven (h <$> l) = h <$> Permutation.decodeOddEven l.
Proof.
  unfold Permutation.decodeOddEven, Js.forEach, Js.slice, Js.slice_from.
  rewrite length_fmap.
  rewrite (new_Array_fmap (length l)), <- filter_Boolean_fmap. f_equal.
  rewrite <- !fmap_drop, <- fmap_take.
  rewrite (forEach_from_fmap
             (fun segment index arr => Js.array_set (index * 2) segment arr)).
  - apply forEach_from_fmap. intros x i a. cbv beta.
    destruct (_ <? _); [apply array_set_fmap | done].
  - intros x i a. apply array_set_fmap.
Qed.
End NaturalityFacts.

(** ** Cutting a list into runs of one length *)
Section ChunkFacts.
Context {A : Type}.

Lemma chunks_concat (n j : nat) (l : list A) :
  concat ((fun i => take n (drop (i * n) l)) <$> seq 0 j) = take (j * n) l.
Proof.
  induction j as [|j IH]; [done|].
  rewrite seq_S, fmap_app, concat_app, IH. cbn [fmap list_fmap concat Nat.add].
  rewrite app_nil_r. replace (S j * n) with (j * n + n) by lia.
  by rewrite take_take_drop.
Qed.

Lemma chunk_of_concat (n i : nat) (rows : list (list A)) row :
  Forall (fun row => length row = n) rows -> rows !! i = Some row ->
  take n (drop (i * n) (concat rows)) = row.
Proof.
  intros Hrows. revert i. induction Hrows as [|r rows Hr _ IH]; intros i Hi; [done|].
  cbn [concat]. destruct i as [|i]; simpl in Hi.
  - injection Hi as ->. rewrite drop_0. by rewrite take_app_length'.
  - replace (S i * n) with (length r + i * n) by lia.
    rewrite drop_app_add. by apply IH.
Qed.
End ChunkFacts.

Lemma buffer_eta (b : Audio.AudioBuffer) :
  {| Audio.sampleRate := Audio.sampleRate b; Audio.channelData := Audio.channelData b |} = b.
Proof. by destruct b. Qed.

(** What the assembler makes of a segment sequence depends on the
    samples of the segments alone. *)
Lemma channel_of_data c (segments : list Audio.Processor.AudioSegment) :
  Assembly.channel_of c segments =
    concat ((fun d : list (list Q) => default [] (d !! c))
              <$> (Audio.Processor.data <$> segments)).
Proof. unfold Assembly.channel_of. by rewrite <- list_fmap_compose. Qed.

(** ** Intervals of a whole number of samples *)
Section WholeIntervals.
Import Audio Audio.Processor Assembly Pipeline.
Local Open Scope Q_scope.
Variables (b : AudioBuffer) (I : Q) (m : Z).
Hypotheses (Hr : 0 < sampleRate b) (Hn : (0 < numberOfChannels b)%nat) (HI : 0 < I).
Hypothesis Hm : I * sampleRate b == inject_Z m.
Hypothesis Hcap :
  inject_Z m <= MAX_SEGMENT_SIZE / inject_Z (Z.of_nat (numberOfChannels b)).
Hypothesis Hrect : rectangular b.

Lemma whole_interval_pos : (0 < m)%Z.
Proof. rewrite Zlt_Qlt, <- Hm. by apply Qmult_lt_0_compat. Qed.

Lemma whole_interval_duration :
  duration b * sampleRate b == inject_Z (Z.of_nat (frames b)).
Proof. unfold duration. by apply Qdiv_cancel. Qed.

Lemma whole_interval_segments :
  createAudioSegments b I =
    Returns (makeSegment b I (inject_Z m)
               <$> seq 0 (Z.to_nat (Qceiling (duration b / I)))).
Proof.
  unfold createAudioSegments. rewrite (Qeq_bool_pos I HI).
  assert (Hfloor : Qfloor (I * sampleRate b) = m) by (by rewrite Hm, Qfloor_Z).
  by rewrite Hfloor, (Qmin_left _ _ Hcap).
Qed.

Lemma whole_interval_count :
  (Z.of_nat (frames b) <= Z.of_nat (Z.to_nat (Qceiling (duration b / I))) * m)%Z.
Proof.
  set (N := Z.to_nat (Qceiling (duration b / I))).
  rewrite Zle_Qle, inject_Z_mult, <- Hm, <- whole_interval_duration.
  assert (Hc : duration b / I <= inject_Z (Z.of_nat N)).
  { eapply Qle_trans; [apply Qle_ceiling|]. rewrite <- Zle_Qle. unfold N. lia. }
  apply (Qmult_le_compat_r _ _ I) in Hc; [|by apply Qlt_le_weak].
  rewrite Qdiv_cancel in Hc by done. nra.
Qed.

(** Segment [i] holds, channel by channel, the run of [m] samples that
    begins at sample [i * m]. *)
Lemma whole_interval_data (i : nat) :
  data (makeSegment b I (inject_Z m) i) =
    (fun channel => take (Z.to_nat m) (drop (i * Z.to_nat m) channel)) <$> channelData b.
Proof.
  pose proof whole_interval_pos as Hmpos.
  unfold makeSegment. cbn [data].
  rewrite (whole_interval_samples (duration b) I (sampleRate b) m (Z.of_nat (frames b)) i
             Hr HI Hm whole_interval_duration).
  assert (Hoff : Qfloor (inject_Z (Z.of_nat i) * I * sampleRate b) = (Z.of_nat i * m)%Z).
  { rewrite <- (Qfloor_Z (Z.of_nat i * m)). apply Qfloor_comp.
    rewrite inject_Z_mult, <- Hm. ring. }
  rewrite Hoff.
  apply list_fmap_ext. intros c channel Hc.
  assert (Hlen : length channel = frames b).
  { unfold rectangular in Hrect. rewrite Forall_forall in Hrect.
    apply Hrect. by eapply list_elem_of_lookup_2. }
  unfold copyFromChannel.
  set (mn := Z.to_nat m). assert (Hmn : Z.of_nat mn = m) by (unfold mn; lia).
  replace (Z.to_nat (Z.of_nat i * m)) with (i * mn)%nat by lia.
  rewrite <- Hmn.
  destruct (decide (i * mn + mn <= frames b)%nat) as [Hle|Hgt].
  - replace (Z.to_nat (Z.min (Z.of_nat mn) (Z.of_nat (frames b) - Z.of_nat i * Z.of_nat mn)))
      with mn by lia.
    rewrite length_take, length_drop.
    replace (mn - mn `min` (length channel - i * mn))%nat with 0%nat by lia.
    apply app_nil_r.
  - replace (Z.to_nat (Z.min (Z.of_nat mn) (Z.of_nat (frames b) - Z.of_nat i * Z.of_nat mn)))
      with (frames b - i * mn)%nat by lia.
    rewrite !take_ge by (rewrite length_drop; lia).
    rewrite length_drop.
    replace (frames b - i * mn - (length channel - i * mn))%nat with 0%nat by lia.
    apply app_nil_r.
Qed.

(** Laid end to end in their original order, the segments make up each
    channel of the buffer again. *)
Lemma whole_interval_channel c channel :
  channelData b !! c = Some channel ->
  channel_of c (makeSegment b I (inject_Z m)
                  <$> seq 0 (Z.to_nat (Qceiling (duration b / I)))) = channel.
Proof.
  intros Hc. unfold channel_of. rewrite <- list_fmap_compose.
  rewrite (list_fmap_ext _ (fun i => take (Z.to_nat m) (drop (i * Z.to_nat m) channel))
             (seq 0 (Z.to_nat (Qceiling (duration b / I))))).
  - rewrite chunks_concat. apply take_ge.
    assert (Hlen : length channel = frames b).
    { unfold rectangular in Hrect. rewrite Forall_forall in Hrect.
      apply Hrect. by eapply list_elem_of_lookup_2. }
    pose proof whole_interval_count. pose proof whole_interval_pos. nia.
  - intros _ i _. unfold compose. cbv beta.
    by rewrite whole_interval_data, list_lookup_fmap, Hc.
Qed.

Lemma whole_interval_channels (segments : list AudioSegment) :
  data <$> segments =
    data <$> (makeSegment b I (inject_Z m)
                <$> seq 0 (Z.to_nat (Qceiling (duration b / I)))) ->
  (fun c => channel_of c segments) <$> seq 0 (numberOfChannels b) = channelData b.
Proof.
  intros Hdata. apply list_eq. intros c. rewrite list_lookup_fmap.
  destruct (channelData b !! c) as [channel|] eqn:Hc.
  - rewrite lookup_seq_lt by (by eapply lookup_lt_Some). simpl. f_equal.
    rewrite <- (whole_interval_channel c channel Hc).
    by rewrite !channel_of_data, Hdata.
  - apply lookup_ge_None in Hc. by rewrite lookup_seq_ge.
Qed.

(** Segmenting and assembling, with no reordering in between, gives the
    buffer back. *)
Lemma whole_interval_identity :
  processInBatches (makeSegment b I (inject_Z m)
                      <$> seq 0 (Z.to_nat (Qceiling (duration b / I))))
                   (numberOfChannels b) (sampleRate b) = Some b.
Proof.
  rewrite processInBatches_concat; [|done|].
  - rewrite whole_interval_channels by done. by rewrite buffer_eta.
  - apply Forall_fmap, Forall_forall. intros i _. apply makeSegment_uniform.
Qed.

(** When the buffer is [n] whole intervals long there are [n] segments
    of [m] samples each. *)
Lemma whole_interval_exact_count (n : nat) :
  Z.of_nat (frames b) = (Z.of_nat n * m)%Z ->
  Z.to_nat (Qceiling (duration b / I)) = n.
Proof.
  intros Hdiv.
  assert (Hq : duration b / I == inject_Z (Z.of_nat n)).
  { apply (Qmult_inj_r _ _ I); [intros H0; rewrite H0 in HI; by apply Qlt_irrefl in HI|].
    rewrite Qdiv_cancel by done.
    apply (Qmult_inj_r _ _ (sampleRate b));
      [intros H0; rewrite H0 in Hr; by apply Qlt_irrefl in Hr|].
    rewrite whole_interval_duration, Hdiv, inject_Z_mult, <- Hm. ring. }
  rewrite Hq, Qceiling_Z. lia.
Qed.

Lemma whole_interval_exact_samples (n i : nat) :
  Z.of_nat (frames b) = (Z.of_nat n * m)%Z -> (i < n)%nat ->
  segment_samples (makeSegment b I (inject_Z m) i) = Z.to_nat m.
Proof.
  intros Hdiv Hi. rewrite makeSegment_samples by done.
  rewrite (whole_interval_samples (duration b) I (sampleRate b) m (Z.of_nat (frames b)) i
             Hr HI Hm whole_interval_duration).
  pose proof whole_interval_pos. f_equal. nia.
Qed.
End WholeIntervals.

Lemma full_segments_sum k (segments : list Audio.Processor.AudioSegment) :
  Forall (fun s => Assembly.segment_samples s = k) segments ->
  sum_list (Assembly.segment_samples <$> segments) = length segments * k.
Proof.
  induction 1 as [|s l Hs _ IH]; [done|].
  rewrite fmap_cons. cbn [sum_list sum_list_with length]. unfold id.
  change (sum_list_with (fun x => x) ?l) with (sum_list l). rewrite IH, Hs. lia.
Qed.

(** ** Segmenting an assembled buffer *)
Section ResegmentFacts.
Import Audio Audio.Processor Assembly Pipeline.
Local Open Scope Q_scope.
Variables (nch : nat) (rate I : Q) (m : Z) (segments : list AudioSegment).
Hypotheses (Hr : 0 < rate) (Hn : (0 < nch)%nat) (HI : 0 < I).
Hypothesis Hm : I * rate == inject_Z m.
Hypothesis Hcap : inject_Z m <= MAX_SEGMENT_SIZE / inject_Z (Z.of_nat nch).
Hypothesis Huniform : Forall (uniform nch) segments.
Hypothesis Hfull : Forall (fun s => segment_samples s = Z.to_nat m) segments.

Lemma assembled_numberOfChannels : numberOfChannels (assembled nch rate segments) = nch.
Proof. unfold numberOfChannels, assembled. cbn. by rewrite length_fmap, length_seq. Qed.

Lemma assembled_frames :
  frames (assembled nch rate segments) = (length segments * Z.to_nat m)%nat.
Proof.
  unfold frames, assembled. cbn [channelData].
  destruct nch as [|nch'] eqn:En; [lia|]. cbn [seq fmap list_fmap].
  rewrite (channel_of_length (S nch')) by (done || lia). by apply full_segments_sum.
Qed.

Lemma assembled_rectangular : rectangular (assembled nch rate segments).
Proof.
  unfold rectangular. rewrite assembled_frames. unfold assembled. cbn [channelData].
  apply Forall_fmap, Forall_forall. intros c Hc. apply elem_of_seq in Hc. simpl.
  rewrite (channel_of_length nch) by (done || lia). by apply full_segments_sum.
Qed.

(** Cutting the assembled buffer at the same interval finds the samples
    of the segments again, segment by segment. *)
Lemma resegment :
  exists segments',
    createAudioSegments (assembled nch rate segments) I = Returns segments' /\
    data <$> segments' = data <$> segments /\
    Forall (uniform nch) segments'.
Proof.
  set (e := assembled nch rate segments).
  assert (Hne : numberOfChannels e = nch) by apply assembled_numberOfChannels.
  assert (Hre : 0 < sampleRate e) by done.
  assert (Hme : I * sampleRate e == inject_Z m) by done.
  assert (Hce : inject_Z m <= MAX_SEGMENT_SIZE / inject_Z (Z.of_nat (numberOfChannels e)))
    by (by rewrite Hne).
  assert (Hnn : (0 < numberOfChannels e)%nat) by (by rewrite Hne).
  assert (Hmpos : (0 < m)%Z) by (by apply (whole_interval_pos e I m)).
  assert (Hrecte : rectangular e) by apply assembled_rectangular.
  rewrite (whole_interval_segments e I m HI Hme Hce).
  rewrite (whole_interval_exact_count e I m Hre Hnn HI Hme (length segments))
    by (unfold e; rewrite assembled_frames; lia).
  eexists. split; [reflexivity|]. split.
  - apply list_eq. intros i. rewrite <- list_fmap_compose, !list_lookup_fmap.
    destruct (segments !! i) as [s|] eqn:Hs.
    + rewrite lookup_seq_lt by (by eapply lookup_lt_Some).
      cbn [fmap option_fmap option_map compose Nat.add]. f_equal.
      rewrite (whole_interval_data e I m Hre Hnn HI Hme Hrecte).
      unfold e, assembled. cbn [channelData]. rewrite <- list_fmap_compose.
      assert (Hus : uniform nch s).
      { rewrite Forall_forall in Huniform. apply Huniform.
        by eapply list_elem_of_lookup_2. }
      destruct Hus as [Hch _].
      apply list_eq. intros c. rewrite list_lookup_fmap.
      destruct (decide (c < nch)%nat) as [Hc|Hc].
      * rewrite lookup_seq_lt by done. simpl.
        destruct (lookup_lt_is_Some_2 (data s) c) as [d Hd]; [lia|]. rewrite Hd. f_equal.
        unfold channel_of. apply chunk_of_concat.
        -- apply Forall_fmap, Forall_forall. intros s' Hs'. simpl.
           rewrite Forall_forall in Huniform, Hfull.
           destruct (Huniform s' Hs') as [Hch' Hlen'].
           destruct (lookup_lt_is_Some_2 (data s') c) as [d' Hd']; [lia|].
           rewrite Hd'. simpl. rewrite (Hlen' c d' Hd'). by apply Hfull.
        -- rewrite list_lookup_fmap, Hs. simpl. by rewrite Hd.
      * rewrite lookup_seq_ge by lia. symmetry. apply lookup_ge_None_2. lia.
    + apply lookup_ge_None in Hs. by rewrite lookup_seq_ge.
  - rewrite <- Hne. apply Forall_fmap, Forall_forall. intros i _. apply makeSegment_uniform.
Qed.
End ResegmentFacts.

Lemma Forall_of_submseteq {A} (P : A -> Prop) (l k : list A) :
  l ⊆+ k -> Forall P k -> Forall P l.
Proof.
  intros Hsub Hk. rewrite Forall_forall in *. intros x Hx. apply Hk.
  by eapply elem_of_submseteq.
Qed.

(** ** Encoding a buffer and decoding the result *)
Section RoundTripFacts.
Import Audio Audio.Processor Assembly Pipeline.
Local Open Scope Q_scope.
Variables (permute restore_ : forall A : Type, list A -> list A).
Variable (n : nat).
Hypothesis permute_fmap :
  forall A B (h : A -> B) l, permute B (h <$> l) = h <$> permute A l.
Hypothesis restore_fmap :
  forall A B (h : A -> B) l, restore_ B (h <$> l) = h <$> restore_ A l.
Hypothesis permute_Permutation : forall A (l : list A), permute A l ≡ₚ l.
Hypothesis restore_submseteq : forall A (l : list A), restore_ A l ⊆+ l.
Hypothesis restore_permute :
  forall A (l : list A), length l = n -> restore_ A (permute A l) = l.

Variables (b : AudioBuffer) (I : Q) (m : Z).
Hypotheses (Hr : 0 < sampleRate b) (Hn : (0 < numberOfChannels b)%nat) (HI : 0 < I).
Hypothesis Hm : I * sampleRate b == inject_Z m.
Hypothesis Hcap :
  inject_Z m <= MAX_SEGMENT_SIZE / inject_Z (Z.of_nat (numberOfChannels b)).
Hypothesis Hrect : rectangular b.
Hypothesis Hdiv : Z.of_nat (frames b) = (Z.of_nat n * m)%Z.

Lemma round_trip_segments :
  exists segments,
    createAudioSegments b I = Returns segments /\
    Forall (uniform (numberOfChannels b)) (permute _ segments) /\
    exists segments',
      createAudioSegments
        (assembled (numberOfChannels b) (sampleRate b) (permute _ segments)) I =
        Returns segments' /\
      processInBatches (restore_ _ segments') (numberOfChannels b) (sampleRate b) = Some b.
Proof.
  rewrite (whole_interval_segments b I m HI Hm Hcap).
  pose proof (whole_interval_exact_count b I m Hr Hn HI Hm n Hdiv) as HN.
  set (segments := makeSegment b I (inject_Z m)
                     <$> seq 0 (Z.to_nat (Qceiling (duration b / I)))).
  assert (Hlen : length segments = n).
  { unfold segments. by rewrite length_fmap, length_seq. }
  assert (Hu : Forall (uniform (numberOfChannels b)) segments).
  { apply Forall_fmap, Forall_forall. intros i _. apply makeSegment_uniform. }
  assert (Hfull : Forall (fun s => segment_samples s = Z.to_nat m) segments).
  { unfold segments. rewrite HN. apply Forall_fmap, Forall_forall.
    intros i Hi. apply elem_of_seq in Hi. simpl.
    apply (whole_interval_exact_samples b I m Hr Hn HI Hm n i Hdiv). lia. }
  exists segments. split; [done|].
  assert (Hu' : Forall (uniform (numberOfChannels b)) (permute _ segments))
    by (by rewrite permute_Permutation).
  assert (Hfull' : Forall (fun s => segment_samples s = Z.to_nat m) (permute _ segments))
    by (by rewrite permute_Permutation).
  split; [done|].
  destruct (resegment (numberOfChannels b) (sampleRate b) I m (permute _ segments)
              Hr Hn HI Hm Hcap Hu' Hfull') as (segments' & Hseg & Hdata & Hu'').
  exists segments'. split; [done|].
  rewrite processInBatches_concat;
    [|done|by apply (Forall_of_submseteq _ _ segments')].
  rewrite (whole_interval_channels b I m Hr Hn HI Hm Hrect); [by rewrite buffer_eta|].
  fold segments.
  rewrite <- restore_fmap, Hdata, <- permute_fmap.
  apply restore_permute. by rewrite length_fmap.
Qed.
End RoundTripFacts.

Section PipelineFacts.
Import Audio Audio.Processor Assembly Pipeline.
Local Open Scope Q_scope.

Lemma decodeOddEven_Permutation {A} (l : list A) : Permutation.decodeOddEven l ≡ₚ l.
Proof.
  rewrite <- (oddEven_encode_after_decode l) at 2.
  by rewrite encodeOddEven_Permutation.
Qed.

Lemma reverseAudioBuffer_involutive b : reverseAudioBuffer (reverseAudioBuffer b) = b.
Proof.
  rewrite !reverseAudioBuffer_channels. cbn [sampleRate channelData].
  rewrite <- list_fmap_compose.
  rewrite (list_fmap_ext (reverse ∘ reverse) id (channelData b))
    by (intros; apply reverse_involutive).
  by rewrite list_fmap_id, buffer_eta.
Qed.

(** The two runs, for a pair of reorderings of which the second undoes
    the first on [n] segments. *)
Lemma runs_round_trip (permute restore_ : forall A : Type, list A -> list A)
      (ty : Codec.EncodingType) (k k' : nat) (n : nat)
      (b : AudioBuffer) (I : Q) (m : Z) (isReversed : bool) :
  (forall segments, reorder ty k segments = permute _ segments) ->
  (forall segments, restore ty k' segments = restore_ _ segments) ->
  (forall A B (h : A -> B) l, permute B (h <$> l) = h <$> permute A l) ->
  (forall A B (h : A -> B) l, restore_ B (h <$> l) = h <$> restore_ A l) ->
  (forall A (l : list A), permute A l ≡ₚ l) ->
  (forall A (l : list A), restore_ A l ⊆+ l) ->
  (forall A (l : list A), length l = n -> restore_ A (permute A l) = l) ->
  0 < sampleRate b -> (0 < numberOfChannels b)%nat -> 0 < I ->
  I * sampleRate b == inject_Z m ->
  inject_Z m <= MAX_SEGMENT_SIZE / inject_Z (Z.of_nat (numberOfChannels b)) ->
  rectangular b ->
  Z.of_nat (frames b) = (Z.of_nat n * m)%Z ->
  exists encoded,
    encodeAudio ty k I isReversed b = Returns (Some encoded) /\
    decodeAudio ty k' I isReversed encoded = Returns (Some b).
Proof.
  intros Hreorder Hrestore Hpf Hrf Hpp Hrs Hrp Hr Hn HI Hm Hcap Hrect Hdiv.
  destruct (round_trip_segments permute restore_ n Hpf Hrf Hpp Hrs Hrp b I m
              Hr Hn HI Hm Hcap Hrect Hdiv)
    as (segments & Hseg & Hu & segments' & Hseg' & Hdec).
  unfold encodeAudio. rewrite Hseg, Hreorder.
  rewrite processInBatches_concat by done. cbn [mbind option_bind].
  fold (assembled (numberOfChannels b) (sampleRate b) (permute _ segments)).
  set (e := assembled (numberOfChannels b) (sampleRate b) (permute _ segments)) in *.
  eexists. split; [reflexivity|]. unfold decodeAudio.
  assert (Hw : (if isReversed
                then reverseAudioBuffer (if isReversed then reverseAudioBuffer e else e)
                else (if isReversed then reverseAudioBuffer e else e)) = e).
  { destruct isReversed; [apply reverseAudioBuffer_involutive | done]. }
  rewrite Hw, Hseg', Hrestore. f_equal.
  replace (numberOfChannels e) with (numberOfChannels b); [done|].
  unfold e, assembled, numberOfChannels. cbn [channelData].
  by rewrite length_fmap, length_seq.
Qed.
End PipelineFacts.

(** ** The codes that the parser accepts *)
Section AcceptedFacts.
Import JsNum Codec.

Lemma split_on_cons_inv sep s f fs :
  split_on sep s = f :: fs ->
  free_of sep f /\
  ((fs = [] /\ s = f) \/ exists r, s = f ++ sep :: r /\ split_on sep r = fs).
Proof.
  revert f fs. induction s as [|c s IH]; intros f fs Hs; simpl in Hs.
  - injection Hs as <- <-. split; [constructor | by left].
  - destruct (Ascii.eqb_spec c sep) as [->|Hc].
    + injection Hs as <- <-. split; [constructor|]. right. by exists s.
    + destruct (split_on sep s) as [|f' fs'] eqn:Es.
      * injection Hs as <- <-. destruct s; simpl in Es; [done|].
        destruct (Ascii.eqb a sep); [done|]. by destruct (split_on sep s).
      * injection Hs as <- <-. destruct (IH f' fs' eq_refl) as [Hfree Hrest].
        split; [by constructor|].
        destruct Hrest as [[-> ->]|(r & -> & Hr)]; [by left|].
        right. by exists r.
Qed.

(** A code of exactly three fields is the fields with a [b] between
    them, and no field contains a [b]. *)
Lemma split_on_three_inv sep s f1 f2 f3 :
  split_on sep s = [f1; f2; f3] ->
  s = f1 ++ sep :: f2 ++ sep :: f3 /\
  free_of sep f1 /\ free_of sep f2 /\ free_of sep f3.
Proof.
  intros Hs.
  apply split_on_cons_inv in Hs as [H1 [[? _]|(r1 & -> & Hs)]]; [done|].
  apply split_on_cons_inv in Hs as [H2 [[? _]|(r2 & -> & Hs)]]; [done|].
  apply split_on_cons_inv in Hs as [H3 [[_ ->]|(r3 & _ & Hs)]]; [done|].
  by destruct r3; simpl in Hs; [|destruct (Ascii.eqb a sep), (split_on sep r3)].
Qed.

Lemma slice_init_last s : s <> [] -> exists c, s = slice_init s ++ [c] /\ slice_last s = [c].
Proof.
  intros Hs. destruct s as [|c s] using rev_ind; [done|]. clear IHs.
  exists c. by rewrite slice_init_snoc, slice_last_snoc.
Qed.

Lemma parse_accepts code st st' :
  parseEncodingCode code st = (true, st') ->
  exists type partsStr intervalStr (flag : bool),
    code = type ++ str "b" ++ partsStr ++ str "b" ++ intervalStr ++
           (if flag then str "t" else str "f") /\
    free_of "b" type /\ free_of "b" partsStr /\ free_of "b" intervalStr /\
    decodeInterval st' = parseFloat intervalStr /\
    isDecodeReversed st' = flag /\
    ((type = str "s" /\ decodingType st' = split /\
      parseInt partsStr = Some (decodeNumberOfParts st')) \/
     (type = str "oe" /\ partsStr = [] /\ decodingType st' = oddEven /\
      decodeNumberOfParts st' = decodeNumberOfParts st)).
Proof.
  unfold parseEncodingCode, parseEncodingCode_run.
  destruct (split_on "b" code) as [|type [|partsStr [|iwr [|]]]] eqn:Hsplit; try done.
  apply split_on_three_inv in Hsplit as (-> & Hf1 & Hf2 & Hf3).
  destruct (bool_decide (type = [])); [done|].
  destruct (bool_decide_reflect (iwr = [])) as [|Hiwr]; [done|]. cbn [orb].
  destruct (slice_init_last iwr Hiwr) as (c & Hinit & ->).
  set (intervalStr := slice_init iwr) in *.
  assert (Hf3' : free_of "b" intervalStr).
  { rewrite Hinit in Hf3. by apply Forall_app in Hf3 as [? _]. }
  assert (Hflag : (exists flag : bool,
             [c] = (if flag then str "t" else str "f") /\
             bool_decide ([c] = str "t") = flag /\
             negb (bool_decide ([c] = str "t")) && negb (bool_decide ([c] = str "f"))
               = false) \/
             negb (bool_decide ([c] = str "t")) && negb (bool_decide ([c] = str "f"))
               = true).
  { destruct (bool_decide_reflect ([c] = str "t")) as [Ht|Ht];
      [left; exists true; by rewrite Ht|].
    destruct (bool_decide_reflect ([c] = str "f")) as [Hf|Hf];
      [left; exists false; by rewrite Hf | by right]. }
  destruct Hflag as [(flag & Hc & Hrev & Hno) | Hno]; rewrite Hno; [|done].
  rewrite Hrev. destruct (_ || _); [done|].
  destruct (bool_decide_reflect (type = str "s")) as [->|Hs].
  - destruct (parseInt partsStr) as [parts|] eqn:Hparts; [|done].
    destruct (_ || _); [done|]. intros [= <-].
    exists (str "s"), partsStr, intervalStr, flag. rewrite Hinit, Hc.
    repeat split; try done. by left.
  - destruct (bool_decide_reflect (type = str "oe")) as [->|Hoe]; [|done].
    destruct (bool_decide_reflect (partsStr = [])) as [->|]; [|done]. cbn [negb].
    intros [= <-].
    exists (str "oe"), [], intervalStr, flag. rewrite Hinit, Hc.
    repeat split; try done. by right.
Qed.
End AcceptedFacts.

(** ** Printing and reading an integer *)
Section IntegerFacts.
Import JsNum.

Lemma of_uint_acc_digits u acc :
  Z.pos (Pos.of_uint_acc u acc) =
    foldl (fun a d => 10 * a + digit_value d)%Z (Z.pos acc) (uint_digits u).
Proof.
  revert acc. induction u; intros acc; simpl; [done|..];
    rewrite IHu; f_equal; lia.
Qed.

Lemma of_uint_digits u : Z.of_N (Pos.of_uint u) = digits_value (uint_digits u).
Proof.
  induction u; simpl; [done | exact IHu|..]; apply of_uint_acc_digits.
Qed.

Lemma N_digits_value n : digits_value (N_digits n) = Z.of_N n.
Proof.
  unfold N_digits. rewrite <- of_uint_digits.
  change (Pos.of_uint (N.to_uint n)) with (N.of_uint (N.to_uint n)).
  by rewrite DecimalN.Unsigned.of_to.
Qed.

Lemma N_digits_nonempty n : N_digits n <> [].
Proof.
  unfold N_digits. destruct n as [|p]; [done|]. simpl.
  pose proof (DecimalPos.Unsigned.to_uint_nonnil p).
  by destruct (Pos.to_uint p).
Qed.

Lemma parseInt_digits ds :
  ds <> [] -> parseInt (digits_to_string ds) = Some (digits_value ds).
Proof.
  intros Hne. destruct ds as [|d ds]; [done|]. clear Hne.
  unfold parseInt.
  assert (Htrim : trim_start (digits_to_string (d :: ds)) = digits_to_string (d :: ds))
    by (by destruct d).
  assert (Hsign : read_sign (digits_to_string (d :: ds)) = (false, digits_to_string (d :: ds)))
    by (by destruct d).
  rewrite Htrim, Hsign.
  assert (Hspan := span_digits_all (d :: ds)).
  assert (Hval : forall z : Z, (1 * z = z)%Z) by (intros; lia).
  destruct d; unfold digits_to_string in *; cbn [fmap list_fmap digit_to_ascii] in *.
  2-10: by rewrite Hspan; cbn [fst]; rewrite Hval.
  destruct ds as [|d2 ds]; [reflexivity|].
  cbn [fmap list_fmap] in *.
  replace (Ascii.eqb (digit_to_ascii d2) "x" || Ascii.eqb (digit_to_ascii d2) "X")
    with false by (by destruct d2).
  rewrite Hspan. cbn [fst]. by rewrite Hval.
Qed.

(** [parseInt] reads back every non-negative integer that was printed. *)
Lemma parseInt_integer_toString k :
  (0 <= k)%Z ->
  parseInt (integer_toString k) = Some k /\ free_of "b" (integer_toString k).
Proof.
  intros Hk. unfold integer_toString.
  destruct (Z.ltb_spec k 0); [lia|]. rewrite app_nil_l. split.
  - rewrite parseInt_digits by apply N_digits_nonempty.
    rewrite N_digits_value. f_equal. lia.
  - apply digits_free_of_b.
Qed.
End IntegerFacts.

(** ** Codes for parameters outside the ranges *)
Section OutOfRangeFacts.
Import JsNum Codec.

(** What [parseEncodingCode] does with a code of three fields whose
    last field is a printed interval followed by the flag, up to the
    check of the interval. *)
Lemma parse_printed_interval code type partsStr ds n (rev : bool) st :
  split_on "b" code =
    [type; partsStr;
     Number_toString (Finite false ds n) ++ (if rev then str "t" else str "f")] ->
  type <> [] -> ds <> [] -> normal_digits ds -> (-6 < n <= 21)%Z ->
  ~ Spec.value_in_range (Finite false ds n) ->
  parseEncodingCode_run code st = inl IntervalRange.
Proof.
  intros Hsplit Htype Hne Hnorm Hn Hout.
  unfold parseEncodingCode_run. rewrite Hsplit.
  assert (Hflag : exists c, (if rev then str "t" else str "f") = [c] /\
                            negb (bool_decide ([c] = str "t")) &&
                              negb (bool_decide ([c] = str "f")) = false).
  { destruct rev; [exists "t"%char | exists "f"%char]; done. }
  destruct Hflag as (c & -> & Hc).
  rewrite (bool_decide_eq_false_2 (type = [])) by done.
  rewrite (bool_decide_eq_false_2 (Number_toString (Finite false ds n) ++ [c] = [])).
  2: { intros H. by apply app_eq_nil in H as [_ ?]. }
  cbn [orb]. cbv iota.
  rewrite slice_last_snoc, slice_init_snoc, Hc. cbv iota.
  rewrite parseFloat_toString by done.
  destruct (isNaN _ || lt _ num_0_001 || gt _ num_10) eqn:Hcheck; [done|].
  exfalso. apply Hout.
  apply orb_false_elim in Hcheck as [Hcheck Hgt].
  apply orb_false_elim in Hcheck as [Hnan Hlt].
  by apply passes_check_in_range.
Qed.

Lemma generated_fields (enc : EncoderState) ds n :
  interval enc = Finite false ds n -> ds <> [] -> (-6 < n <= 21)%Z ->
  encodingType enc <> none ->
  exists type partsStr,
    split_on "b" (generateEncodingCode enc) =
      [type; partsStr;
       Number_toString (Finite false ds n) ++
       (if isReversed enc then str "t" else str "f")] /\
    type <> [] /\
    (encodingType enc = split ->
     type = str "s" /\ partsStr = integer_toString (numberOfParts enc)) /\
    (encodingType enc = oddEven -> type = str "oe" /\ partsStr = []).
Proof.
  destruct enc as [ty k x rev]. simpl. intros -> Hne Hn Hty.
  assert (Hfree : free_of "b" (Number_toString (Finite false ds n) ++
                               (if rev then str "t" else str "f"))).
  { apply Forall_app; split.
    - by apply Number_toString_free_of_b.
    - destruct rev; by repeat constructor. }
  set (flag := if rev then str "t" else str "f") in *.
  destruct ty; [done| |].
  - exists (str "s"), (integer_toString k). split; [|by repeat split].
    change (generateEncodingCode _)
      with (str "s" ++ "b"%char ::
              (integer_toString k ++ "b"%char ::
                 (Number_toString (Finite false ds n) ++ flag))).
    rewrite split_on_app by by repeat constructor.
    rewrite split_on_app.
    + by rewrite (split_on_free _ _ Hfree).
    + unfold integer_toString. apply Forall_app; split.
      * destruct (_ <? _)%Z; by repeat constructor.
      * apply digits_free_of_b.
  - exists (str "oe"), []. split; [|by repeat split].
    change (generateEncodingCode _)
      with (str "oe" ++ "b"%char ::
              ([] ++ "b"%char :: (Number_toString (Finite false ds n) ++ flag))).
    rewrite split_on_app by by repeat constructor.
    rewrite (split_on_app "b" []) by constructor.
    by rewrite (split_on_free _ _ Hfree).
Qed.

End OutOfRangeFacts.

(** ** The decode panel *)
Section PanelFacts.
Import JsNum Codec Panel.

Lemma parse_keeps_ranges code st :
  Spec.value_in_range (decodeInterval st) ->
  (2 <= decodeNumberOfParts st <= 10)%Z ->
  Spec.value_in_range (decodeInterval (parseEncodingCode code st).2) /\
  (2 <= decodeNumberOfParts (parseEncodingCode code st).2 <= 10)%Z.
Proof.
  intros Hi Hp. pose proof (parse_checks_ranges code st) as Hc.
  destruct (parseEncodingCode code st) as [[] st'] eqn:Hparse; simpl.
  - destruct Hc as [Hr Hs]. split; [done|].
    apply parse_accepts in Hparse
      as (type & partsStr & iv & flag & _ & _ & _ & _ & _ & _ & Hcase).
    destruct Hcase as [(_ & Hty & _)|(_ & _ & _ & ->)]; [by apply Hs | done].
  - by subst st'.
Qed.

Lemma mounted_consistent : consistent mounted.
Proof.
  unfold consistent, mounted. simpl. split; [|split; [lia | done]].
  split; vm_compute; discriminate.
Qed.

Lemma onChange_consistent value p : consistent p -> consistent (onChange value p).
Proof.
  intros (Hi & Hp & Hv). unfold onChange.
  destruct (bool_decide (value = decodeInputCode p)); [done|].
  unfold validate. cbn [decodeInputCode decoder isValidCode].
  destruct value as [|c value]; [done|].
  destruct (parse_keeps_ranges (c :: value) (decoder p) Hi Hp) as [Hi' Hp'].
  destruct (parseEncodingCode (c :: value) (decoder p)) as [valid st'] eqn:Hparse.
  unfold consistent. cbn [decodeInputCode decoder isValidCode snd] in *.
  split; [done|]. split; [done|]. intros -> _. by exists (decoder p).
Qed.

Lemma after_consistent values : consistent (after values).
Proof.
  unfold after. induction values as [|value values IH] using rev_ind.
  - apply mounted_consistent.
  - rewrite foldl_app. simpl. by apply onChange_consistent.
Qed.

Lemma in_range_positive x :
  Spec.value_in_range x -> exists neg ds n, x = Finite neg ds n /\ (0 < finite_value neg ds n)%Q.
Proof.
  destruct x as [| |neg ds n]; [done | done|]. intros [Hlo _].
  exists neg, ds, n. split; [done|]. eapply Qlt_le_trans; [|exact Hlo]. reflexivity.
Qed.

Lemma createAudioSegments_returns b (I : Q) :
  (0 < I)%Q -> Audio.Processor.createAudioSegments b I <> Audio.Diverges.
Proof.
  intros HI. unfold Audio.Processor.createAudioSegments.
  by rewrite (Qeq_bool_pos I HI).
Qed.
End PanelFacts.

(** ** The copy loops of AudioEditor *)
Section EditorCopyFacts.
Import Audio Audio.Editor EditorRun.

Lemma copy_samples_steps (inputData outputData : list Q) (start wp j : nat) :
  start + j <= length inputData -> wp + j <= length outputData ->
  foldl (fun out i =>
           data ← out;
           sample ← typed_array_get inputData (Z.of_nat start + Z.of_nat i);
           Some (typed_array_put (Z.of_nat wp + Z.of_nat i) sample data))
        (Some outputData) (seq 0 j) =
  Some (take wp outputData ++ take j (drop start inputData) ++ drop (wp + j) outputData).
Proof.
  induction j as [|j IH]; intros Hin Hout.
  - simpl. by rewrite Nat.add_0_r, take_drop.
  - rewrite seq_S, foldl_app, IH by lia. cbn [foldl Nat.add mbind option_bind].
    unfold typed_array_get, typed_array_put.
    destruct (Z.ltb_spec (Z.of_nat start + Z.of_nat j) 0); [lia|].
    destruct (Z.ltb_spec (Z.of_nat wp + Z.of_nat j) 0); [lia|].
    replace (Z.to_nat (Z.of_nat start + Z.of_nat j)) with (start + j) by lia.
    replace (Z.to_nat (Z.of_nat wp + Z.of_nat j)) with (wp + j) by lia.
    destruct (lookup_lt_is_Some_2 inputData (start + j)) as [v Hv]; [lia|].
    rewrite Hv. cbn [mbind option_bind]. f_equal.
    destruct (lookup_lt_is_Some_2 outputData (wp + j)) as [x Hx]; [lia|].
    rewrite (drop_S _ _ _ Hx).
    assert (Hl1 : length (take wp outputData) = wp) by (rewrite length_take; lia).
    assert (Hl2 : length (take j (drop start inputData)) = j)
      by (rewrite length_take, length_drop; lia).
    rewrite insert_app_r_alt by lia. rewrite Hl1.
    rewrite insert_app_r_alt by lia. rewrite Hl2.
    replace (wp + j - wp - j) with 0 by lia. cbn [insert list_insert].
    rewrite (take_S_r _ j v) by (by rewrite lookup_drop).
    rewrite <- !app_assoc. do 3 f_equal. f_equal. lia.
Qed.

Lemma copy_samples_slice (inputData outputData : list Q) (startSample endSample wp : Z) :
  (0 <= startSample <= endSample)%Z -> (endSample <= Z.of_nat (length inputData))%Z ->
  (0 <= wp)%Z -> (wp + (endSample - startSample) <= Z.of_nat (length outputData))%Z ->
  copy_samples inputData startSample (endSample - startSample) wp outputData =
  Some (take (Z.to_nat wp) outputData ++
        Js.slice (Z.to_nat startSample) (Z.to_nat endSample) inputData ++
        drop (Z.to_nat (wp + (endSample - startSample))) outputData).
Proof.
  intros Hse He Hwp Hfit. unfold copy_samples, Js.slice.
  destruct (Z_of_nat_complete startSample) as [s ->]; [lia|].
  destruct (Z_of_nat_complete endSample) as [e ->]; [lia|].
  destruct (Z_of_nat_complete wp) as [w ->]; [lia|].
  replace (Z.to_nat (Z.of_nat e - Z.of_nat s)) with (e - s) by lia.
  rewrite copy_samples_steps by lia.
  rewrite !Nat2Z.id. do 4 f_equal. lia.
Qed.
End EditorCopyFacts.

Lemma concat_fmap_Permutation {A B} (f : A -> list B) (l l' : list A) :
  l ≡ₚ l' -> concat (f <$> l) ≡ₚ concat (f <$> l').
Proof.
  induction 1 as [|x l l' _ IH|x y l|l l' l'' _ IH1 _ IH2]; rewrite ?fmap_cons; cbn [concat].
  - done.
  - by rewrite IH.
  - rewrite !app_assoc. f_equiv. apply Permutation_app_comm.
  - by etrans.
Qed.

Section EditorFillFacts.
Import Audio Audio.Editor EditorRun.

(** A span that lies inside the input. *)
Lemma span_samples_length rate inputData segment :
  (0 <= (sample_span rate segment).1 <= (sample_span rate segment).2)%Z ->
  ((sample_span rate segment).2 <= Z.of_nat (length inputData))%Z ->
  Z.of_nat (length (span_samples rate inputData segment)) =
    ((sample_span rate segment).2 - (sample_span rate segment).1)%Z.
Proof.
  intros Hse He. unfold span_samples, Js.slice. rewrite length_take, length_drop. lia.
Qed.

Lemma fill_steps rate inputData segments :
  Forall (fun segment =>
            (0 <= (sample_span rate segment).1 <= (sample_span rate segment).2)%Z /\
            ((sample_span rate segment).2 <= Z.of_nat (length inputData))%Z) segments ->
  forall (outputData : list Q) (wp : nat),
    wp + length (concat (span_samples rate inputData <$> segments)) <= length outputData ->
    foldl (fun st segment =>
             '(data, writePosition) ← st;
             let startSample := Qfloor (start segment * rate) in
             let endSample := Qfloor (end_ segment * rate) in
             let segmentLength := (endSample - startSample)%Z in
             data' ← copy_samples inputData startSample segmentLength writePosition data;
             Some (data', (writePosition + segmentLength)%Z))
          (Some (outputData, Z.of_nat wp)) segments =
    Some (take wp outputData ++ concat (span_samples rate inputData <$> segments) ++
          drop (wp + length (concat (span_samples rate inputData <$> segments))) outputData,
          Z.of_nat (wp + length (concat (span_samples rate inputData <$> segments)))).
Proof.
  induction 1 as [|segment segments [Hse He] _ IH]; intros outputData wp Hfit.
  - simpl. by rewrite Nat.add_0_r, take_drop.
  - rewrite fmap_cons in *. cbn [concat] in *. rewrite length_app in *.
    pose proof (span_samples_length rate inputData segment Hse He) as Hlen.
    unfold sample_span in Hse, He, Hlen. cbn [fst snd] in Hse, He, Hlen.
    cbn [foldl mbind option_bind]. cbv zeta.
    rewrite copy_samples_slice by lia. cbn [mbind option_bind].
    set (chunk := span_samples rate inputData segment) in *.
    change (Js.slice (Z.to_nat (Qfloor (start segment * rate)))
                     (Z.to_nat (Qfloor (end_ segment * rate))) inputData) with chunk.
    replace (Z.of_nat wp + (Qfloor (end_ segment * rate) - Qfloor (start segment * rate)))%Z
      with (Z.of_nat (wp + length chunk)) by lia.
    rewrite !Nat2Z.id.
    rewrite IH by (rewrite !length_app, length_take, length_drop; lia).
    assert (Hwp : length (take wp outputData) = wp) by (rewrite length_take; lia).
    assert (H1 : take (wp + length chunk)
                   (take wp outputData ++ chunk ++ drop (wp + length chunk) outputData) =
                 take wp outputData ++ chunk).
    { rewrite app_assoc. apply take_app_length'. rewrite length_app. lia. }
    assert (H2 : drop (wp + length chunk +
                       length (concat (span_samples rate inputData <$> segments)))
                   (take wp outputData ++ chunk ++ drop (wp + length chunk) outputData) =
                 drop (wp + (length chunk +
                       length (concat (span_samples rate inputData <$> segments))))
                      outputData).
    { rewrite app_assoc.
      rewrite drop_app_add' by (rewrite length_app; lia).
      rewrite drop_drop. f_equal. lia. }
    rewrite H1, H2, <- !app_assoc. do 2 f_equal. lia.
Qed.

Lemma fill_channel_spans rate inputData outputData segments :
  Forall (fun segment =>
            (0 <= (sample_span rate segment).1 <= (sample_span rate segment).2)%Z /\
            ((sample_span rate segment).2 <= Z.of_nat (length inputData))%Z) segments ->
  length (concat (span_samples rate inputData <$> segments)) = length outputData ->
  fill_channel rate segments inputData outputData =
    Some (concat (span_samples rate inputData <$> segments)).
Proof.
  intros Hin Hlen. unfold fill_channel.
  change 0%Z with (Z.of_nat 0). rewrite fill_steps by (done || lia).
  cbn [mbind option_bind fst]. f_equal.
  rewrite take_0, Nat.add_0_l, drop_ge by lia. by rewrite app_nil_r.
Qed.

Lemma tiles_app a l1 b l2 c : tiles a l1 b -> tiles b l2 c -> tiles a (l1 ++ l2) c.
Proof.
  revert a. induction l1 as [|[s e] l1 IH]; intros a; simpl.
  - by intros ->.
  - intros (-> & Hle & Hrest) H2. repeat split; [done|]. by apply IH.
Qed.

(** Spans that follow one another lie between their ends, and their
    samples, one span after the other, are the samples between the
    ends. *)
Lemma tiles_samples rate (inputData : list Q) segments :
  forall a b,
    (0 <= a)%Z -> tiles a (sample_span rate <$> segments) b ->
    (b <= Z.of_nat (length inputData))%Z ->
    (a <= b)%Z /\
    Forall (fun segment =>
              (0 <= (sample_span rate segment).1 <= (sample_span rate segment).2)%Z /\
              ((sample_span rate segment).2 <= Z.of_nat (length inputData))%Z) segments /\
    concat (span_samples rate inputData <$> segments) =
      Js.slice (Z.to_nat a) (Z.to_nat b) inputData.
Proof.
  induction segments as [|segment segments IH]; intros a b Ha Ht Hb.
  - simpl in Ht. subst b. split; [lia|]. split; [constructor|].
    simpl. unfold Js.slice. by rewrite Nat.sub_diag, take_0.
  - rewrite fmap_cons in Ht.
    destruct (sample_span rate segment) as [s e] eqn:Hspan. simpl in Ht.
    destruct Ht as (-> & Hle & Hrest).
    destruct (IH e b) as (Heb & Hall & Hcat); [lia | done | done|].
    split; [lia|]. split.
    + constructor; [|done]. rewrite Hspan. simpl. lia.
    + rewrite fmap_cons. cbn [concat]. rewrite Hcat.
      unfold span_samples. rewrite Hspan. cbn [fst snd]. unfold Js.slice.
      replace (Z.to_nat b - Z.to_nat a)
        with ((Z.to_nat e - Z.to_nat a) + (Z.to_nat b - Z.to_nat e)) by lia.
      rewrite <- take_take_drop, drop_drop. do 3 f_equal. lia.
Qed.
End EditorFillFacts.

(** ** The spans in samples *)
Section SpanFacts.
Import Audio Audio.Editor EditorRun.
Local Open Scope Q_scope.
Variables (D I rate : Q) (L : Z).
Hypotheses (HI : 0 < I) (HD : 0 <= D) (Hr : 0 < rate).
Hypothesis HL : D * rate == inject_Z L.

Lemma full_spans_tile (j : nat) :
  tiles 0 (sample_span rate <$>
             ((fun i : nat =>
                 {| start := inject_Z (Z.of_nat i) * I;
                    end_ := inject_Z (Z.of_nat (i + 1)) * I |}) <$> seq 0 j))
        (Qfloor (inject_Z (Z.of_nat j) * I * rate)).
Proof.
  induction j as [|j IH].
  - cbn [seq fmap list_fmap tiles]. symmetry.
    transitivity (Qfloor (inject_Z 0)); [|apply Qfloor_Z].
    apply Qfloor_comp. change (inject_Z (Z.of_nat 0)) with 0. change (inject_Z 0) with 0. ring.
  - rewrite seq_S, !fmap_app. eapply tiles_app; [exact IH|].
    cbn [fmap list_fmap Nat.add]. unfold sample_span. cbn [start end_ tiles].
    rewrite Nat.add_1_r. split; [done|]. split; [|done].
    apply Qfloor_resp_le.
    apply Qmult_le_compat_r; [|by apply Qlt_le_weak].
    apply Qmult_le_compat_r; [|by apply Qlt_le_weak].
    rewrite <- Zle_Qle. lia.
Qed.

(** The spans of a buffer follow one another from sample 0 to the last
    sample of the buffer. *)
Lemma segment_tiles : tiles 0 (sample_span rate <$> Spec.segment D I) L.
Proof.
  unfold Spec.segment. rewrite fmap_app.
  pose proof (floor_div_nonneg D I HD HI) as HK.
  destruct (floor_div_bounds D I HI) as [Hlo Hhi].
  set (K := Qfloor (D / I)) in *.
  eapply tiles_app; [apply full_spans_tile|].
  rewrite Z2Nat.id by done.
  assert (HLfloor : Qfloor (D * rate) = L) by (by rewrite HL, Qfloor_Z).
  rewrite <- remainder_test.
  destruct (Qltb (inject_Z K * I) D) eqn:Hrest.
  - apply Qltb_lt in Hrest. cbn [fmap list_fmap]. unfold sample_span. cbn [start end_ tiles].
    split; [done|]. split; [|done].
    apply Qfloor_resp_le. apply Qmult_le_compat_r; [done | by apply Qlt_le_weak].
  - apply Qltb_ge in Hrest. cbn [fmap list_fmap tiles].
    rewrite <- HLfloor. apply Qfloor_comp.
    assert (Heq : inject_Z K * I == D) by (by apply Qle_antisym).
    by rewrite Heq.
Qed.
End SpanFacts.

(** ** The run of AudioEditor *)
Section EditorRunFacts.
Import Audio Audio.Editor EditorRun.

Lemma reorderSegments_Permutation ty (segments : list AudioSegment) :
  reorderSegments ty segments ≡ₚ segments.
Proof.
  destruct ty; [done| |]; apply (encodeOddEven_Permutation segments).
Qed.

Lemma reordered_Permutation ty isReversed (segments : list AudioSegment) :
  reverse_stage isReversed (reorderSegments ty segments) ≡ₚ segments.
Proof.
  unfold reverse_stage. destruct isReversed.
  - by rewrite reverse_Permutation, reorderSegments_Permutation.
  - apply reorderSegments_Permutation.
Qed.

Lemma editor_run (ty : Codec.EncodingType) (I : Q) (isReversed : bool) (b : AudioBuffer) :
  (0 < sampleRate b)%Q -> (0 < I)%Q -> Pipeline.rectangular b ->
  exists segments,
    createAudioSegments I (duration b) = Returns segments /\
    encodeAudio ty I isReversed b =
      Returns (Some {| sampleRate := sampleRate b;
                       channelData :=
                         (fun inputData =>
                            concat (span_samples (sampleRate b) inputData
                                      <$> reverse_stage isReversed
                                            (reorderSegments ty segments)))
                           <$> channelData b |}) /\
    Forall (fun inputData =>
              concat (span_samples (sampleRate b) inputData <$> segments) = inputData)
           (channelData b).
Proof.
  intros Hr HI Hrect.
  pose proof (duration_nonneg b Hr) as HD.
  exists (Spec.segment (duration b) I).
  assert (Hseg := editor_segments (duration b) I HI).
  split; [done|].
  assert (Htiles := segment_tiles (duration b) I (sampleRate b) (Z.of_nat (frames b))
                      HI HD Hr (whole_interval_duration b Hr)).
  set (segments := Spec.segment (duration b) I) in *.
  assert (Hchan : forall inputData, inputData ∈ channelData b ->
            Forall (fun segment =>
                      (0 <= (sample_span (sampleRate b) segment).1
                         <= (sample_span (sampleRate b) segment).2)%Z /\
                      ((sample_span (sampleRate b) segment).2
                         <= Z.of_nat (length inputData))%Z) segments /\
            concat (span_samples (sampleRate b) inputData <$> segments) = inputData).
  { intros inputData Hin.
    assert (Hlen : length inputData = frames b).
    { unfold Pipeline.rectangular in Hrect. rewrite Forall_forall in Hrect. by apply Hrect. }
    destruct (tiles_samples (sampleRate b) inputData segments 0 (Z.of_nat (frames b)))
      as (_ & Hall & Hcat); [lia | done | lia|].
    split; [done|]. rewrite Hcat. unfold Js.slice. simpl.
    rewrite drop_0, Nat.sub_0_r. apply take_ge. lia. }
  split.
  - unfold encodeAudio. rewrite Hseg.
    set (reordered := reverse_stage isReversed (reorderSegments ty segments)).
    assert (Hperm : reordered ≡ₚ segments) by apply reordered_Permutation.
    do 2 f_equal.
    rewrite (proj2 (mapM_Some _ _
               ((fun c => concat (span_samples (sampleRate b)
                                    (default [] (channelData b !! c)) <$> reordered))
                  <$> seq 0 (numberOfChannels b)))).
    + cbn [mbind option_bind sampleRate createBuffer]. do 2 f_equal.
      apply list_eq. intros c. rewrite !list_lookup_fmap.
      destruct (channelData b !! c) as [inputData|] eqn:Hc.
      * rewrite lookup_seq_lt by (by eapply lookup_lt_Some). simpl. by rewrite Hc.
      * apply lookup_ge_None in Hc. by rewrite lookup_seq_ge.
    + apply Forall2_fmap_r, Forall_Forall2_diag, Forall_forall.
      intros c Hc. apply elem_of_seq in Hc.
      destruct (lookup_lt_is_Some_2 (channelData b) c) as [inputData Hin];
        [unfold numberOfChannels in Hc; lia|].
      cbv beta. rewrite !Hin. cbn [mbind option_bind default].
      unfold createBuffer. cbn [channelData].
      rewrite lookup_replicate_2 by lia. cbn [mbind option_bind].
      destruct (Hchan inputData) as [Hall Hcat]; [by eapply list_elem_of_lookup_2|].
      unfold compose. cbv beta. rewrite Hin.
      change (default [] (Some inputData)) with inputData.
      apply fill_channel_spans.
      * by rewrite Hperm.
      * rewrite length_replicate.
        rewrite (Permutation_length
                   (concat_fmap_Permutation (span_samples (sampleRate b) inputData)
                      _ _ Hperm)).
        rewrite Hcat.
        unfold Pipeline.rectangular in Hrect. rewrite Forall_forall in Hrect.
        apply Hrect. by eapply list_elem_of_lookup_2.
  - apply Forall_forall. intros inputData Hin. by apply Hchan.
Qed.
End EditorRunFacts.

(** ** Writing through the [DataView] *)
Section DataViewFacts.
Import JsMath Wav.

Lemma bind_of_Some {A B} (m : option A) (k : A -> option B) v :
  m = Some v -> m ≫= k = k v.
Proof. by intros ->. Qed.

Lemma little_endian_length n v : length (little_endian n v) = n.
Proof. unfold little_endian. by rewrite length_fmap, length_seq. Qed.

(** A write that replaces bytes in the middle of the buffer. *)
Lemma write_middle (P old R bytes : list Z) off :
  off = length P -> length bytes = length old ->
  write off bytes (P ++ old ++ R) = Some (P ++ bytes ++ R).
Proof.
  intros -> Hlen. unfold write.
  rewrite !length_app, Hlen.
  destruct (Nat.leb_spec (length P + length old) (length P + (length old + length R)));
    [|lia].
  f_equal. rewrite take_app_length. f_equal. f_equal.
  rewrite drop_app_add'; [|done]. by rewrite drop_app_length'.
Qed.

Lemma write_concat (pre : list (list Z)) (old : list Z) (post : list (list Z)) bytes off :
  off = length (concat pre) -> length bytes = length old ->
  write off bytes (concat (pre ++ old :: post)) = Some (concat (pre ++ bytes :: post)).
Proof.
  intros Hoff Hlen. rewrite !concat_app. cbn [concat]. by apply write_middle.
Qed.

Lemma charCode_byte c : little_endian 1 (charCodeAt c) = [charCodeAt c].
Proof.
  unfold little_endian, charCodeAt. cbn [seq fmap list_fmap]. f_equal.
  change (256 ^ Z.of_nat 0)%Z with 1%Z. rewrite Z.div_1_r.
  apply Z.mod_small. pose proof (N_ascii_bounded c). lia.
Qed.

Lemma writeString_from (string : list ascii) :
  forall (i0 off : nat) (P old R : list Z),
    off + i0 = length P -> length old = length string ->
    Js.forEach_from (fun c i acc => v ← acc; setUint8 (off + i) (charCodeAt c) v)
                    i0 string (Some (P ++ old ++ R)) =
    Some (P ++ (charCodeAt <$> string) ++ R).
Proof.
  induction string as [|c string IH]; intros i0 off P old R HP Hold.
  - by destruct old.
  - destruct old as [|o old]; [done|]. simpl in Hold.
    cbn [Js.forEach_from mbind option_bind].
    assert (Hw : setUint8 (off + i0) (charCodeAt c) (P ++ (o :: old) ++ R) =
                 Some ((P ++ [charCodeAt c]) ++ old ++ R)).
    { unfold setUint8. rewrite charCode_byte, <- app_assoc.
      by apply (write_middle P [o] (old ++ R)). }
    rewrite Hw.
    rewrite (IH (S i0) off (P ++ [charCodeAt c]) old R) by (rewrite ?length_app; simpl; lia).
    rewrite fmap_cons. by rewrite <- app_assoc.
Qed.

Lemma writeString_concat (pre : list (list Z)) (old : list Z) (post : list (list Z))
      string off :
  off = length (concat pre) -> length old = length string ->
  writeString off string (concat (pre ++ old :: post)) =
    Some (concat (pre ++ (charCodeAt <$> string) :: post)).
Proof.
  intros Hoff Hlen. rewrite !concat_app. cbn [concat].
  unfold writeString, Js.forEach. apply writeString_from; [lia | done].
Qed.

(** The writes of the header, on a buffer of 44 bytes and more. *)
Lemma header_writes (numberOfChannels dataLength : nat) (sampleRate : Q)
      (k : list Z -> option (list Z)) :
  (view ← writeString 0 (JsNum.str "RIFF") (replicate (44 + dataLength) 0%Z);
   view ← setUint32 4 (Z.of_nat (36 + dataLength)) view;
   view ← writeString 8 (JsNum.str "WAVE") view;
   view ← writeString 12 (JsNum.str "fmt ") view;
   view ← setUint32 16 16 view;
   view ← setUint16 20 1 view;
   view ← setUint16 22 (Z.of_nat numberOfChannels) view;
   view ← setUint32 24 (truncate sampleRate) view;
   view ← setUint32 28
            (truncate (sampleRate * inject_Z (Z.of_nat numberOfChannels) * 2)%Q) view;
   view ← setUint16 32 (Z.of_nat (numberOfChannels * 2)) view;
   view ← setUint16 34 16 view;
   view ← writeString 36 (JsNum.str "data") view;
   view ← setUint32 40 (Z.of_nat dataLength) view;
   k view) =
  k (header numberOfChannels dataLength sampleRate ++ replicate dataLength 0%Z).
Proof.
  set (z4 := replicate 4 0%Z). set (z2 := replicate 2 0%Z).
  set (T := replicate dataLength 0%Z).
  replace (replicate (44 + dataLength) 0%Z)
    with (concat ([] ++ z4 :: [z4; z4; z4; z4; z2; z2; z4; z4; z2; z2; z4; z4; T]))
    by (cbn; by rewrite app_nil_r).
  unfold setUint32, setUint16.
  set (f1 := charCodeAt <$> JsNum.str "RIFF").
  set (f2 := little_endian 4 (Z.of_nat (36 + dataLength))).
  set (f3 := charCodeAt <$> JsNum.str "WAVE").
  set (f4 := charCodeAt <$> JsNum.str "fmt ").
  set (f5 := little_endian 4 16).
  set (f6 := little_endian 2 1).
  set (f7 := little_endian 2 (Z.of_nat numberOfChannels)).
  set (f8 := little_endian 4 (truncate sampleRate)).
  set (f9 := little_endian 4 (truncate (sampleRate * inject_Z (Z.of_nat numberOfChannels) * 2)%Q)).
  set (f10 := little_endian 2 (Z.of_nat (numberOfChannels * 2))).
  set (f11 := little_endian 2 16).
  set (f12 := charCodeAt <$> JsNum.str "data").
  set (f13 := little_endian 4 (Z.of_nat dataLength)).
  erewrite bind_of_Some by (apply writeString_concat; reflexivity).
  erewrite bind_of_Some
    by (apply (write_concat [f1] z4 [z4; z4; z4; z2; z2; z4; z4; z2; z2; z4; z4; T]);
        reflexivity).
  erewrite bind_of_Some
    by (apply (writeString_concat [f1; f2] z4 [z4; z4; z2; z2; z4; z4; z2; z2; z4; z4; T]);
        reflexivity).
  erewrite bind_of_Some
    by (apply (writeString_concat [f1; f2; f3] z4 [z4; z2; z2; z4; z4; z2; z2; z4; z4; T]);
        reflexivity).
  erewrite bind_of_Some
    by (apply (write_concat [f1; f2; f3; f4] z4 [z2; z2; z4; z4; z2; z2; z4; z4; T]);
        reflexivity).
  erewrite bind_of_Some
    by (apply (write_concat [f1; f2; f3; f4; f5] z2 [z2; z4; z4; z2; z2; z4; z4; T]);
        reflexivity).
  erewrite bind_of_Some
    by (apply (write_concat [f1; f2; f3; f4; f5; f6] z2 [z4; z4; z2; z2; z4; z4; T]);
        reflexivity).
  erewrite bind_of_Some
    by (apply (write_concat [f1; f2; f3; f4; f5; f6; f7] z4 [z4; z2; z2; z4; z4; T]);
        reflexivity).
  erewrite bind_of_Some
    by (apply (write_concat [f1; f2; f3; f4; f5; f6; f7; f8] z4 [z2; z2; z4; z4; T]);
        reflexivity).
  erewrite bind_of_Some
    by (apply (write_concat [f1; f2; f3; f4; f5; f6; f7; f8; f9] z2 [z2; z4; z4; T]);
        reflexivity).
  erewrite bind_of_Some
    by (apply (write_concat [f1; f2; f3; f4; f5; f6; f7; f8; f9; f10] z2 [z4; z4; T]);
        reflexivity).
  erewrite bind_of_Some
    by (apply (writeString_concat [f1; f2; f3; f4; f5; f6; f7; f8; f9; f10; f11] z4 [z4; T]);
        reflexivity).
  erewrite bind_of_Some
    by (apply (write_concat [f1; f2; f3; f4; f5; f6; f7; f8; f9; f10; f11; f12] z4 [T]);
        reflexivity).
  f_equal. unfold header. cbn [concat app]. by rewrite <- !app_assoc, app_nil_r.
Qed.
End DataViewFacts.

(** ** The samples of the WAV file *)
Section SampleWriterFacts.
Import JsMath Wav.

Lemma row_length nch (value : nat -> Q) :
  length (concat ((fun channel => little_endian 2 (truncate (value channel)))
                    <$> seq 0 nch)) = nch * 2.
Proof.
  induction nch as [|nch IH]; [done|].
  rewrite seq_S, fmap_app, concat_app, length_app, IH. simpl. lia.
Qed.

Lemma interleaved_length nch frames value :
  length (interleaved nch frames value) = frames * nch * 2.
Proof.
  unfold interleaved. induction frames as [|frames IH]; [done|].
  rewrite seq_S, fmap_app, concat_app, length_app, IH.
  cbn [fmap list_fmap concat Nat.add]. rewrite app_nil_r, row_length. lia.
Qed.

(** The channels of one frame. *)
Lemma write_row nch (byteOffset : nat -> nat) (value : nat -> Q) (P : list Z) pad :
  (forall channel, channel < nch -> byteOffset channel = length P + channel * 2) ->
  foldl (fun acc channel => v ← acc; setInt16 (byteOffset channel) (value channel) v)
        (Some (P ++ replicate (nch * 2 + pad) 0%Z)) (seq 0 nch) =
  Some (P ++ concat ((fun channel => little_endian 2 (truncate (value channel)))
                       <$> seq 0 nch) ++ replicate pad 0%Z).
Proof.
  revert pad. induction nch as [|nch IH]; intros pad Hoff; [done|].
  rewrite seq_S, foldl_app.
  replace (S nch * 2 + pad) with (nch * 2 + (2 + pad)) by lia.
  rewrite IH by (intros; apply Hoff; lia).
  cbn [foldl Nat.add mbind option_bind]. unfold setInt16.
  change (replicate (S (S pad)) 0%Z) with (replicate 2 0%Z ++ replicate pad 0%Z).
  rewrite app_assoc.
  rewrite (write_middle _ (replicate 2 0%Z) (replicate pad 0%Z)).
  - by rewrite fmap_app, concat_app, <- !app_assoc.
  - rewrite length_app, row_length. apply Hoff. lia.
  - done.
Qed.

Lemma write_samples_interleaved nch frames (byteOffset : nat -> nat -> nat)
      (value : nat -> nat -> Q) (H : list Z) :
  (forall i channel, i < frames -> channel < nch ->
                     byteOffset i channel = length H + (i * nch + channel) * 2) ->
  write_samples nch frames byteOffset value (H ++ replicate (frames * nch * 2) 0%Z) =
  Some (H ++ interleaved nch frames value).
Proof.
  intros Hoff. unfold write_samples, interleaved.
  assert (Hgen : forall j pad, j <= frames ->
    foldl (fun acc i =>
             foldl (fun acc channel =>
                      v ← acc; setInt16 (byteOffset i channel) (value i channel) v)
                   acc (seq 0 nch))
          (Some (H ++ replicate (j * nch * 2 + pad) 0%Z)) (seq 0 j) =
    Some (H ++ concat ((fun i =>
                          concat ((fun channel =>
                                     little_endian 2 (truncate (value i channel)))
                                    <$> seq 0 nch)) <$> seq 0 j) ++
          replicate pad 0%Z)).
  { induction j as [|j IH]; intros pad Hj; [done|].
    rewrite seq_S, foldl_app.
    replace (S j * nch * 2 + pad) with (j * nch * 2 + (nch * 2 + pad)) by lia.
    rewrite IH by lia. cbn [foldl Nat.add]. rewrite app_assoc.
    rewrite (write_row nch (byteOffset j) (value j)).
    - rewrite fmap_app, concat_app. cbn [fmap list_fmap concat].
      by rewrite app_nil_r, <- !app_assoc.
    - intros channel Hc. rewrite Hoff by lia.
      rewrite length_app. fold (interleaved nch j value).
      rewrite interleaved_length. lia. }
  replace (frames * nch * 2) with (frames * nch * 2 + 0) by lia.
  rewrite Hgen by done. by rewrite app_nil_r.
Qed.

Lemma header_length nch dataLength rate : length (header nch dataLength rate) = 44.
Proof. reflexivity. Qed.
End SampleWriterFacts.

(** ** The range of the stored samples *)
Section ClampFacts.
Import JsMath Wav.
Local Open Scope Q_scope.

Lemma clamp_range x : -1 <= clamp x <= 1.
Proof.
  unfold clamp. split.
  - apply Q.le_max_l.
  - apply Q.max_lub; [discriminate | apply Q.le_min_l].
Qed.

Lemma truncate_bounds (x : Q) (n : Z) :
  (0 <= n)%Z -> - inject_Z n <= x <= inject_Z n -> (- n <= truncate x <= n)%Z.
Proof.
  intros Hn [Hlo Hhi]. unfold truncate.
  destruct x as [a d]. unfold Qle, inject_Z in *. simpl in *.
  split.
  - apply Z.quot_le_lower_bound; lia.
  - apply Z.quot_le_upper_bound; lia.
Qed.
End ClampFacts.

Section TruncateFacts.
Import JsMath Wav.
Local Open Scope Q_scope.

Lemma truncate_floor_ceiling x :
  truncate x = if (0 <=? Qnum x)%Z then Qfloor x else Qceiling x.
Proof.
  unfold truncate, Qceiling, Qfloor. destruct x as [a d]. simpl.
  destruct (Z.leb_spec 0 a).
  - apply Z.quot_div_nonneg; lia.
  - rewrite <- (Z.opp_involutive a) at 1. rewrite Z.quot_opp_l by lia.
    f_equal. apply Z.quot_div_nonneg; lia.
Qed.

Lemma truncate_comp x y : x == y -> truncate x = truncate y.
Proof.
  intros Hxy. rewrite !truncate_floor_ceiling.
  assert (Hsign : (0 <=? Qnum x)%Z = (0 <=? Qnum y)%Z).
  { assert (Hx : (0 <= Qnum x)%Z <-> 0 <= x)
      by (unfold Qle; simpl; lia).
    assert (Hy : (0 <= Qnum y)%Z <-> 0 <= y)
      by (unfold Qle; simpl; lia).
    destruct (Z.leb_spec 0 (Qnum x)), (Z.leb_spec 0 (Qnum y)); try done.
    - apply Hx in H. rewrite Hxy in H. apply Hy in H. lia.
    - apply Hy in H0. rewrite <- Hxy in H0. apply Hx in H0. lia. }
  rewrite Hsign. clear Hsign.
  destruct (0 <=? Qnum y)%Z; [by apply Qfloor_comp | by apply Qceiling_comp].
Qed.

Lemma truncate_between (x : Q) (lo hi : Z) :
  (lo <= 0 <= hi)%Z -> inject_Z lo <= x <= inject_Z hi -> (lo <= truncate x <= hi)%Z.
Proof.
  intros Hn [Hlo Hhi]. rewrite truncate_floor_ceiling.
  destruct (Z.leb_spec 0 (Qnum x)) as [Hx|Hx].
  - split.
    + assert (0 <= Qfloor x)%Z; [|lia].
      rewrite <- (Qfloor_Z 0). apply Qfloor_resp_le. unfold Qle. simpl. lia.
    + rewrite <- (Qfloor_Z hi). by apply Qfloor_resp_le.
  - split.
    + rewrite <- (Qceiling_Z lo). by apply Qceiling_resp_le.
    + assert (Qceiling x <= 0)%Z; [|lia].
      rewrite <- (Qceiling_Z 0). apply Qceiling_resp_le. unfold Qle. simpl. lia.
Qed.
End TruncateFacts.

(** ** The clock *)
Section ClockFacts.
Import JsNum JsMath Display.
Local Open Scope Q_scope.

Lemma Qfloor_unique (x : Q) (n : Z) :
  inject_Z n <= x -> x < inject_Z (n + 1) -> Qfloor x = n.
Proof.
  intros Hlo Hhi.
  assert (H1 : (n <= Qfloor x)%Z).
  { rewrite <- (Qfloor_Z n). by apply Qfloor_resp_le. }
  assert (H2 : (Qfloor x < n + 1)%Z).
  { rewrite Zlt_Qlt. eapply Qle_lt_trans; [apply Qfloor_le | done]. }
  lia.
Qed.

Lemma Qnum_nonneg (x : Q) : 0 <= x -> (0 <= Qnum x)%Z.
Proof. destruct x as [a d]. unfold Qle. simpl. lia. Qed.

Lemma floor_minutes_seconds (time : Q) :
  0 <= time ->
  Qfloor (time / 60) = (Qfloor time / 60)%Z /\
  Qfloor (remainder time 60) = (Qfloor time mod 60)%Z.
Proof.
  intros Ht.
  set (q := Qfloor (time / 60)).
  assert (Hq : inject_Z q * 60 <= time /\ time < inject_Z (q + 1) * 60).
  { apply floor_div_bounds. reflexivity. }
  destruct Hq as [Hqlo Hqhi].
  assert (Hflo : (q * 60 <= Qfloor time)%Z).
  { rewrite <- (Qfloor_Z (q * 60)). apply Qfloor_resp_le.
    by rewrite inject_Z_mult. }
  assert (Hfhi : (Qfloor time < (q + 1) * 60)%Z).
  { rewrite Zlt_Qlt. eapply Qle_lt_trans; [apply Qfloor_le|].
    by rewrite inject_Z_mult. }
  assert (Hdiv : (Qfloor time / 60 = q)%Z).
  { symmetry. apply (Z.div_unique _ _ _ (Qfloor time - q * 60)); lia. }
  split; [done|].
  assert (Hq0 : (0 <= q)%Z).
  { unfold q. apply floor_div_nonneg; [done | reflexivity]. }
  assert (Htr : JsMath.truncate (time / 60) = q).
  { rewrite truncate_floor_ceiling.
    destruct (Z.leb_spec 0 (Qnum (time / 60))) as [|Hneg]; [done|].
    exfalso. assert (H0 : 0 <= time / 60) by (apply Qle_shift_div_l; [reflexivity | lra]).
    apply Qnum_nonneg in H0. lia. }
  unfold remainder. rewrite Htr.
  rewrite Z.mod_eq by lia. rewrite Hdiv.
  apply Qfloor_unique.
  - unfold Z.sub. rewrite inject_Z_plus, inject_Z_opp, !inject_Z_mult.
    pose proof (Qfloor_le time). change (inject_Z 60) with 60. lra.
  - replace (Qfloor time - 60 * q + 1)%Z with ((Qfloor time + 1) - 60 * q)%Z by lia.
    unfold Z.sub. rewrite inject_Z_plus, inject_Z_opp, !inject_Z_mult.
    pose proof (Qlt_floor time). change (inject_Z 60) with 60. lra.
Qed.

(** A number of seconds below sixty is shown with two digits. *)
Lemma two_digits (s : Z) :
  (0 <= s < 60)%Z ->
  exists d1 d2,
    padStart 2 "0" (integer_toString s) = digits_to_string [d1; d2] /\
    (10 * digit_value d1 + digit_value d2 = s)%Z.
Proof.
  intros Hs. destruct (Z_of_nat_complete s) as [n ->]; [lia|].
  assert (Hn : (n < 60)%nat) by lia. clear Hs.
  exists (nth (n / 10) [D0; D1; D2; D3; D4; D5; D6; D7; D8; D9] D0),
         (nth (n mod 10) [D0; D1; D2; D3; D4; D5; D6; D7; D8; D9] D0).
  do 60 (destruct n as [|n]; [split; vm_compute; reflexivity|]).
  lia.
Qed.
End ClockFacts.

(** ** From the code shown to the code typed *)
Section ShownCodeFacts.
Import JsNum Codec.

(** The code made for parameters of the ranges parses to the same
    parameters. *)
Lemma generated_code_parses (enc : EncoderState) (dec : DecoderState) ds n :
  encodingType enc <> none ->
  interval enc = Finite false ds n -> ds <> [] -> normal_digits ds ->
  Spec.value_in_range (Finite false ds n) ->
  (encodingType enc = split -> (2 <= numberOfParts enc <= 10)%Z) ->
  parseEncodingCode (generateEncodingCode enc) dec =
    (true, {| decodingType := encodingType enc;
              decodeNumberOfParts :=
                if decide (encodingType enc = split) then numberOfParts enc
                else decodeNumberOfParts dec;
              decodeInterval := Finite false ds n;
              isDecodeReversed := isReversed enc |}).
Proof.
  intros Hty Hx Hne Hnorm Hrange Hparts.
  assert (Hn : (-2 <= n <= 2)%Z)
    by (apply (interval_in_range_exponent ds); [done | apply Hnorm | done]).
  destruct (generated_fields enc ds n Hx Hne) as (type & partsStr & Hs & Ht & Hsp & Hoe);
    [lia | done|].
  unfold parseEncodingCode.
  rewrite (parse_three_fields _ _ _ ds n (isReversed enc) dec Hs) by done.
  cbv zeta. destruct (encodingType enc) eqn:Ety; [done| |].
  - destruct (Hsp eq_refl) as [-> ->].
    rewrite bool_decide_eq_true_2 by done.
    destruct (parseInt_integer_toString (numberOfParts enc)) as [-> _];
      [specialize (Hparts eq_refl); lia|].
    specialize (Hparts eq_refl).
    destruct (Z.ltb_spec (numberOfParts enc) 2); [lia|].
    destruct (Z.gtb_spec (numberOfParts enc) 10); [lia|]. done.
  - destruct (Hoe eq_refl) as [-> ->].
    rewrite bool_decide_eq_false_2 by done.
    rewrite bool_decide_eq_true_2 by done.
    by rewrite bool_decide_eq_true_2 by done.
Qed.

Lemma generated_code_nonempty (enc : EncoderState) :
  encodingType enc <> none -> generateEncodingCode enc <> [].
Proof. unfold generateEncodingCode. by destruct (encodingType enc). Qed.
End ShownCodeFacts.

Section ShownCodeRuns.
Import JsNum Codec.

Lemma after_one (code : list ascii) :
  code <> [] ->
  Panel.after [code] =
    {| Panel.decodeInputCode := code;
       Panel.isValidCode := (parseEncodingCode code initial_decoder_state).1;
       Panel.decoder := (parseEncodingCode code initial_decoder_state).2 |}.
Proof.
  intros Hcode. unfold Panel.after. cbn [foldl]. unfold Panel.onChange.
  change (Panel.decodeInputCode Panel.mounted) with (@nil ascii).
  rewrite bool_decide_eq_false_2 by done.
  unfold Panel.validate. cbn [Panel.decodeInputCode Panel.decoder Panel.isValidCode].
  change (Panel.decoder Panel.mounted) with initial_decoder_state.
  destruct code as [|c code]; [done|].
  by destruct (parseEncodingCode (c :: code) initial_decoder_state).
Qed.

Lemma shown_code_runs (enc : EncoderState) (b : Audio.AudioBuffer) (m : Z) (count : nat) :
  Spec.valid_serializable (Spec.of_encoder enc) ->
  (0 < Audio.sampleRate b)%Q -> 0 < Audio.numberOfChannels b ->
  (EncodePanel.seconds (interval enc) * Audio.sampleRate b == inject_Z m)%Q ->
  (inject_Z m <=
     Audio.MAX_SEGMENT_SIZE / inject_Z (Z.of_nat (Audio.numberOfChannels b)))%Q ->
  Pipeline.rectangular b ->
  Z.of_nat (Audio.frames b) = (Z.of_nat count * m)%Z ->
  (encodingType enc = split -> exists s, count = Z.to_nat (numberOfParts enc) * s) ->
  Panel.decode_disabled false (Panel.after [generateEncodingCode enc]) = false /\
  exists encoded,
    EncodePanel.encodeAudio enc b = Audio.Returns (Some encoded) /\
    Panel.decodeAudio (Panel.decoder (Panel.after [generateEncodingCode enc])) encoded =
      Audio.Returns (Some b).
Proof.
  intros [Hscheme [(ds & n & Hx & Hne & Hnorm) Hrange]] Hr Hn Hm Hcap Hrect Hdiv Hsplit.
  cbn [Spec.of_encoder Spec.scheme Spec.interval] in *.
  assert (Hty : encodingType enc <> none) by (by destruct (encodingType enc)).
  assert (Hparts : encodingType enc = split -> (2 <= numberOfParts enc <= 10)%Z).
  { intros Hs. by rewrite Hs in Hscheme. }
  rewrite Hx in Hrange, Hm. cbn [EncodePanel.seconds] in Hm.
  assert (HI : (0 < finite_value false ds n)%Q).
  { destruct Hrange as [Hlo _]. eapply Qlt_le_trans; [|exact Hlo]. reflexivity. }
  rewrite (after_one _ (generated_code_nonempty enc Hty)).
  rewrite (generated_code_parses enc initial_decoder_state ds n) by done.
  cbn [fst snd]. split.
  { unfold Panel.decode_disabled. cbn [Panel.isValidCode Panel.decodeInputCode].
    by rewrite bool_decide_eq_false_2 by (by apply generated_code_nonempty). }
  unfold EncodePanel.encodeAudio, Panel.decodeAudio. rewrite Hx.
  cbn [decodeInterval decodingType decodeNumberOfParts isDecodeReversed Panel.decoder].
  destruct (encodingType enc) eqn:Ety; [done| |].
  - destruct (Hsplit eq_refl) as [s Hcount]. specialize (Hparts eq_refl).
    rewrite decide_True by done.
    apply (runs_round_trip
             (fun A => @Permutation.encodeSplit A (Z.to_nat (numberOfParts enc)))
             (fun A => @Permutation.decodeSplit A (Z.to_nat (numberOfParts enc)))
             split _ _ count b (finite_value false ds n) m (isReversed enc)); try done.
    + intros A B h l. apply encodeSplit_fmap.
    + intros A B h l. apply decodeSplit_fmap.
    + intros A l. apply encodeSplit_Permutation. lia.
    + intros A l. apply decodeSplit_submseteq.
    + intros A l Hl. apply (split_round_trip_even _ s); [lia|]. by rewrite Hl.
  - apply (runs_round_trip (@Permutation.encodeOddEven) (@Permutation.decodeOddEven)
             oddEven _ _ count b (finite_value false ds n) m (isReversed enc)); try done.
    + intros A B h l. apply encodeOddEven_fmap.
    + intros A B h l. apply decodeOddEven_fmap.
    + intros A l. apply encodeOddEven_Permutation.
    + intros A l. by rewrite decodeOddEven_Permutation.
    + intros A l _. apply oddEven_decode_encode.
Qed.
End ShownCodeRuns.

(** ** The permutations *)

(** X1.  Split round trip.  When the number of segments is a multiple
    of the number of parts, [k * s] segments in [k] parts, the Split
    branch of [decodeAudio] gives back what the Split branch of
    [encodeAudio] was given, in the original order. *)
Theorem split_round_trip_divisible {A : Type} (k s : nat) (segments : list A) :
  0 < k -> length segments = k * s ->
  Permutation.decodeSplit k (Permutation.encodeSplit k segments) = segments.
Proof. apply split_round_trip_even. Qed.

Lemma split_round_trip_divisible_witness :
  Permutation.decodeSplit 2 (Permutation.encodeSplit 2 [0; 1; 2; 3]) = [0; 1; 2; 3].
Proof. apply (split_round_trip_divisible 2 2); [lia | reflexivity]. Defined.

(** X2.  Split with no more segments than parts.  Every part then holds
    at most one segment: the encoder leaves the order as it is, and so
    does the decoder. *)
Theorem split_few_segments_unchanged {A : Type} (k : nat) (segments : list A) :
  0 < k -> length segments <= k ->
  Permutation.encodeSplit k segments = segments /\
  Permutation.decodeSplit k segments = segments.
Proof. intros Hk Hlen. split; [by apply encodeSplit_few | by apply decodeSplit_few]. Qed.

Lemma split_few_segments_unchanged_witness :
  Permutation.encodeSplit 3 [0; 1] = [0; 1] /\ Permutation.decodeSplit 3 [0; 1] = [0; 1].
Proof. apply (split_few_segments_unchanged 3); simpl; lia. Defined.

(** X3.  The Split encoder loses and repeats nothing: for every number
    of parts and of segments, the sequence it emits is a permutation of
    the sequence it was given. *)
Theorem encodeSplit_loses_nothing {A : Type} (k : nat) (segments : list A) :
  0 < k -> Permutation.encodeSplit k segments ≡ₚ segments.
Proof. apply encodeSplit_Permutation. Qed.

Lemma encodeSplit_loses_nothing_witness :
  Permutation.encodeSplit 3 [0; 1; 2; 3] ≡ₚ [0; 1; 2; 3].
Proof. apply (encodeSplit_loses_nothing 3). lia. Defined.

(** X4.  The Split decoder adds and repeats nothing: whatever the
    number of parts, every segment it returns is one it was given, as
    often at most as it was given (it may drop segments). *)
Theorem decodeSplit_adds_nothing {A : Type} (k : nat) (segments : list A) :
  0 < k -> Permutation.decodeSplit k segments ⊆+ segments.
Proof. intros _. apply decodeSplit_submseteq. Qed.

Lemma decodeSplit_adds_nothing_witness :
  Permutation.decodeSplit 3 [0; 2; 1; 3] ⊆+ [0; 2; 1; 3].
Proof. apply (decodeSplit_adds_nothing 3). lia. Defined.

(** X5.  OddEven the other way round.  Encoding what the OddEven
    decoder returned gives back the decoder's input, so the two
    reorderings are inverse to each other in both orders; each of them
    is a permutation of its input. *)
Theorem oddEven_mutually_inverse {A : Type} (segments : list A) :
  Permutation.encodeOddEven (Permutation.decodeOddEven segments) = segments /\
  Permutation.encodeOddEven segments ≡ₚ segments /\
  Permutation.decodeOddEven segments ≡ₚ segments.
Proof.
  split; [apply oddEven_encode_after_decode|].
  split; [apply encodeOddEven_Permutation | apply decodeOddEven_Permutation].
Qed.

(** ** The assembler and the reversal *)

(** X6.  [processInBatches] lays the segments end to end.  For segments
    of [nch] channels, each channel of a segment of one length, it
    that hold a sample at least, it returns a buffer of the sample rate
    given whose channel [c] is the channel [c] of the segments one after
    the other, in the order of the sequence; the batches of 50 do not
    show. *)
Theorem assembler_concatenates (segments : list Audio.Processor.AudioSegment)
        (nch : nat) (rate : Q) :
  0 < nch -> Forall (Assembly.uniform nch) segments ->
  0 < sum_list (Assembly.segment_samples <$> segments) ->
  Audio.Processor.processInBatches segments nch rate =
    Some (Pipeline.assembled nch rate segments).
Proof. intros Hn Hu _. by apply processInBatches_concat. Qed.

Lemma assembler_concatenates_witness :
  Audio.Processor.processInBatches [segment_3_4; segment_1_2] 1 2 =
    Some (Pipeline.assembled 1 2 [segment_3_4; segment_1_2]).
Proof.
  apply (assembler_concatenates [segment_3_4; segment_1_2] 1 2).
  - lia.
  - repeat constructor; intros [|c] src H; simpl in H; try discriminate;
      by injection H as <-.
  - vm_compute. lia.
Defined.

(** X7.  Reversing twice.  [reverseAudioBuffer] applied to its own
    result gives the buffer back, which is how [decodeAudio] undoes the
    reversal of [encodeAudio]. *)
Theorem reversal_undoes_itself (buffer : Audio.AudioBuffer) :
  Audio.Processor.reverseAudioBuffer (Audio.Processor.reverseAudioBuffer buffer) = buffer.
Proof. apply reverseAudioBuffer_involutive. Qed.

(** ** The runs of AudioProcessor *)







(** A buffer that ends in a short segment does not come back: ten
    samples cut at four give segments of 4, 4 and 2 samples, which
    OddEven encodes as 4, 2, 4; the decoder cuts that buffer at four
    again and puts back runs that are not the segments. *)
Lemma short_last_segment :
  exists encoded decoded,
    Pipeline.encodeAudio Codec.oddEven 2 1 false ten_samples = Audio.Returns (Some encoded) /\
    Pipeline.decodeAudio Codec.oddEven 2 1 false encoded = Audio.Returns (Some decoded) /\
    Audio.channelData decoded =
      [[1; 2; 3; 4; 7; 8; 9; 10; 5; 6]%Q; [11; 12; 13; 14; 17; 18; 19; 20; 15; 16]%Q].
Proof. eexists _, _. split; [vm_compute; reflexivity|]. split; vm_compute; reflexivity. Qed.

(** ** The encoding code *)

(** X11.  The codes that [parseEncodingCode] accepts.  A code is
    accepted only if it is [<type>b<parts>b<interval><flag>] with no
    further [b], the flag [t] or [f], and either the type [s], with a
    parts field that [parseInt] reads, or the type [oe] with an empty
    parts field; the state then holds the type, the parts read (for [oe]
    the parts it held before), the interval that [parseFloat] reads and
    the flag. *)
Theorem accepted_code_shape (code : list ascii) (st st' : Codec.DecoderState) :
  Codec.parseEncodingCode code st = (true, st') ->
  exists type partsStr intervalStr (flag : bool),
    code = type ++ JsNum.str "b" ++ partsStr ++ JsNum.str "b" ++ intervalStr ++
           (if flag then JsNum.str "t" else JsNum.str "f") /\
    JsNum.free_of "b" type /\ JsNum.free_of "b" partsStr /\
    JsNum.free_of "b" intervalStr /\
    Codec.decodeInterval st' = JsNum.parseFloat intervalStr /\
    Codec.isDecodeReversed st' = flag /\
    ((type = JsNum.str "s" /\ Codec.decodingType st' = Codec.split /\
      JsNum.parseInt partsStr = Some (Codec.decodeNumberOfParts st')) \/
     (type = JsNum.str "oe" /\ partsStr = [] /\ Codec.decodingType st' = Codec.oddEven /\
      Codec.decodeNumberOfParts st' = Codec.decodeNumberOfParts st)).
Proof. apply parse_accepts. Qed.

Lemma accepted_code_shape_witness :
  exists type partsStr intervalStr (flag : bool),
    JsNum.str "sb5b0.2t" =
      type ++ JsNum.str "b" ++ partsStr ++ JsNum.str "b" ++ intervalStr ++
      (if flag then JsNum.str "t" else JsNum.str "f").
Proof.
  destruct (accepted_code_shape (JsNum.str "sb5b0.2t") initial_decoder_state
              {| Codec.decodingType := Codec.split; Codec.decodeNumberOfParts := 5;
                 Codec.decodeInterval := num_0_2; Codec.isDecodeReversed := true |}
              eq_refl)
    as (type & partsStr & intervalStr & flag & Hcode & _).
  by exists type, partsStr, intervalStr, flag.
Defined.

(** X12.  An interval outside the range gives a code that is turned
    down.  [generateEncodingCode] makes a code for whatever interval
    the encoder holds; when that interval (printed without exponent)
    lies outside [[0.001, 10]], [parseEncodingCode] rejects the code at
    its interval check, for Split and for OddEven. *)
Theorem interval_out_of_range_rejected (enc : Codec.EncoderState) (st : Codec.DecoderState)
        (ds : list JsNum.digit) (n : Z) :
  Codec.encodingType enc <> Codec.none ->
  Codec.interval enc = JsNum.Finite false ds n -> ds <> [] -> JsNum.normal_digits ds ->
  (-6 < n <= 21)%Z ->
  ~ Spec.value_in_range (Codec.interval enc) ->
  Codec.parseEncodingCode_run (Codec.generateEncodingCode enc) st =
    inl Codec.IntervalRange.
Proof.
  intros Hty Hx Hne Hnorm Hn Hout.
  destruct (generated_fields enc ds n Hx Hne Hn Hty) as (type & partsStr & Hs & Ht & _).
  rewrite Hx in Hout.
  by apply (parse_printed_interval _ type partsStr ds n (Codec.isReversed enc)).
Qed.

Lemma interval_out_of_range_rejected_witness :
  Codec.parseEncodingCode_run (Codec.generateEncodingCode oddEven_interval_20)
                              initial_decoder_state = inl Codec.IntervalRange.
Proof.
  apply (interval_out_of_range_rejected oddEven_interval_20 initial_decoder_state
           [JsNum.D2] 2).
  - discriminate.
  - reflexivity.
  - discriminate.
  - split; discriminate.
  - lia.
  - intros [_ H]. vm_compute in H. by apply H.
Defined.



(** X14.  The Decode button.  Whatever sequence of values was typed
    into the code input since the component was mounted: when the
    Decode button is enabled, the value in the input is a code that
    [parseEncodingCode] accepted and the decoder state is the one that
    this parse left; the type is Split or OddEven, the interval lies in
    [[0.001, 10]], the parts in [[2, 10]], and [decodeAudio] on any
    buffer returns (its segmenter does not loop for ever). *)
Theorem decode_enabled_means_parsed (values : list (list ascii)) (isDecoding : bool) :
  Panel.decode_disabled isDecoding (Panel.after values) = false ->
  (exists st,
      Codec.parseEncodingCode (Panel.decodeInputCode (Panel.after values)) st =
        (true, Panel.decoder (Panel.after values))) /\
  Codec.decodingType (Panel.decoder (Panel.after values)) <> Codec.none /\
  Spec.value_in_range (Codec.decodeInterval (Panel.decoder (Panel.after values))) /\
  (2 <= Codec.decodeNumberOfParts (Panel.decoder (Panel.after values)) <= 10)%Z /\
  forall audioBuffer,
    Panel.decodeAudio (Panel.decoder (Panel.after values)) audioBuffer <> Audio.Diverges.
Proof.
  intros Hen. destruct (after_consistent values) as (Hi & Hp & Hv).
  set (p := Panel.after values) in *.
  unfold Panel.decode_disabled in Hen.
  apply orb_false_elim in Hen as [Hen Hempty].
  apply orb_false_elim in Hen as [_ Hvalid].
  apply negb_false_iff in Hvalid. apply bool_decide_eq_false in Hempty.
  destruct (Hv Hvalid Hempty) as [st Hparse].
  split; [by exists st|]. split.
  - apply parse_accepts in Hparse
      as (type & partsStr & iv & flag & _ & _ & _ & _ & _ & _ & Hcase).
    destruct Hcase as [(_ & -> & _)|(_ & _ & -> & _)]; done.
  - split; [done|]. split; [done|]. intros audioBuffer.
    destruct (in_range_positive _ Hi) as (neg & ds & n & Hx & Hpos).
    unfold Panel.decodeAudio. rewrite Hx. unfold Pipeline.decodeAudio.
    match goal with |- context [Audio.Processor.createAudioSegments ?w ?I] =>
      pose proof (createAudioSegments_returns w I Hpos) as Hret;
      destruct (Audio.Processor.createAudioSegments w I) end; done.
Qed.

Lemma decode_enabled_means_parsed_witness :
  Panel.decode_disabled false (Panel.after [JsNum.str "oebb0.2"; JsNum.str "oebb0.2t"])
    = false /\
  Codec.decodingType
    (Panel.decoder (Panel.after [JsNum.str "oebb0.2"; JsNum.str "oebb0.2t"]))
    <> Codec.none.
Proof.
  split; [reflexivity|].
  apply (decode_enabled_means_parsed [JsNum.str "oebb0.2"; JsNum.str "oebb0.2t"] false).
  reflexivity.
Defined.



(** ** AudioEditor *)





(** ** The WAV file *)

(** X18.  The file that [audioBufferToWav] of AudioProcessor writes.
    No write falls outside the buffer; the file is the 44 bytes of the
    header (RIFF, the data length plus 36, WAVE, "fmt ", 16, format 1,
    the channels, the sample rate, the byte rate, the block align, 16
    bits, "data", the data length, every number little-endian) followed
    by the samples, frame after frame and channel after channel, two
    bytes each: [44 + length * numberOfChannels * 2] bytes in all.
    Every sample is clamped to [[-1, 1]] and stored as an integer
    between -32767 and 32767, so that no value wraps around. *)
Theorem wav_layout (buffer : Audio.AudioBuffer) :
  exists wav,
    Wav.audioBufferToWav buffer = Some wav /\
    wav = Wav.header (Audio.numberOfChannels buffer)
                     (Audio.frames buffer * Audio.numberOfChannels buffer * 2)
                     (Audio.sampleRate buffer) ++
          Wav.interleaved (Audio.numberOfChannels buffer) (Audio.frames buffer)
            (fun i channel => Wav.clamp (Wav.sample_at buffer channel i) * 32767)%Q /\
    length wav = 44 + Audio.frames buffer * Audio.numberOfChannels buffer * 2 /\
    forall i channel,
      (-32767 <= JsMath.truncate (Wav.clamp (Wav.sample_at buffer channel i) * 32767)%Q
       <= 32767)%Z.
Proof.
  eexists. split; [|split; [reflexivity|split]].
  - unfold Wav.audioBufferToWav. cbv zeta. rewrite header_writes.
    apply write_samples_interleaved. intros i channel _ _.
    rewrite header_length. lia.
  - by rewrite length_app, header_length, interleaved_length.
  - intros i channel. apply (truncate_bounds _ 32767); [lia|].
    destruct (clamp_range (Wav.sample_at buffer channel i)) as [Hlo Hhi].
    change (inject_Z 32767) with 32767%Q. split; nra.
Qed.

(** X19.  The file that [audioBufferToWav] of AudioEditor writes.  It
    has the same header and the same layout as the file of
    AudioProcessor; a negative sample is scaled by 32768 instead of
    32767, so that the stored integers lie between -32768 and 32767,
    again with no wrap-around. *)
Theorem wav_layout_editor (buffer : Audio.AudioBuffer) :
  Wav.audioBufferToWav_editor buffer =
    Some (Wav.header (Audio.numberOfChannels buffer)
                     (Audio.frames buffer * Audio.numberOfChannels buffer * 2)
                     (Audio.sampleRate buffer) ++
          Wav.interleaved (Audio.numberOfChannels buffer) (Audio.frames buffer)
            (fun i channel =>
               if Qltb (Wav.clamp (Wav.sample_at buffer channel i)) 0
               then Wav.clamp (Wav.sample_at buffer channel i) * 32768
               else Wav.clamp (Wav.sample_at buffer channel i) * 32767)%Q) /\
  forall i channel,
    (-32768 <=
     JsMath.truncate (if Qltb (Wav.clamp (Wav.sample_at buffer channel i)) 0
                      then Wav.clamp (Wav.sample_at buffer channel i) * 32768
                      else Wav.clamp (Wav.sample_at buffer channel i) * 32767)%Q
     <= 32767)%Z.
Proof.
  split.
  - unfold Wav.audioBufferToWav_editor. cbv zeta.
    change (16 / 8) with 2. change (Z.of_nat 16) with 16%Z.
    replace (Audio.frames buffer * (Audio.numberOfChannels buffer * 2))
      with (Audio.frames buffer * Audio.numberOfChannels buffer * 2) by lia.
    rewrite (truncate_comp
               (Audio.sampleRate buffer *
                inject_Z (Z.of_nat (Audio.numberOfChannels buffer * 2)))
               (Audio.sampleRate buffer *
                inject_Z (Z.of_nat (Audio.numberOfChannels buffer)) * 2)).
    2: { rewrite Nat2Z.inj_mul, inject_Z_mult. change (inject_Z (Z.of_nat 2)) with 2%Q.
         ring. }
    rewrite header_writes.
    apply write_samples_interleaved. intros i channel _ _.
    rewrite header_length. lia.
  - intros i channel.
    destruct (clamp_range (Wav.sample_at buffer channel i)) as [Hlo Hhi].
    set (s := Wav.clamp _) in *.
    destruct (Qltb s 0) eqn:Hs.
    + apply Qltb_lt in Hs. apply (truncate_between _ (-32768) 32767); [lia|].
      change (inject_Z (-32768)) with (-32768)%Q. change (inject_Z 32767) with 32767%Q.
      split; nra.
    + apply Qltb_ge in Hs. apply (truncate_between _ (-32768) 32767); [lia|].
      change (inject_Z (-32768)) with (-32768)%Q. change (inject_Z 32767) with 32767%Q.
      split; nra.
Qed.

(** ** The clock *)


